(** * LuminaryAI: the document retrieval engine, embedded in Rocq

    A shallow embedding of the retrieval core of the repository:
    - [modules/document_rag_chromadb.py]  (class [ChromaDBRAGTool]),
    - [modules/document_processor.py]     ([DocumentProcessor.chunk_text]),
    - [modules/reasoning_engine.py]       ([ReasoningEngine._chunk_document],
                                           [_answer_document_question]).

    Python strings are lists of characters; a character is a code point of
    the Latin-1 range (type [ascii]).  Python dictionaries used as maps are
    [gmap]s, and dictionaries of fixed shape are records.  The floating
    point distances and similarities of the vector index are rationals:
    every finite binary64 value is one, the comparisons of the code agree
    with those of [Q], and the one subtraction of the code is taken without
    rounding.  A function that can raise returns an [option], [None] being
    the exception.

    Two things the code leaves to its environment are parameters: the file
    a doc_id names ([file_of]; the files are a store by file name, written
    and read in text mode on POSIX, and a write to a file is taken to
    succeed), and the order in which the vector index returns entries at
    the same distance ([tie_order]). *)

From Stdlib Require Import QArith Lqa.
From Stdlib Require Import Ascii String DecimalString.
From Stdlib Require DecimalNat DecimalFacts.
From stdpp Require Import base tactics option list sorting gmap strings.

Local Open Scope Z_scope.

(** ** Python strings *)

Module PyStr.

Abbreviation pystr := (list ascii).

(** A string literal of the source text. *)
Definition lit (s : string) : pystr := list_ascii_of_string s.

(** [str.isspace] on one character, for code points below 256:
    TAB..CR, FS..US, SPACE, NEL (0x85) and NBSP (0xA0). *)
Definition isspace (c : ascii) : bool :=
  let n := N_of_ascii c in
  (((9 <=? n) && (n <=? 13)) || ((28 <=? n) && (n <=? 32))
   || (n =? 133) || (n =? 160))%N.

(** [str.lower] on one character, for code points below 256:
    A..Z and the Latin-1 capitals 0xC0..0xDE except the sign 0xD7. *)
Definition lower_char (c : ascii) : ascii :=
  let n := N_of_ascii c in
  if (((65 <=? n) && (n <=? 90))
      || ((192 <=? n) && (n <=? 222) && negb (n =? 215)))%N
  then ascii_of_N (n + 32) else c.

Definition lower (s : pystr) : pystr := map lower_char s.

(** [s.lstrip()], [s.rstrip()], [s.strip()] *)
Fixpoint lstrip (s : pystr) : pystr :=
  match s with
  | c :: s' => if isspace c then lstrip s' else s
  | [] => []
  end.

Definition rstrip (s : pystr) : pystr := reverse (lstrip (reverse s)).

Definition strip (s : pystr) : pystr := lstrip (rstrip s).

(** [s.split()]: the maximal runs of non-whitespace characters.
    [cur] is the word being read, in reverse. *)
Fixpoint split_ws_go (s : pystr) (cur : pystr) : list pystr :=
  match s with
  | [] => match cur with [] => [] | _ => [reverse cur] end
  | c :: s' =>
      if isspace c
      then match cur with
           | [] => split_ws_go s' []
           | _ => reverse cur :: split_ws_go s' []
           end
      else split_ws_go s' (c :: cur)
  end.

Definition split_ws (s : pystr) : list pystr := split_ws_go s [].

(** [s.startswith(p)] *)
Fixpoint startswith (p s : pystr) : bool :=
  match p, s with
  | [], _ => true
  | a :: p', b :: s' => if decide (a = b) then startswith p' s' else false
  | _ :: _, [] => false
  end.

(** [s.split(sep)] for a non-empty separator: left to right, matches do
    not overlap.  [skip] counts the characters of a matched separator
    still to be passed over; [cur] is the piece being read, in reverse. *)
Fixpoint split_go (sep s : pystr) (skip : nat) (cur : pystr) : list pystr :=
  match s with
  | [] => [reverse cur]
  | c :: s' =>
      match skip with
      | S k => split_go sep s' k cur
      | O =>
          if startswith sep s
          then reverse cur :: split_go sep s' (pred (length sep)) []
          else split_go sep s' O (c :: cur)
      end
  end.

Definition split (sep s : pystr) : list pystr := split_go sep s O [].

(** [sep.join(l)] *)
Fixpoint join (sep : pystr) (l : list pystr) : pystr :=
  match l with
  | [] => []
  | [x] => x
  | x :: l' => x ++ sep ++ join sep l'
  end.

(** [l[k:]] and [l[:k]] with Python's reading of negative bounds. *)
Definition slice_from {A} (l : list A) (k : Z) : list A :=
  if k <? 0 then drop (Z.to_nat (Z.of_nat (length l) + k)) l
  else drop (Z.to_nat k) l.

Definition slice_to {A} (l : list A) (k : Z) : list A :=
  if k <? 0 then take (Z.to_nat (Z.of_nat (length l) + k)) l
  else take (Z.to_nat k) l.

(** [l[a:b]] *)
Definition slice {A} (l : list A) (a b : Z) : list A :=
  let n := Z.of_nat (length l) in
  let norm i := if i <? 0 then Z.max 0 (n + i) else Z.min i n in
  let a' := norm a in
  let b' := norm b in
  take (Z.to_nat (b' - a')) (drop (Z.to_nat a') l).

(** [str(n)] for a non-negative integer. *)
Definition str_of_nat (n : nat) : pystr :=
  lit (NilZero.string_of_uint (Nat.to_uint n)).

(** [sorted(l, key=...)] and [l.sort(key=...)]: Python's sort is stable,
    and the result of a stable sort is unique, so insertion sort stands
    for it.  [before y x] says that the key of [y] must come strictly
    before the key of [x]: for [reverse=True] that the key of [y] is
    strictly greater; elements with equal keys keep their input order. *)
Section Sort.
Context {A : Type} (before : A → A → bool).

Fixpoint insert_by (x : A) (l : list A) : list A :=
  match l with
  | [] => [x]
  | y :: l' => if before y x then y :: insert_by x l' else x :: l
  end.

Fixpoint sort_by (l : list A) : list A :=
  match l with
  | [] => []
  | x :: l' => insert_by x (sort_by l')
  end.
End Sort.

Definition nl : pystr := ["010"%char].

(** White space only; used to state facts about [strip] and [split]. *)
Definition allspace (s : pystr) : Prop := Forall (λ c, isspace c = true) s.

(** Strings that begin and end with a character that is not white space. *)
Definition clean_edges (s : pystr) : Prop :=
  (∃ c t, s = c :: t ∧ isspace c = false)
  ∧ (∃ t c, s = t ++ [c] ∧ isspace c = false).

(** A word: not empty and free of white space. *)
Definition word (w : pystr) : Prop :=
  w ≠ [] ∧ Forall (λ c, isspace c = false) w.

End PyStr.

Import PyStr.

(** ** The chunkers *)

Module Chunker.

(** One element of the list returned by [ChromaDBRAGTool._chunk_text]:
    the dictionary with keys chunk_id, text and length. *)
Record Chunk := mkChunk {
  chunk_id : nat;
  text : pystr;
  chunk_len : nat   (* key "length" *)
}.

(** The words carried over into the next chunk:
    [" ".join(words[-overlap//5:]) if len(words) > overlap//5 else ""].
    In Python [-overlap//5] is [(-overlap)//5], and [//] rounds down. *)
Definition overlap_text (overlap : Z) (words : list pystr) : pystr :=
  if overlap / 5 <? Z.of_nat (length words)
  then join (lit " ") (slice_from words ((- overlap) / 5))
  else [].

(** The loop of [_chunk_text] over the paragraphs, with the three
    variables it updates. *)
Fixpoint _chunk_text_loop (chunk_size overlap : Z) (paragraphs : list pystr)
    (chunks : list Chunk) (current_chunk : pystr) (chunk_index : nat)
    : list Chunk * pystr * nat :=
  match paragraphs with
  | [] => (chunks, current_chunk, chunk_index)
  | para :: rest =>
      if Z.of_nat (length current_chunk) + Z.of_nat (length para) <=? chunk_size
      then _chunk_text_loop chunk_size overlap rest
             chunks (current_chunk ++ para ++ nl ++ nl) chunk_index
      else
        match current_chunk with
        | _ :: _ =>
            let chunks' :=
              chunks ++ [mkChunk chunk_index (strip current_chunk)
                                 (length current_chunk)] in
            let words := split_ws current_chunk in
            _chunk_text_loop chunk_size overlap rest
              chunks' (overlap_text overlap words ++ nl ++ para ++ nl ++ nl)
              (S chunk_index)
        | [] =>
            _chunk_text_loop chunk_size overlap rest
              chunks (para ++ nl ++ nl) chunk_index
        end
  end.

(** [ChromaDBRAGTool._chunk_text(text, chunk_size, overlap)] *)
Definition _chunk_text (text_ : pystr) (chunk_size overlap : Z) : list Chunk :=
  let paragraphs := split (nl ++ nl) text_ in
  let '(chunks, current_chunk, chunk_index) :=
    _chunk_text_loop chunk_size overlap paragraphs [] [] 0%nat in
  match current_chunk with
  | _ :: _ =>
      chunks ++ [mkChunk chunk_index (strip current_chunk) (length current_chunk)]
  | [] => chunks
  end.

(** The defaults of [_chunk_text]. *)
Definition default_chunk_size : Z := 500.
Definition default_overlap : Z := 100.

(** The [while] loop of [DocumentProcessor.chunk_text].  The loop need
    not end ([start] does not advance when [overlap >= chunk_size]), so it
    runs on fuel: [None] is a run that used it up. *)
Fixpoint chunk_text_loop (fuel : nat) (text_ : pystr) (chunk_size overlap : Z)
    (text_length start : Z) (chunks : list pystr) : option (list pystr) :=
  match fuel with
  | O => None
  | S fuel' =>
      if start <? text_length then
        let end_ := Z.min (start + chunk_size) text_length in
        let chunk := strip (slice text_ start end_) in
        let chunks' := match chunk with _ :: _ => chunks ++ [chunk] | [] => chunks end in
        if text_length <=? end_ then Some chunks'
        else chunk_text_loop fuel' text_ chunk_size overlap text_length
               (end_ - overlap) chunks'
      else Some chunks
  end.

(** [DocumentProcessor.chunk_text(text, chunk_size, overlap)] *)
Definition chunk_text (fuel : nat) (text_ : pystr) (chunk_size overlap : Z)
    : option (list pystr) :=
  match text_, strip text_ with
  | [], _ | _, [] => Some []
  | _, _ =>
      chunk_text_loop fuel text_ chunk_size overlap (Z.of_nat (length text_)) 0 []
  end.

(** The loop of [ReasoningEngine._chunk_document]. *)
Fixpoint _chunk_document_loop (chunk_size : Z) (paragraphs : list pystr)
    (chunks : list pystr) (current_chunk : pystr) (current_length : Z)
    : list pystr * pystr :=
  match paragraphs with
  | [] => (chunks, current_chunk)
  | paragraph :: rest =>
      let para_length := Z.of_nat (length paragraph) in
      if current_length + para_length + 2 <=? chunk_size
      then _chunk_document_loop chunk_size rest chunks
             (current_chunk ++ paragraph ++ nl ++ nl)
             (current_length + para_length + 2)
      else
        let chunks' :=
          match current_chunk with
          | _ :: _ => chunks ++ [strip current_chunk]
          | [] => chunks
          end in
        _chunk_document_loop chunk_size rest chunks'
          (paragraph ++ nl ++ nl) (para_length + 2)
  end.

(** [ReasoningEngine._chunk_document(text, chunk_size)] *)
Definition _chunk_document (text_ : pystr) (chunk_size : Z) : list pystr :=
  let paragraphs := split nl text_ in
  let '(chunks, current_chunk) :=
    _chunk_document_loop chunk_size paragraphs [] [] 0 in
  match current_chunk with
  | _ :: _ => chunks ++ [strip current_chunk]
  | [] => chunks
  end.

End Chunker.

Import Chunker.

(** ** The retrieval engine: [ChromaDBRAGTool] *)

Module Rag.

(** A metadata value: ChromaDB stores strings and numbers; Python's
    [True] and [False] are the integers 1 and 0. *)
Inductive meta_value :=
| MStr (s : pystr)
| MInt (z : Z).

#[global] Instance meta_value_eq_dec : EqDecision meta_value.
Proof. solve_decision. Defined.

Abbreviation Metadata := (gmap pystr meta_value).
Abbreviation Embedding := (list Q).

(** [d.update(e)], and the unpacking of [e] after the keys of [d] in a
    dictionary display: an entry of [e] replaces the one of [d]. *)
Definition dict_update (d e : Metadata) : Metadata := e ∪ d.

(** *** The vector index (the ChromaDB collection)

    ChromaDB is an external library; the collection is modelled by what
    its interface documents: entries keyed by unique ids, [add] that
    leaves an entry alone when its id is already there, [get] and [query]
    with a [where] filter on one metadata key, [delete] by ids, [count],
    and [query] that refuses a number of results below one or from 2^32
    on.  The collection is created without a distance setting, which
    selects the squared Euclidean distance.  The interface does not say in
    which order entries at the same distance are returned, and that order
    is seen to change with the request. *)

Record Entry := mkEntry {
  embedding : Embedding;
  document : pystr;
  metadata : Metadata
}.

Abbreviation Collection := (gmap pystr Entry).

Fixpoint l2 (a b : Embedding) : Q :=
  match a, b with
  | x :: a', y :: b' => (x - y) * (x - y) + l2 a' b'
  | _, _ => 0
  end%Q.

Definition Qlt_bool (x y : Q) : bool := negb (Qle_bool y x).

(** A [where] filter: no filter, or one key with the value it must have. *)
Definition where_match (where_ : option (pystr * meta_value)) (e : Entry) : bool :=
  match where_ with
  | None => true
  | Some (k, v) => bool_decide (metadata e !! k = Some v)
  end.

(** One entry handed to [collection.add]: an id that is already in the
    collection keeps the entry it has. *)
Definition add_entry (c : Collection)
    (x : pystr * (Embedding * (pystr * Metadata))) : Collection :=
  let '(i, (e, (d, m))) := x in
  match c !! i with
  | Some _ => c
  | None => <[i := mkEntry e d m]> c
  end.

(** [collection.add(ids=..., embeddings=..., documents=..., metadatas=...)] *)
Definition collection_add (c : Collection)
    (ids : list pystr) (embeddings : list Embedding)
    (documents : list pystr) (metadatas : list Metadata) : Collection :=
  foldl add_entry c (zip ids (zip embeddings (zip documents metadatas))).

Definition collection_matching (c : Collection)
    (where_ : option (pystr * meta_value)) : list (pystr * Entry) :=
  map_to_list (filter (λ ie : pystr * Entry, where_match where_ ie.2 = true) c).

(** [collection.get(where=...)['ids']] *)
Definition collection_get_ids (c : Collection)
    (where_ : option (pystr * meta_value)) : list pystr :=
  (collection_matching c where_).*1.

(** [collection.delete(ids=...)] *)
Definition collection_delete (c : Collection) (ids : list pystr) : Collection :=
  foldr delete c ids.

(** [collection.count()] *)
Definition collection_count (c : Collection) : nat := size c.

(** One row of a query answer: id, entry and distance to the query. *)
Definition Row : Type := pystr * Entry * Q.

(** The numbers of results [collection.query] accepts: a number below
    one is refused with an error, and a number from 2^32 on overflows the
    index's counter, which raises too. *)
Definition accepted_results (n_results : Z) : bool :=
  (0 <? n_results) && (n_results <? 2 ^ 32).

Section Index.

(** The order among entries at the same distance, which the index is free
    to choose for each request: [tie_order c q n w k] is the place of the
    entry with id [k] among its equals when the collection [c] is asked for
    the [n] entries nearest to [q] under the filter [w]. *)
Variable tie_order :
  Collection → Embedding → Z → option (pystr * meta_value) → pystr → Z.

(** The matching entries, equals in the order of the request. *)
Definition candidates (c : Collection) (q : Embedding) (n_results : Z)
    (where_ : option (pystr * meta_value)) : list (pystr * Entry) :=
  sort_by (λ y x : pystr * Entry,
             tie_order c q n_results where_ y.1 <? tie_order c q n_results where_ x.1)
    (collection_matching c where_).

(** [collection.query(query_embeddings=[q], n_results=n, where=...)]:
    the [n] nearest matching entries, nearest first; [None] is the error
    raised for a number of results that is not accepted. *)
Definition collection_query (c : Collection) (q : Embedding) (n_results : Z)
    (where_ : option (pystr * meta_value)) : option (list Row) :=
  if accepted_results n_results then
    let rows := map (λ ie, (ie, l2 q (embedding ie.2)))
                  (candidates c q n_results where_) in
    Some (take (Z.to_nat n_results)
            (sort_by (λ y x : Row, Qlt_bool y.2 x.2) rows))
  else None.

End Index.

(** *** The registry and the tool's state *)

(** An entry of [self.index["documents"]]. *)
Record DocInfo := mkDocInfo {
  di_doc_id : pystr;
  di_title : pystr;
  di_metadata : Metadata;
  added_at : pystr;
  chunk_count : nat;
  char_count : nat;
  word_count : nat
}.

(** The state of a [ChromaDBRAGTool]: the registry [self.index["documents"]],
    the files written under [docs_path], each under the name of the file
    (see [file_of] below), and the collection. *)
Record Tool := mkTool {
  index : gmap pystr DocInfo;
  files : gmap pystr pystr;
  collection : Collection
}.

(** *** Results *)

(** The two dictionaries [add_document] returns. *)
Inductive AddResult :=
| AddExisting (success : bool) (doc_id : pystr) (message : pystr) (existing : bool)
| AddDone (success : bool) (doc_id : pystr) (title : pystr)
          (chunks_created : nat) (message : pystr).

Definition add_success (r : AddResult) : bool :=
  match r with
  | AddExisting s _ _ _ | AddDone s _ _ _ _ => s
  end.

(** An element of ["results"] in the answer of [search_documents]. *)
Record Hit := mkHit {
  hit_chunk_id : pystr;
  hit_doc_id : meta_value;
  hit_text : pystr;
  similarity : Q;
  doc_title : meta_value
}.

Record SearchResult := mkSearchResult {
  sr_success : bool;
  sr_query : pystr;
  results_count : nat;
  total_searched : nat;
  results : list Hit
}.

(** The dictionaries [query_document] returns. *)
Inductive QueryResult :=
| QueryFailed (success : bool) (message : pystr)
| QueryAnswer (success : bool) (doc_id : pystr) (doc_title : pystr)
              (question : pystr) (answer : pystr) (sources : list Hit).

Definition query_success (r : QueryResult) : bool :=
  match r with
  | QueryFailed s _ | QueryAnswer s _ _ _ _ _ => s
  end.

Definition query_sources (r : QueryResult) : option (list Hit) :=
  match r with
  | QueryFailed _ _ => None
  | QueryAnswer _ _ _ _ _ src => Some src
  end.

(** The dictionaries [delete_document] returns. *)
Inductive DeleteResult :=
| DeleteFailed (success : bool) (message : pystr)
| DeleteDone (success : bool) (doc_id : pystr) (title : pystr)
             (chunks_deleted : nat) (message : pystr).

(** A value of [doc_groups] in [semantic_search_all]. *)
Record DocGroup := mkDocGroup {
  g_doc_id : meta_value;
  g_title : meta_value;
  max_similarity : Q;
  g_chunk_count : nat;
  top_chunks : list Hit
}.

(** The answer of [semantic_search_all]; the key total_docs_found is
    absent from the answer for an empty search. *)
Record GroupedResult := mkGroupedResult {
  gr_success : bool;
  gr_query : pystr;
  documents : list DocGroup;
  total_docs_found : option nat
}.

Section Tool.

(** The external capabilities: the sentence embedding of one text (a
    batch is encoded text by text), the MD5 digest in hexadecimal, and
    the text generation inside the [try] of [query_document], which
    gives the answer or the text of the exception raised. *)
Variable encode : pystr → Embedding.
Variable md5_hexdigest : pystr → pystr.
Variable generate : pystr → pystr + pystr.

(** The file that [os.path.join(self.docs_path, f"{doc_id}.txt")] names.
    Two doc_ids can name one file: the doc_id goes into the path as it is,
    with any separator or [..] it holds. *)
Variable file_of : pystr → pystr.

(** The order the vector index gives to entries at the same distance. *)
Variable tie_order :
  Collection → Embedding → Z → option (pystr * meta_value) → pystr → Z.

(** [_generate_doc_id] *)
Definition _generate_doc_id (content : pystr) : pystr :=
  take 16 (md5_hexdigest content).

(** The four keys [add_document] writes first into the metadata of a
    chunk. *)
Definition provenance (doc_id title : pystr) (chunk : Chunk) : Metadata :=
  <[lit "length" := MInt (Z.of_nat (chunk_len chunk))]>
  (<[lit "chunk_index" := MInt (Z.of_nat (chunk_id chunk))]>
   (<[lit "title" := MStr title]>
    (<[lit "doc_id" := MStr doc_id]> ∅))).

(** The metadata [add_document] builds for one chunk: the four keys, then
    [**(metadata or {})]. *)
Definition chunk_metadata (doc_id title : pystr)
    (metadata_ : option Metadata) (chunk : Chunk) : Metadata :=
  dict_update (provenance doc_id title chunk) (default ∅ metadata_).

(** [f"{doc_id}_{chunk['chunk_id']}"] *)
Definition chunk_key (doc_id : pystr) (chunk : Chunk) : pystr :=
  doc_id ++ lit "_" ++ str_of_nat (chunk_id chunk).

(** [add_document(content, title, metadata, doc_id)]; [now] is the
    text of [datetime.now().isoformat()] at the call. *)
Definition add_document (st : Tool) (content title : pystr)
    (metadata_ : option Metadata) (doc_id : option pystr) (now : pystr)
    : AddResult * Tool :=
  let doc_id := match doc_id with
                | None => _generate_doc_id content
                | Some d => d
                end in
  match index st !! doc_id with
  | Some _ =>
      (AddExisting false doc_id (lit "Document already exists") true, st)
  | None =>
      let files' := <[file_of doc_id := content]> (files st) in
      let chunks := _chunk_text content default_chunk_size default_overlap in
      let chunk_texts := map text chunks in
      let embeddings := map encode chunk_texts in
      let chunk_ids := map (chunk_key doc_id) chunks in
      let chunk_metadatas := map (chunk_metadata doc_id title metadata_) chunks in
      let collection' :=
        collection_add (collection st) chunk_ids embeddings chunk_texts
          chunk_metadatas in
      let index' :=
        <[doc_id := mkDocInfo doc_id title (default ∅ metadata_) now
                      (length chunks) (length content)
                      (length (split_ws content))]> (index st) in
      (AddDone true doc_id title (length chunks)
         (lit "Document '" ++ title ++ lit "' added successfully"),
       mkTool index' files' collection')
  end.

(** One formatted result; [None] is the [KeyError] of a missing key. *)
Definition format_row (r : Row) : option Hit :=
  let '(i, e, d) := r in
  doc_id ← metadata e !! lit "doc_id";
  title ← metadata e !! lit "title";
  Some (mkHit i doc_id (document e) (1 - d)%Q title).

(** The filter [search_documents] builds: [{"doc_id": doc_filter}]
    when [doc_filter] is given and not empty, no filter otherwise. *)
Definition doc_where (doc_filter : option pystr) : option (pystr * meta_value) :=
  match doc_filter with
  | Some (c :: f) => Some (lit "doc_id", MStr (c :: f))
  | Some [] | None => None
  end.

(** [search_documents(query, top_k, doc_filter)]; [None] is an
    exception. *)
Definition search_documents (st : Tool) (query : pystr) (top_k : Z)
    (doc_filter : option pystr) : option SearchResult :=
  let query_embedding := encode query in
  let where_filter := doc_where doc_filter in
  rows ← collection_query tie_order (collection st) query_embedding top_k
           where_filter;
  formatted_results ← mapM format_row rows;
  Some (mkSearchResult true query (length formatted_results)
          (collection_count (collection st)) formatted_results).

(** The prompt of [query_document]. *)
Definition query_prompt (title context question : pystr) : pystr :=
  lit "Based on the following document excerpts, answer the question."
  ++ nl ++ nl ++ lit "Document: " ++ title
  ++ nl ++ nl ++ lit "Context:" ++ nl ++ context
  ++ nl ++ nl ++ lit "Question: " ++ question
  ++ nl ++ nl
  ++ lit "Provide a clear, accurate answer based only on the context provided. If the answer cannot be found in the context, say so."
  ++ nl ++ nl ++ lit "Answer:".

(** The context [query_document] builds from the hits of a search. *)
Definition context_of (hits : list Hit) : pystr :=
  join (nl ++ nl) (map hit_text hits).

(** [query_document(doc_id, question)] *)
Definition query_document (st : Tool) (doc_id question : pystr)
    : option QueryResult :=
  match index st !! doc_id with
  | None =>
      Some (QueryFailed false (lit "Document " ++ doc_id ++ lit " not found"))
  | Some info =>
      search_results ← search_documents st question 3 (Some doc_id);
      match results search_results with
      | [] =>
          Some (QueryFailed false (lit "No relevant content found in document"))
      | _ :: _ =>
          let context := context_of (results search_results) in
          let answer :=
            match generate (query_prompt (di_title info) context question) with
            | inl response_text => response_text
            | inr e =>
                lit "Error generating answer: " ++ e ++ nl ++ nl
                ++ lit "Relevant context found:" ++ nl
                ++ slice_to context 500 ++ lit "..."
            end in
          Some (QueryAnswer true doc_id (di_title info) question answer
                  (results search_results))
      end
  end.

(** [delete_document(doc_id)] *)
Definition delete_document (st : Tool) (doc_id : pystr) : DeleteResult * Tool :=
  match index st !! doc_id with
  | None =>
      (DeleteFailed false (lit "Document " ++ doc_id ++ lit " not found"), st)
  | Some info =>
      let chunk_ids :=
        collection_get_ids (collection st) (Some (lit "doc_id", MStr doc_id)) in
      let collection' :=
        match chunk_ids with
        | _ :: _ => collection_delete (collection st) chunk_ids
        | [] => collection st
        end in
      let files' := delete (file_of doc_id) (files st) in
      let doc_title := di_title info in
      let index' := delete doc_id (index st) in
      (DeleteDone true doc_id doc_title (length chunk_ids)
         (lit "Document '" ++ doc_title ++ lit "' deleted successfully"),
       mkTool index' files' collection')
  end.

(** One step of the grouping loop of [semantic_search_all]: [doc_groups]
    is the dictionary in insertion order. *)
Fixpoint group_result (doc_groups : list DocGroup) (result : Hit) : list DocGroup :=
  match doc_groups with
  | [] =>
      [mkDocGroup (hit_doc_id result) (doc_title result) (similarity result)
                  1 [result]]
  | g :: rest =>
      if decide (g_doc_id g = hit_doc_id result)
      then mkDocGroup (g_doc_id g) (g_title g)
             (if Qlt_bool (max_similarity g) (similarity result)
              then similarity result else max_similarity g)
             (S (g_chunk_count g)) (top_chunks g ++ [result]) :: rest
      else g :: group_result rest result
  end.

(** [semantic_search_all(query, top_k)] *)
Definition semantic_search_all (st : Tool) (query : pystr) (top_k : Z)
    : option GroupedResult :=
  results_ ← search_documents st query (top_k * 2) None;
  match results results_ with
  | [] => Some (mkGroupedResult true query [] None)
  | _ :: _ =>
      let doc_groups := foldl group_result [] (results results_) in
      let documents_ :=
        slice_to
          (sort_by (λ y x, Qlt_bool (max_similarity x) (max_similarity y))
             doc_groups)
          top_k in
      Some (mkGroupedResult true query documents_ (Some (length documents_)))
  end.

End Tool.

End Rag.

Import Rag.

(** ** The question-answering analysis of [ReasoningEngine] *)

Module Reasoning.

(** The dictionaries [_answer_document_question] returns. *)
Inductive AnalysisResult :=
| QaAnswer (success : bool) (analysis : pystr) (type_ : pystr)
           (query : pystr) (chunks_used : nat)
| AnalysisFailed (success : bool) (error : pystr).

(** The lexical overlap of a query and a chunk:
    [len(query_words.intersection(chunk_words))] for the sets of the
    lowercased words of each. *)
Definition overlap_score (query chunk : pystr) : nat :=
  let query_words : gset pystr := list_to_set (split_ws (lower query)) in
  let chunk_words : gset pystr := list_to_set (split_ws (lower chunk)) in
  size (query_words ∩ chunk_words).

(** The tuples [(i, overlap, chunk)] of [chunk_scores], before the sort. *)
Definition chunk_scores (document_text query : pystr) : list (nat * nat * pystr) :=
  let chunks := _chunk_document document_text 1500 in
  imap (λ i chunk, (i, overlap_score query chunk, chunk)) chunks.

(** The key of the sort, [lambda x: x[1]] with [reverse=True]: [y] comes
    before [x] when its score is strictly higher. *)
Definition by_score (y x : nat * nat * pystr) : bool := (x.1.2 <? y.1.2)%nat.

(** [chunk_scores.sort(key=lambda x: x[1], reverse=True)] *)
Definition sorted_scores (document_text query : pystr) : list (nat * nat * pystr) :=
  sort_by by_score (chunk_scores document_text query).

(** [relevant_chunks]: the chunks of [chunk_scores[:3]] after the sort. *)
Definition relevant_chunks (document_text query : pystr) : list pystr :=
  map (λ t : nat * nat * pystr, t.2) (slice_to (sorted_scores document_text query) 3).

Definition qa_prompt (context query : pystr) : pystr :=
  nl ++ lit "Based on the following document excerpts, answer the question accurately and concisely."
  ++ nl ++ nl ++ lit "DOCUMENT EXCERPTS:" ++ nl ++ context
  ++ nl ++ nl ++ lit "QUESTION: " ++ query
  ++ nl ++ nl
  ++ lit "Provide a clear answer based ONLY on the document content. If the information is not in the document, state that clearly. Cite specific parts of the document when possible."
  ++ nl ++ nl ++ lit "ANSWER:" ++ nl.

Section Engine.

(** [self.model.generate_content(prompt, ...)]: the text of the
    response, or the text of the exception raised. *)
Variable generate_content : pystr → pystr + pystr.

(** The analyses other than qa, which are not modelled. *)
Variable other_analysis : pystr → pystr → AnalysisResult.

(** [_answer_document_question(document_text, query)] *)
Definition _answer_document_question (document_text query : pystr)
    : AnalysisResult :=
  let relevant := relevant_chunks document_text query in
  let context := join (nl ++ nl ++ lit "---" ++ nl ++ nl) relevant in
  match generate_content (qa_prompt context query) with
  | inl response_text =>
      QaAnswer true response_text (lit "qa") query (length relevant)
  | inr e => AnalysisFailed false e
  end.

(** [analyze_legal_document(document_text, analysis_type, query)]:
    the qa branch is taken for a query that is given and not empty. *)
Definition analyze_legal_document (document_text analysis_type : pystr)
    (query : option pystr) : AnalysisResult :=
  match query with
  | Some (c :: q) =>
      if decide (analysis_type = lit "qa")
      then _answer_document_question document_text (c :: q)
      else other_analysis document_text analysis_type
  | Some [] | None => other_analysis document_text analysis_type
  end.

End Engine.

(** The order of the ranking: a higher score first, and for equal scores
    the chunk that comes first in the document. *)
Definition ranks_before : relation (nat * nat * pystr) :=
  λ a b, (b.1.2 < a.1.2 ∨ (a.1.2 = b.1.2 ∧ a.1.1 < b.1.1))%nat.

End Reasoning.

Import Reasoning.

(** ** What the vector index holds for a document *)

Module Held.

(** The entries of the collection whose metadata gives [doc_id] as their
    doc_id. *)
Definition held_for (doc_id : pystr) (c : Collection) : Collection :=
  filter (λ ie : pystr * Entry,
            metadata ie.2 !! lit "doc_id" = Some (MStr doc_id)) c.

(** The other entries. *)
Definition held_for_others (doc_id : pystr) (c : Collection) : Collection :=
  filter (λ ie : pystr * Entry,
            ¬ metadata ie.2 !! lit "doc_id" = Some (MStr doc_id)) c.

End Held.

Import Held.

(** ** What a group of [semantic_search_all] must hold *)

Module Grouped.

(** The retrieved chunks of one document, in retrieval order. *)
Definition hits_of (d : meta_value) (raw : list Hit) : list Hit :=
  filter (λ h, hit_doc_id h = d) raw.

(** A group is right for the retrieved chunks [raw]: its chunks are all
    the retrieved chunks of its doc_id, each with its own similarity; it is
    not empty; it counts them; its [max_similarity] is the similarity of
    one of them and none has a greater one; its title is the one of the
    first of them. *)
Definition group_ok (raw : list Hit) (g : DocGroup) : Prop :=
  top_chunks g = hits_of (g_doc_id g) raw
  ∧ top_chunks g ≠ []
  ∧ g_chunk_count g = length (top_chunks g)
  ∧ (∃ h, h ∈ top_chunks g ∧ max_similarity g = similarity h)
  ∧ (∀ h, h ∈ top_chunks g → (similarity h <= max_similarity g)%Q)
  ∧ (∃ h0 tl, top_chunks g = h0 :: tl ∧ g_title g = doc_title h0).

(** Descending order of [max_similarity]. *)
Definition desc_similarity : relation DocGroup :=
  λ a b, (max_similarity b <= max_similarity a)%Q.

End Grouped.

Import Grouped.

(** ** Reassembling a document from its chunks *)

Module Reassembly.

(** The paragraphs of a text, as [_chunk_text] reads them. *)
Definition paragraphs (text_ : pystr) : list pystr := split (nl ++ nl) text_.

(** A run of paragraphs as it reads in a chunk: joined by blank lines,
    without white space around it. *)
Definition block (g : list pystr) : pystr := strip (join (nl ++ nl) g).

(** The words a chunk hands over to the chunk after it. *)
Definition carried_over (overlap : Z) (prev : pystr) : pystr :=
  overlap_text overlap (split_ws prev).

(** The text of a chunk without the words carried over from the chunk
    before it. *)
Definition own_text (overlap : Z) (prev cur : pystr) : pystr :=
  strip (drop (length (carried_over overlap prev)) cur).

(** Overlap-aware concatenation: the chunk texts in sequence order, each
    without what it repeats of the chunk before it. *)
Fixpoint resolve_overlaps (overlap : Z) (prev : option pystr)
    (texts : list pystr) : list pystr :=
  match texts with
  | [] => []
  | t :: texts' =>
      match prev with
      | None => t
      | Some p => own_text overlap p t
      end :: resolve_overlaps overlap (Some t) texts'
  end.

(** The buffer of a run of paragraphs: each followed by a blank line. *)
Definition body (g : list pystr) : pystr :=
  concat (map (λ p, p ++ nl ++ nl) g).

(** The chunk texts [_chunk_text] emits from the buffer [cur] on, over the
    paragraphs still to read. *)
Fixpoint emitted (chunk_size overlap : Z) (cur : pystr) (paras : list pystr)
    : list pystr :=
  match paras with
  | [] => match cur with _ :: _ => [strip cur] | [] => [] end
  | para :: rest =>
      if Z.of_nat (length cur) + Z.of_nat (length para) <=? chunk_size
      then emitted chunk_size overlap (cur ++ para ++ nl ++ nl) rest
      else
        match cur with
        | _ :: _ =>
            strip cur
            :: emitted chunk_size overlap
                 (overlap_text overlap (split_ws cur) ++ nl ++ para ++ nl ++ nl)
                 rest
        | [] => emitted chunk_size overlap (para ++ nl ++ nl) rest
        end
  end.

(** The chunk texts of a sequence of runs, the first buffer starting with
    [pre]. *)
Fixpoint texts_from (overlap : Z) (pre : pystr) (groups : list (list pystr))
    : list pystr :=
  match groups with
  | [] => []
  | g :: groups' =>
      let b := pre ++ body g in
      strip b :: texts_from overlap (overlap_text overlap (split_ws b) ++ nl) groups'
  end.

(** The final append of [_chunk_text], on the state the loop ends in. *)
Definition close_chunks (st : list Chunk * pystr * nat) : list Chunk :=
  let '(chunks, current_chunk, chunk_index) := st in
  match current_chunk with
  | _ :: _ =>
      chunks ++ [mkChunk chunk_index (strip current_chunk) (length current_chunk)]
  | [] => chunks
  end.

End Reassembly.

Import Reassembly.

(** ** More of [ChromaDBRAGTool]: reading documents back, comparing them *)

Module Library.

(** The dictionary under the key stats in the answer of [get_document]. *)
Record Stats := mkStats {
  stats_chunks : nat;
  stats_characters : nat;
  stats_words : nat;
  stats_added_at : pystr
}.

(** The dictionaries [get_document] returns. *)
Inductive GetResult :=
| GetFailed (success : bool) (message : pystr)
| GetDone (success : bool) (doc_id title content : pystr) (metadata : Metadata)
          (added_at : pystr) (stats : Stats).

Definition get_success (r : GetResult) : bool :=
  match r with
  | GetFailed s _ | GetDone s _ _ _ _ _ _ => s
  end.

(** What [f.read()] gives for a file opened in text mode with the default
    [newline]: a carriage return followed by a line feed, and a carriage
    return alone, are read as one line feed.  ([add_document] writes in
    text mode too, which on POSIX writes the text as it is.) *)
Fixpoint universal_newlines (s : pystr) : pystr :=
  match s with
  | [] => []
  | c :: s' =>
      if decide (c = "013"%char) then
        "010"%char :: match s' with
                      | "010"%char :: s'' => universal_newlines s''
                      | _ => universal_newlines s'
                      end
      else c :: universal_newlines s'
  end.

Section Reading.

(** The file a doc_id names, as in [add_document]. *)
Variable file_of : pystr → pystr.

(** [get_document(doc_id)]: the registry is asked first, then the file. *)
Definition get_document (st : Tool) (doc_id : pystr) : GetResult :=
  match index st !! doc_id with
  | None => GetFailed false (lit "Document " ++ doc_id ++ lit " not found")
  | Some doc_info =>
      match files st !! file_of doc_id with
      | None => GetFailed false (lit "Document file not found")
      | Some written =>
          let content := universal_newlines written in
          GetDone true doc_id (di_title doc_info) content (di_metadata doc_info)
            (added_at doc_info)
            (mkStats (chunk_count doc_info) (char_count doc_info)
                     (word_count doc_info) (added_at doc_info))
      end
  end.

End Reading.

(** The dictionaries [compare_documents] returns; doc1 and doc2 are the
    nested dictionaries with keys id and title. *)
Inductive CompareResult :=
| CompareFailed (success : bool) (message : pystr)
| CompareDone (success : bool) (doc1_id doc1_title doc2_id doc2_title : pystr)
              (comparison : pystr).

Definition compare_success (r : CompareResult) : bool :=
  match r with
  | CompareFailed s _ | CompareDone s _ _ _ _ _ => s
  end.



Section Compare.

Variable file_of : pystr → pystr.

(** The text generation inside the [try] of [compare_documents]. *)
Variable generate : pystr → pystr + pystr.


End Compare.

(** The states a tool goes through: it starts with an empty registry, no
    files and an empty collection, and changes by [add_document] and
    [delete_document] only. *)
Inductive reachable (encode : pystr → Embedding) (md5_hexdigest : pystr → pystr)
    (file_of : pystr → pystr) : Tool → Prop :=
| reachable_empty : reachable encode md5_hexdigest file_of (mkTool ∅ ∅ ∅)
| reachable_add st content title metadata_ doc_id now :
    reachable encode md5_hexdigest file_of st →
    reachable encode md5_hexdigest file_of
      (add_document encode md5_hexdigest file_of st content title metadata_ doc_id now).2
| reachable_delete st doc_id :
    reachable encode md5_hexdigest file_of st →
    reachable encode md5_hexdigest file_of (delete_document file_of st doc_id).2.

(** The same states, when every call of [add_document] is one that
    [allowed] admits: [allowed doc_id metadata] for the doc_id the call
    registers and the metadata it is given ([{}] for none). *)
Inductive reachable_by (encode : pystr → Embedding) (md5_hexdigest : pystr → pystr)
    (file_of : pystr → pystr) (allowed : pystr → Metadata → Prop) : Tool → Prop :=
| reachable_by_empty :
    reachable_by encode md5_hexdigest file_of allowed (mkTool ∅ ∅ ∅)
| reachable_by_add st content title metadata_ doc_id now :
    allowed (match doc_id with
             | None => _generate_doc_id md5_hexdigest content
             | Some d => d
             end) (default ∅ metadata_) →
    reachable_by encode md5_hexdigest file_of allowed st →
    reachable_by encode md5_hexdigest file_of allowed
      (add_document encode md5_hexdigest file_of st content title metadata_ doc_id now).2
| reachable_by_delete st doc_id :
    reachable_by encode md5_hexdigest file_of allowed st →
    reachable_by encode md5_hexdigest file_of allowed
      (delete_document file_of st doc_id).2.


(** Every entry of the collection carries the keys [search_documents]
    reads. *)
Definition keyed (st : Tool) : Prop :=
  ∀ k e, collection st !! k = Some e →
    is_Some (metadata e !! lit "doc_id") ∧ is_Some (metadata e !! lit "title").


(** The chunks of the registered documents and the entries of the
    collection are the same: every entry is chunk [i] of a registered
    document, stored under [<doc_id>_<i>] with that doc_id in its
    metadata, and every chunk a registry entry counts is there. *)
Definition chunks_in_place (st : Tool) : Prop :=
  (∀ k e, collection st !! k = Some e →
     ∃ doc_id info i,
       index st !! doc_id = Some info
       ∧ (i < chunk_count info)%nat
       ∧ k = doc_id ++ lit "_" ++ str_of_nat i
       ∧ metadata e !! lit "doc_id" = Some (MStr doc_id))
  ∧ (∀ doc_id info i,
       index st !! doc_id = Some info → (i < chunk_count info)%nat →
       is_Some (collection st !! (doc_id ++ lit "_" ++ str_of_nat i))).

(** Descending order of similarity. *)
Definition desc_hits : relation Hit :=
  λ a b, (similarity b <= similarity a)%Q.

(** All the rows of the collection that pass the filter of a search, with
    their distances to the query, nearest first: what [collection.query]
    cuts its answer from. *)
Definition ranked_rows (encode : pystr → Embedding)
    (tie_order : Collection → Embedding → Z → option (pystr * meta_value) → pystr → Z)
    (st : Tool) (query : pystr) (top_k : Z) (doc_filter : option pystr) : list Row :=
  sort_by (λ y x : Row, Qlt_bool y.2 x.2)
    (map (λ ie, (ie, l2 (encode query) (embedding ie.2)))
       (candidates tie_order (collection st) (encode query) top_k
          (doc_where doc_filter))).

End Library.

Import Library.

(** ** The rest of [DocumentProcessor] *)

Module Processor.

(** [c in s] for one character. *)
Definition contains (c : ascii) (s : pystr) : bool :=
  existsb (λ d, bool_decide (d = c)) s.

(** The two sides of the last [c] of [s], when there is one. *)
Fixpoint rsplit_last (c : ascii) (s : pystr) : option (pystr * pystr) :=
  match s with
  | [] => None
  | d :: s' =>
      match rsplit_last c s' with
      | Some (a, b) => Some (d :: a, b)
      | None => if decide (d = c) then Some ([], s') else None
      end
  end.

(** [s.rsplit(c, 1)] for a separator of one character. *)
Definition rsplit1 (c : ascii) (s : pystr) : list pystr :=
  match rsplit_last c s with
  | Some (a, b) => [a; b]
  | None => [s]
  end.

Definition ALLOWED_EXTENSIONS : list pystr := [lit "pdf"; lit "docx"; lit "txt"].

(** [is_allowed_file(filename)]; the second operand of [and] is read only
    when the name has a dot, and then the list has an element 1. *)
Definition is_allowed_file (filename : pystr) : bool :=
  contains "."%char filename
  && match rsplit1 "."%char filename !! 1%nat with
     | Some ext => bool_decide (lower ext ∈ ALLOWED_EXTENSIONS)
     | None => false
     end.

(** [get_file_extension(filename)] *)
Definition get_file_extension (filename : pystr) : pystr :=
  if contains "."%char filename
  then match rsplit1 "."%char filename !! 1%nat with
       | Some ext => lower ext
       | None => []
       end
  else [].

(** [re.sub(r' +', ' ', s)]: every run of spaces becomes one space.
    [in_run] says that the character before was a space. *)
Fixpoint collapse_spaces_go (in_run : bool) (s : pystr) : pystr :=
  match s with
  | [] => []
  | c :: s' =>
      if decide (c = " "%char)
      then if in_run then collapse_spaces_go true s'
           else c :: collapse_spaces_go true s'
      else c :: collapse_spaces_go false s'
  end.

Definition collapse_spaces (s : pystr) : pystr := collapse_spaces_go false s.

(** [re.sub(r'\n\n+', '\n\n', s)]: every run of two or more line feeds
    becomes two.  [run] counts the line feeds just written. *)
Fixpoint collapse_newlines_go (run : nat) (s : pystr) : pystr :=
  match s with
  | [] => []
  | c :: s' =>
      if decide (c = "010"%char)
      then if (run <? 2)%nat then c :: collapse_newlines_go (S run) s'
           else collapse_newlines_go run s'
      else c :: collapse_newlines_go 0 s'
  end.

Definition collapse_newlines (s : pystr) : pystr := collapse_newlines_go 0 s.

(** The lines [clean_text] keeps: stripped, the empty ones left out. *)
Definition kept_lines (text_ : pystr) : list pystr :=
  filter (λ line, line ≠ []) (map strip (split nl text_)).

(** [clean_text(text)] *)
Definition clean_text (text_ : pystr) : pystr :=
  match text_ with
  | [] => []
  | _ :: _ =>
      let text1 := join nl (kept_lines text_) in
      let text2 := collapse_spaces text1 in
      let text3 := collapse_newlines text2 in
      strip text3
  end.

(** The defaults of [chunk_text]. *)
Definition window_size : Z := 1000.
Definition window_overlap : Z := 200.

(** What [process_document] returns: the dictionary with the keys text,
    metadata and chunks. *)
Record Processed := mkProcessed {
  p_text : pystr;
  p_metadata : Metadata;
  p_chunks : list pystr
}.

(** An exception: its class and its message. *)
Inductive Raised :=
| ValueError (message : pystr)
| Exception (message : pystr).

Section Process.

(** The three extractors, which read the file: the text of the file, or
    the exception they raise. *)
Variable extract_text_from_pdf : pystr → pystr + Raised.
Variable extract_text_from_docx : pystr → pystr + Raised.
Variable extract_text_from_txt : pystr → pystr + Raised.

(** The text of a file by its type, before cleaning. *)
Definition extract (file_path file_type : pystr) : pystr + Raised :=
  if decide (file_type = lit "pdf") then extract_text_from_pdf file_path
  else if decide (file_type = lit "docx") then extract_text_from_docx file_path
  else if decide (file_type = lit "txt") then extract_text_from_txt file_path
  else inr (ValueError (lit "Unsupported file type: " ++ file_type)).

(** [process_document(file_path, file_type, cached_text, cached_metadata)];
    [None] is a run of [chunk_text] that used up the fuel. *)
Definition process_document (fuel : nat) (file_path file_type : pystr)
    (cached_text : option pystr) (cached_metadata : option Metadata)
    : option (Processed + Raised) :=
  let cached :=
    match cached_text, cached_metadata with
    | Some (c :: t), Some m => if decide (m = ∅) then None else Some (c :: t, m)
    | _, _ => None
    end in
  let extracted : (pystr * Metadata) + Raised :=
    match cached with
    | Some tm => inl tm
    | None =>
        match extract file_path file_type with
        | inr e => inr e
        | inl raw =>
            let text_ := clean_text raw in
            match strip text_ with
            | [] =>
                inr (Exception (lit "No text content extracted from document. The document may be empty, image-based, or corrupted."))
            | _ :: _ =>
                inl (text_,
                     <[lit "file_type" := MStr file_type]>
                     (<[lit "word_count" := MInt (Z.of_nat (length (split_ws text_)))]>
                      (<[lit "char_count" := MInt (Z.of_nat (length text_))]> ∅)))
            end
        end
    end in
  match extracted with
  | inr e => Some (inr e)
  | inl (text_, metadata_) =>
      chunks ← chunk_text fuel text_ window_size window_overlap;
      Some (inl (mkProcessed text_ metadata_ chunks))
  end.

End Process.

End Processor.

Import Processor.

(** ** The runs of lines of [_chunk_document] *)

Module LineRuns.

(** A run of lines that [_chunk_document] keeps in one chunk: it fits the
    chunk size, each line counted with the two line feeds the buffer puts
    after it, or it is a single line. *)
Definition run_ok (chunk_size : Z) (g : list pystr) : Prop :=
  g ≠ [] ∧ (Z.of_nat (length (body g)) ≤ chunk_size ∨ ∃ p, g = [p]).

End LineRuns.

Import LineRuns.

(** ** Concrete capabilities and states, for the examples below *)

Module Demo.

(** An embedding with two directions: texts that start with the letter a,
    and all others. *)
Definition encode (s : pystr) : Embedding :=
  match s with
  | "a"%char :: _ => [1; 0]
  | _ => [0; 1]
  end%Q.

Definition md5_hexdigest (s : pystr) : pystr :=
  lit "9e107d9d372bb6826bd81d3542a419d6".

(** A generation capability that is out of service. *)
Definition generate_fails (prompt : pystr) : pystr + pystr :=
  inr (lit "quota exceeded").

(** File names as they are written: a directory of one level. *)
Definition file_of (doc_id : pystr) : pystr := doc_id ++ lit ".txt".

(** An index that returns equals in the order of their ids. *)
Definition tie_order (c : Collection) (q : Embedding) (n : Z)
    (w : option (pystr * meta_value)) (k : pystr) : Z := 0.

Definition now : pystr := lit "2024-01-01T00:00:00".

Definition empty_tool : Tool := mkTool ∅ ∅ ∅.

Definition add (st : Tool) (content title : pystr)
    (metadata_ : option Metadata) (doc_id : pystr) : Tool :=
  (add_document encode md5_hexdigest file_of st content title metadata_
     (Some doc_id) now).2.

(** One document, d1. *)
Definition tool_d1 : Tool :=
  add empty_tool (lit "a text") (lit "T") None (lit "d1").

(** One document, d2, whose metadata carries a doc_id of its own. *)
Definition tool_d2_foreign : Tool :=
  add empty_tool (lit "a text") (lit "T")
    (Some {[ lit "doc_id" := MStr (lit "zz") ]}) (lit "d2").

(** Two documents: d1 and one registered under the empty doc_id. *)
Definition tool_d1_empty : Tool :=
  add tool_d1 (lit "b text") (lit "U") None [].

(** Two documents whose chunks lie at the same distance of every query. *)
Definition tool_d1_d3 : Tool :=
  add tool_d1 (lit "a word") (lit "W") None (lit "d3").

(** An index that puts the chunk of d1 first among equals when it is asked
    for one result, and returns equals in the order of their ids
    otherwise. *)
Definition tie_order_by_request (c : Collection) (q : Embedding) (n : Z)
    (w : option (pystr * meta_value)) (k : pystr) : Z :=
  if decide (n = 1) then (if decide (k = lit "d1_0") then 0 else 1) else 0.

(** File names where a doc_id with a path in it names the file of
    another: [../documents/y] under [documents] is [y]. *)
Definition file_of_aliased (doc_id : pystr) : pystr :=
  if decide (doc_id = lit "../documents/y") then lit "y.txt"
  else doc_id ++ lit ".txt".

(** The document y, then a second document whose doc_id names the file of
    y. *)
Definition tool_aliased : Tool :=
  (add_document encode md5_hexdigest file_of_aliased
     (add_document encode md5_hexdigest file_of_aliased empty_tool
        (lit "one") (lit "Y") None (Some (lit "y")) now).2
     (lit "two") (lit "Z") None (Some (lit "../documents/y")) now).2.

End Demo.

(** * Properties *)

(** ** The embedding on small inputs *)

Example split_blank_lines :
  split (nl ++ nl) (lit "a" ++ nl ++ nl ++ nl ++ lit "b") = [lit "a"; nl ++ lit "b"]
  ∧ split (nl ++ nl) [] = [[]].
Proof. by split. Qed.

Example strip_and_words :
  strip (lit "  ab  c " ++ nl) = lit "ab  c"
  ∧ split_ws (lit "  ab  c " ++ nl) = [lit "ab"; lit "c"].
Proof. by split. Qed.

Example overlap_floor_division :
  overlap_text 101 (map lit ["a"; "b"; "c"]%string) = []
  ∧ overlap_text 6 (map lit ["a"; "b"; "c"]%string) = lit "b c"
  ∧ overlap_text 0 (map lit ["a"; "b"; "c"]%string) = lit "a b c".
Proof. by repeat split. Qed.

(** A doc_id that names the file of another document overwrites its
    content, and deleting it takes the file of both. *)
Example aliased_doc_ids :
  get_document Demo.file_of_aliased Demo.tool_aliased (lit "y")
  = GetDone true (lit "y") (lit "Y") (lit "two") ∅ Demo.now
      (mkStats 1 3 1 Demo.now)
  ∧ get_document Demo.file_of_aliased
      (delete_document Demo.file_of_aliased Demo.tool_aliased
         (lit "../documents/y")).2 (lit "y")
    = GetFailed false (lit "Document file not found").
Proof. split; vm_compute; reflexivity. Qed.

(** The order among chunks at the same distance can change with the number
    of results asked for: the one result is not the first of the two. *)
Example equal_distance_order :
  (results <$> search_documents Demo.encode Demo.tie_order_by_request
                 Demo.tool_d1_d3 (lit "a") 1 None)
  = Some [mkHit (lit "d1_0") (MStr (lit "d1")) (lit "a text") (1 - 0)%Q (MStr (lit "T"))]
  ∧ (map hit_chunk_id <$>
       (results <$> search_documents Demo.encode Demo.tie_order_by_request
                      Demo.tool_d1_d3 (lit "a") 2 None))
    = Some [lit "d3_0"; lit "d1_0"].
Proof. split; vm_compute; reflexivity. Qed.

(** A carriage return is read back as a line feed, with the line feed that
    follows it when there is one. *)
Example read_back_newlines :
  universal_newlines (lit "a" ++ ["013"; "010"]%char ++ lit "b" ++ ["013"]%char
                      ++ ["013"; "013"; "010"; "010"]%char)
  = lit "a" ++ nl ++ lit "b" ++ nl ++ nl ++ nl ++ nl.
Proof. reflexivity. Qed.

(** The scenario of the specification: two short paragraphs are one chunk. *)
Example chunk_text_one_chunk :
  _chunk_text (lit "Para one." ++ nl ++ nl ++ lit "Para two about termination.")
    default_chunk_size default_overlap
  = [mkChunk 0 (lit "Para one." ++ nl ++ nl ++ lit "Para two about termination.") 40].
Proof. reflexivity. Qed.

(** Three chunks, each after the first led by the last word of the one
    before it. *)
Example chunk_text_three_chunks :
  _chunk_text (lit "aa bb" ++ nl ++ nl ++ lit "cc dd" ++ nl ++ nl ++ lit "ee") 8 5
  = [mkChunk 0 (lit "aa bb") 7;
     mkChunk 1 (lit "bb" ++ nl ++ lit "cc dd") 10;
     mkChunk 2 (lit "dd" ++ nl ++ lit "ee") 7].
Proof. reflexivity. Qed.

Example fixed_window_chunks :
  chunk_text 10 (lit "abcdefghij") 4 1 = Some [lit "abcd"; lit "defg"; lit "ghij"].
Proof. reflexivity. Qed.

(** With an overlap as large as the window the loop does not advance. *)
Example fixed_window_stuck :
  chunk_text 1000 (lit "abcdefghij") 4 4 = None.
Proof. by vm_compute. Qed.

Example chunk_document_lines :
  _chunk_document (lit "abcdefghij" ++ nl ++ lit "xx" ++ nl ++ lit "yyyyyyyyy") 8
  = [lit "abcdefghij"; lit "xx"; lit "yyyyyyyyy"].
Proof. reflexivity. Qed.

Example stable_descending_sort :
  sort_by by_score [(0, 1, []); (1, 2, []); (2, 1, []); (3, 2, [])]%nat
  = [(1, 2, []); (3, 2, []); (0, 1, []); (2, 1, [])]%nat.
Proof. reflexivity. Qed.


(** ** Duplicate ingestion *)

Section Ingestion.

Variable encode : pystr → Embedding.
Variable md5_hexdigest : pystr → pystr.
Variable file_of : pystr → pystr.

(** C1: [add_document] with a doc_id (given, or derived from the content)
    that is already in the registry returns the failure dictionary naming
    that doc_id, and the state is the one before the call: the registry
    entry, the stored content and the count of the vector index are
    unchanged. *)
Theorem add_document_duplicate_unchanged
    (st : Tool) (content title : pystr) (metadata_ : option Metadata)
    (doc_id : option pystr) (now : pystr) :
  let id := match doc_id with
            | None => _generate_doc_id md5_hexdigest content
            | Some d => d
            end in
  is_Some (index st !! id) →
  ∃ r st',
    add_document encode md5_hexdigest file_of st content title metadata_ doc_id now = (r, st')
    ∧ r = AddExisting false id (lit "Document already exists") true
    ∧ add_success r = false
    ∧ st' = st
    ∧ index st' !! id = index st !! id
    ∧ files st' !! file_of id = files st !! file_of id
    ∧ collection_count (collection st') = collection_count (collection st).
Proof.
  intros id [info Hin]. subst id. unfold add_document. cbv zeta.
  rewrite Hin. eexists _, _. split; [reflexivity|].
  repeat split; try reflexivity. exact Hin.
Qed.

End Ingestion.

Lemma add_document_duplicate_unchanged_witness :
  ∃ r st',
    add_document Demo.encode Demo.md5_hexdigest Demo.file_of Demo.tool_d1
      (lit "other text") (lit "T2") None (Some (lit "d1")) Demo.now = (r, st')
    ∧ r = AddExisting false (lit "d1") (lit "Document already exists") true
    ∧ add_success r = false
    ∧ st' = Demo.tool_d1
    ∧ index st' !! lit "d1" = index Demo.tool_d1 !! lit "d1"
    ∧ files st' !! Demo.file_of (lit "d1")
      = files Demo.tool_d1 !! Demo.file_of (lit "d1")
    ∧ collection_count (collection st') = collection_count (collection Demo.tool_d1).
Proof.
  apply (add_document_duplicate_unchanged Demo.encode Demo.md5_hexdigest
           Demo.file_of Demo.tool_d1 (lit "other text") (lit "T2") None (Some (lit "d1"))
           Demo.now).
  eexists. vm_compute. reflexivity.
Defined.

(** ** Search and question answering *)

Section Retrieval.

Variable encode : pystr → Embedding.
Variable generate : pystr → pystr + pystr.
Variable tie_order :
  Collection → Embedding → Z → option (pystr * meta_value) → pystr → Z.

(** C2, as the code has it: when the document is registered, the scoped
    search returns at least one chunk and the generation fails, the
    result carries the retrieved chunks as its sources, its success flag
    is true, and its answer is the text of the error followed by the
    first 500 characters of the context. *)
Theorem query_document_generation_failure
    (st : Tool) (doc_id question : pystr) (info : DocInfo)
    (sr : SearchResult) (e : pystr) :
  index st !! doc_id = Some info →
  search_documents encode tie_order st question 3 (Some doc_id) = Some sr →
  results sr ≠ [] →
  generate (query_prompt (di_title info) (context_of (results sr)) question) = inr e →
  ∃ r,
    query_document encode generate tie_order st doc_id question = Some r
    ∧ r = QueryAnswer true doc_id (di_title info) question
            (lit "Error generating answer: " ++ e ++ nl ++ nl
             ++ lit "Relevant context found:" ++ nl
             ++ slice_to (context_of (results sr)) 500 ++ lit "...")
            (results sr)
    ∧ query_success r = true
    ∧ query_sources r = Some (results sr).
Proof.
  intros Hin Hsr Hne Hgen. unfold query_document.
  rewrite Hin, Hsr. cbn [mbind option_bind].
  revert Hne Hgen. destruct (results sr) as [|h hs]; [done|].
  intros _ ->. eexists. split; [reflexivity|]. by repeat split.
Qed.

(** C6: for a doc_id that is not registered, [query_document] returns
    the failure dictionary whose message names the doc_id; for a
    registered doc_id whose scoped search returns no chunk it returns the
    failure dictionary that says no relevant content was found; the two
    messages differ for every doc_id, and no exception is raised. *)
Theorem query_document_failures
    (st : Tool) (doc_id question : pystr) :
  (index st !! doc_id = None →
   query_document encode generate tie_order st doc_id question
   = Some (QueryFailed false (lit "Document " ++ doc_id ++ lit " not found")))
  ∧ (∀ sr, is_Some (index st !! doc_id) →
      search_documents encode tie_order st question 3 (Some doc_id) = Some sr →
      results sr = [] →
      query_document encode generate tie_order st doc_id question
      = Some (QueryFailed false (lit "No relevant content found in document")))
  ∧ lit "Document " ++ doc_id ++ lit " not found"
    ≠ lit "No relevant content found in document".
Proof.
  unfold query_document. split; [|split].
  - intros ->. reflexivity.
  - intros sr [info ->] -> Hres. cbn [mbind option_bind].
    rewrite Hres. reflexivity.
  - discriminate.
Qed.

(** C3, as the code has it: every result of [search_documents] carries
    the id of a row of the vector index and, as its similarity, 1 minus
    the distance of that row; nothing is clamped, so the similarity lies
    in [0,1] exactly when the distance does. *)
Theorem search_documents_similarity
    (st : Tool) (query : pystr) (top_k : Z) (doc_filter : option pystr)
    (sr : SearchResult) :
  search_documents encode tie_order st query top_k doc_filter = Some sr →
  ∃ rows,
    collection_query tie_order (collection st) (encode query) top_k (doc_where doc_filter)
    = Some rows
    ∧ Forall2 (λ (row : Row) (h : Hit),
                 hit_chunk_id h = row.1.1
                 ∧ similarity h = (1 - row.2)%Q
                 ∧ ((0 <= similarity h ∧ similarity h <= 1)%Q
                    ↔ (0 <= row.2 ∧ row.2 <= 1)%Q))
        rows (results sr).
Proof.
  unfold search_documents. intros Hs.
  destruct (collection_query _ _ _ _) as [rows|] eqn:Hq; [|done].
  simpl in Hs. destruct (mapM format_row rows) as [hits|] eqn:Hm; [|done].
  simpl in Hs. injection Hs as <-. simpl.
  exists rows. split; [done|].
  apply mapM_Some in Hm. clear Hq.
  induction Hm as [|[[i en] d] h rows hits Hf _ IH]; [constructor|].
  constructor; [|exact IH].
  unfold format_row in Hf.
  destruct (metadata en !! lit "doc_id") as [di|]; [|done].
  destruct (metadata en !! lit "title") as [ti|]; [|done].
  simpl in Hf. injection Hf as <-. simpl.
  repeat split; try tauto; lra.
Qed.

End Retrieval.

Lemma query_document_generation_failure_witness :
  ∃ info sr,
    index Demo.tool_d1 !! lit "d1" = Some info
    ∧ search_documents Demo.encode Demo.tie_order Demo.tool_d1 (lit "b?") 3 (Some (lit "d1")) = Some sr
    ∧ ∃ r,
        query_document Demo.encode Demo.generate_fails Demo.tie_order Demo.tool_d1
          (lit "d1") (lit "b?") = Some r
        ∧ r = QueryAnswer true (lit "d1") (di_title info) (lit "b?")
                (lit "Error generating answer: " ++ lit "quota exceeded" ++ nl ++ nl
                 ++ lit "Relevant context found:" ++ nl
                 ++ slice_to (context_of (results sr)) 500 ++ lit "...")
                (results sr)
        ∧ query_success r = true
        ∧ query_sources r = Some (results sr).
Proof.
  eexists _, _. split; [vm_compute; reflexivity|].
  split; [vm_compute; reflexivity|].
  apply (query_document_generation_failure Demo.encode Demo.generate_fails Demo.tie_order
           Demo.tool_d1 (lit "d1") (lit "b?")).
  - vm_compute; reflexivity.
  - vm_compute; reflexivity.
  - discriminate.
  - reflexivity.
Defined.

(** C2 as stated fails: with d1 registered, one chunk retrieved and the
    generation out of service, the success flag of the result is true. *)
Lemma query_document_generation_failure_counterexample :
  ∃ info sr e r,
    index Demo.tool_d1 !! lit "d1" = Some info
    ∧ search_documents Demo.encode Demo.tie_order Demo.tool_d1 (lit "b?") 3 (Some (lit "d1")) = Some sr
    ∧ results sr ≠ []
    ∧ Demo.generate_fails (query_prompt (di_title info) (context_of (results sr)) (lit "b?")) = inr e
    ∧ query_document Demo.encode Demo.generate_fails Demo.tie_order Demo.tool_d1
        (lit "d1") (lit "b?") = Some r
    ∧ query_success r ≠ false.
Proof.
  eexists _, _, _, _.
  split; [vm_compute; reflexivity|].
  split; [vm_compute; reflexivity|].
  split; [discriminate|].
  split; [reflexivity|].
  split; [vm_compute; reflexivity|].
  discriminate.
Qed.

Lemma query_document_failures_witness :
  query_document Demo.encode Demo.generate_fails Demo.tie_order Demo.empty_tool
    (lit "nonexistent") (lit "anything")
  = Some (QueryFailed false (lit "Document nonexistent not found"))
  ∧ query_document Demo.encode Demo.generate_fails Demo.tie_order Demo.tool_d2_foreign
      (lit "d2") (lit "anything")
    = Some (QueryFailed false (lit "No relevant content found in document")).
Proof.
  split.
  - apply (query_document_failures Demo.encode Demo.generate_fails Demo.tie_order
             Demo.empty_tool (lit "nonexistent") (lit "anything")).
    reflexivity.
  - eapply (query_document_failures Demo.encode Demo.generate_fails Demo.tie_order
              Demo.tool_d2_foreign (lit "d2") (lit "anything")).
    + eexists. vm_compute. reflexivity.
    + vm_compute. reflexivity.
    + reflexivity.
Defined.

Lemma search_documents_similarity_witness :
  ∃ rows,
    collection_query Demo.tie_order (collection Demo.tool_d1) (Demo.encode (lit "b?")) 5 (doc_where None)
    = Some rows
    ∧ Forall2 (λ (row : Row) (h : Hit),
                 hit_chunk_id h = row.1.1
                 ∧ similarity h = (1 - row.2)%Q
                 ∧ ((0 <= similarity h ∧ similarity h <= 1)%Q
                    ↔ (0 <= row.2 ∧ row.2 <= 1)%Q))
        rows
        [mkHit (lit "d1_0") (MStr (lit "d1")) (lit "a text") (1 - 2)%Q (MStr (lit "T"))].
Proof.
  apply (search_documents_similarity Demo.encode Demo.tie_order Demo.tool_d1 (lit "b?") 5 None
           (mkSearchResult true (lit "b?") 1 1
              [mkHit (lit "d1_0") (MStr (lit "d1")) (lit "a text") (1 - 2)%Q
                 (MStr (lit "T"))])).
  vm_compute. reflexivity.
Defined.

(** C3 as stated fails: the chunk of d1 lies at squared distance 2 from
    the query, and its similarity is -1. *)
Lemma search_documents_similarity_counterexample :
  ∃ sr h,
    search_documents Demo.encode Demo.tie_order Demo.tool_d1 (lit "b?") 5 None = Some sr
    ∧ h ∈ results sr
    ∧ similarity h = (-1)%Q
    ∧ ¬ (0 <= similarity h ∧ similarity h <= 1)%Q.
Proof.
  eexists _, _. split; [vm_compute; reflexivity|].
  split; [apply list_elem_of_here|].
  split; [reflexivity|].
  intros [H _]. vm_compute in H. apply H. reflexivity.
Qed.

(** ** Facts about the string operations *)

Section StringFacts.

Implicit Types (s t : pystr) (c : ascii).

Lemma lstrip_allspace s : allspace s → lstrip s = [].
Proof. induction 1 as [|c s Hc _ IH]; simpl; [done|]. by rewrite Hc. Qed.

Lemma lstrip_nil_inv s : lstrip s = [] → allspace s.
Proof.
  unfold allspace. induction s as [|c s IH]; simpl; [constructor|].
  destruct (isspace c) eqn:Hc; [|done].
  intros H. constructor; auto.
Qed.

Lemma lstrip_app s t :
  lstrip (s ++ t) = match lstrip s with [] => lstrip t | _ => lstrip s ++ t end.
Proof.
  induction s as [|c s IH]; simpl; [done|].
  destruct (isspace c); [exact IH|done].
Qed.

Lemma lstrip_lstrip s : lstrip (lstrip s) = lstrip s.
Proof.
  induction s as [|c s IH]; simpl; [done|].
  destruct (isspace c) eqn:Hc; [exact IH|]. simpl. by rewrite Hc.
Qed.

Lemma rstrip_nil_iff s : rstrip s = [] ↔ allspace s.
Proof.
  unfold rstrip, allspace. split.
  - intros H. apply (f_equal reverse) in H. rewrite reverse_involutive in H.
    apply lstrip_nil_inv in H. apply Forall_reverse in H.
    by rewrite reverse_involutive in H.
  - intros H. rewrite lstrip_allspace; [done|]. by apply Forall_reverse.
Qed.

Lemma rstrip_app s t :
  rstrip (s ++ t) = match rstrip t with [] => rstrip s | _ => s ++ rstrip t end.
Proof.
  unfold rstrip. rewrite reverse_app, lstrip_app.
  destruct (lstrip (reverse t)) as [|c u] eqn:Hu; [done|].
  rewrite reverse_app, reverse_involutive.
  destruct (reverse (c :: u)) eqn:Hr; [|done].
  apply (f_equal reverse) in Hr. by rewrite reverse_involutive in Hr.
Qed.

Lemma rstrip_rstrip s : rstrip (rstrip s) = rstrip s.
Proof. unfold rstrip. by rewrite reverse_involutive, lstrip_lstrip. Qed.

Lemma strip_allspace s : allspace s → strip s = [].
Proof. intros H. unfold strip. by rewrite (proj2 (rstrip_nil_iff s) H). Qed.

Lemma strip_app_space_r s t : allspace t → strip (s ++ t) = strip s.
Proof.
  intros H. unfold strip. rewrite rstrip_app.
  by rewrite (proj2 (rstrip_nil_iff t) H).
Qed.

Lemma strip_app_space_l s t : allspace t → strip (t ++ s) = strip s.
Proof.
  intros H. unfold strip. rewrite rstrip_app.
  destruct (rstrip s) as [|c u] eqn:Hs.
  - by rewrite (proj2 (rstrip_nil_iff t) H).
  - rewrite lstrip_app, (lstrip_allspace t H). done.
Qed.

Lemma strip_rstrip s : strip (rstrip s) = strip s.
Proof. unfold strip. by rewrite rstrip_rstrip. Qed.

Lemma rstrip_lstrip s : rstrip (lstrip s) = lstrip (rstrip s).
Proof.
  induction s as [|c s IH]; [done|].
  change (c :: s) with ([c] ++ s). rewrite rstrip_app. simpl.
  destruct (isspace c) eqn:Hc.
  - destruct (rstrip s) as [|d u] eqn:Hs.
    + apply rstrip_nil_iff in Hs. rewrite (lstrip_allspace s Hs).
      unfold rstrip. simpl. by rewrite Hc.
    + simpl. rewrite Hc. rewrite IH. done.
  - destruct (rstrip s) as [|d u] eqn:Hs.
    + change (c :: s) with ([c] ++ s). rewrite rstrip_app, Hs.
      unfold rstrip. simpl. rewrite Hc. simpl. by rewrite Hc.
    + change (c :: s) with ([c] ++ s). rewrite rstrip_app, Hs.
      simpl. by rewrite Hc.
Qed.

Lemma strip_strip s : strip (strip s) = strip s.
Proof.
  unfold strip. by rewrite rstrip_lstrip, rstrip_rstrip, lstrip_lstrip.
Qed.

Lemma strip_clean_app s t : clean_edges s → strip (s ++ t) = s ++ rstrip t.
Proof.
  intros [(c & u & -> & Hc) (v & d & Hv & Hd)]. unfold strip.
  assert (rstrip (c :: u) = c :: u) as Hs.
  { rewrite Hv, rstrip_app. unfold rstrip. simpl. by rewrite Hd. }
  rewrite rstrip_app. destruct (rstrip t) as [|e w].
  - rewrite Hs, app_nil_r. simpl. by rewrite Hc.
  - simpl. by rewrite Hc.
Qed.

(** *** Words *)

Lemma split_ws_go_words s cur :
  Forall (λ c, isspace c = false) cur → Forall word (split_ws_go s cur).
Proof.
  revert cur. induction s as [|c s IH]; intros cur Hcur; simpl.
  - destruct cur as [|d cur]; constructor; [|constructor].
    split; [|by apply Forall_reverse].
    intros H. apply (f_equal length) in H. rewrite length_reverse in H. done.
  - destruct (isspace c) eqn:Hc.
    + destruct cur as [|d cur]; [by apply IH|].
      constructor; [|by apply IH].
      split; [|by apply Forall_reverse].
      intros H. apply (f_equal length) in H. rewrite length_reverse in H. done.
    + apply IH. by constructor.
Qed.

Lemma split_ws_words s : Forall word (split_ws s).
Proof. apply split_ws_go_words. constructor. Qed.

Lemma split_ws_go_app_space s t cur :
  allspace t → split_ws_go (s ++ t) cur = split_ws_go s cur.
Proof.
  intros Ht. revert cur. induction s as [|c s IH]; intros cur; simpl.
  - revert cur. induction Ht as [|c t Hc _ IH]; intros cur; [done|].
    simpl. rewrite Hc. destruct cur; rewrite IH; done.
  - destruct (isspace c); [destruct cur|]; by rewrite IH.
Qed.

Lemma split_ws_lstrip s : split_ws (lstrip s) = split_ws s.
Proof.
  unfold split_ws. induction s as [|c s IH]; simpl; [done|].
  destruct (isspace c) eqn:Hc; [exact IH|]. simpl. by rewrite Hc.
Qed.

Lemma lstrip_decompose s : ∃ t, allspace t ∧ s = t ++ lstrip s.
Proof.
  induction s as [|c s (t & Ht & IH)]; simpl.
  - exists []. split; [constructor|done].
  - destruct (isspace c) eqn:Hc.
    + exists (c :: t). split; [by constructor|]. simpl. by rewrite <- IH.
    + exists []. split; [constructor|done].
Qed.

Lemma rstrip_decompose s : ∃ t, allspace t ∧ s = rstrip s ++ t.
Proof.
  destruct (lstrip_decompose (reverse s)) as (t & Ht & Hs).
  exists (reverse t). split; [by apply Forall_reverse|].
  unfold rstrip. rewrite <- reverse_app, <- Hs. by rewrite reverse_involutive.
Qed.

Lemma split_ws_rstrip s : split_ws (rstrip s) = split_ws s.
Proof.
  destruct (rstrip_decompose s) as (t & Ht & Hs).
  rewrite Hs at 2. unfold split_ws. by rewrite split_ws_go_app_space.
Qed.

Lemma split_ws_strip s : split_ws (strip s) = split_ws s.
Proof. unfold strip. by rewrite split_ws_lstrip, split_ws_rstrip. Qed.

Lemma word_clean_edges w : word w → clean_edges w.
Proof.
  intros [Hne Hw]. split.
  - destruct w as [|c t]; [done|]. exists c, t. split; [done|].
    by inversion Hw.
  - destruct (reverse w) as [|c t] eqn:Hr.
    + apply (f_equal reverse) in Hr. by rewrite reverse_involutive in Hr.
    + exists (reverse t), c.
      apply (f_equal reverse) in Hr. rewrite reverse_involutive in Hr.
      rewrite reverse_cons in Hr. split; [done|].
      rewrite Hr in Hw. apply Forall_app in Hw as [_ Hw]. by inversion Hw.
Qed.

Lemma join_words_clean_edges sep ws :
  ws ≠ [] → Forall word ws → clean_edges (join sep ws).
Proof.
  induction ws as [|w ws IH]; [done|]. intros _ Hws.
  inversion Hws as [|? ? Hw Hws']; subst.
  destruct ws as [|w' ws]; [by apply word_clean_edges|].
  destruct (IH ltac:(done) Hws') as [_ (t & c & Ht & Hc)].
  destruct (word_clean_edges w Hw) as [(d & u & -> & Hd) _].
  change (join sep ((d :: u) :: w' :: ws))
    with ((d :: u) ++ sep ++ join sep (w' :: ws)).
  split.
  - exists d, (u ++ sep ++ join sep (w' :: ws)). done.
  - exists ((d :: u) ++ sep ++ t), c. rewrite Ht.
    split; [|done]. by rewrite <- !app_assoc.
Qed.

Lemma overlap_text_edges overlap s :
  overlap_text overlap (split_ws s) = []
  ∨ clean_edges (overlap_text overlap (split_ws s)).
Proof.
  unfold overlap_text. destruct (_ <? _); [|by left].
  assert (Forall word (slice_from (split_ws s) (- overlap / 5))) as Hw.
  { unfold slice_from. destruct (_ <? 0); apply Forall_drop, split_ws_words. }
  destruct (slice_from (split_ws s) (- overlap / 5)) as [|w ws] eqn:Hs;
    [by left|right].
  by apply join_words_clean_edges.
Qed.

End StringFacts.

(** ** The paragraph-aware chunker *)

Section ChunkerFacts.

Variables chunk_size overlap : Z.

Lemma split_go_nonempty sep s skip cur : split_go sep s skip cur ≠ [].
Proof.
  revert skip cur. induction s as [|c s IH]; intros skip cur; simpl; [done|].
  destruct skip; [|apply IH]. destruct (startswith sep (c :: s)); [done|apply IH].
Qed.

Lemma _chunk_text_close text_ :
  _chunk_text text_ chunk_size overlap
  = close_chunks (_chunk_text_loop chunk_size overlap (paragraphs text_) [] [] 0%nat).
Proof.
  unfold _chunk_text, close_chunks, paragraphs.
  by destruct (_chunk_text_loop _ _ _ _ _ _) as [[chunks cur] idx].
Qed.

Lemma loop_emitted paras chunks cur idx :
  map text (close_chunks (_chunk_text_loop chunk_size overlap paras chunks cur idx))
  = map text chunks ++ emitted chunk_size overlap cur paras.
Proof.
  revert chunks cur idx. induction paras as [|para rest IH]; intros chunks cur idx.
  - simpl. destruct cur; [by rewrite app_nil_r|]. by rewrite map_app.
  - simpl. destruct (_ <=? _); [apply IH|].
    destruct cur as [|c cur]; [apply IH|].
    rewrite IH, map_app. simpl. by rewrite <- app_assoc.
Qed.

Lemma loop_chunk_ids paras chunks cur idx :
  map chunk_id chunks = seq 0 idx →
  let chunks' := close_chunks (_chunk_text_loop chunk_size overlap paras chunks cur idx) in
  map chunk_id chunks' = seq 0 (length chunks').
Proof.
  revert chunks cur idx. induction paras as [|para rest IH]; intros chunks cur idx Hid.
  - simpl. assert (length chunks = idx) as Hlen.
    { rewrite <- (length_map chunk_id), Hid. apply length_seq. }
    destruct cur.
    + by rewrite Hlen.
    + rewrite map_app, length_app, Hid, Hlen. simpl.
      rewrite Nat.add_1_r. by rewrite seq_S.
  - simpl. destruct (_ <=? _); [by apply IH|].
    destruct cur as [|c cur]; [by apply IH|].
    apply IH. by rewrite map_app, Hid, seq_S.
Qed.

Lemma emitted_nonempty cur paras :
  cur ≠ [] ∨ paras ≠ [] → emitted chunk_size overlap cur paras ≠ [].
Proof.
  revert cur. induction paras as [|para rest IH]; intros cur H; simpl.
  - destruct H as [H|H]; [|done]. by destruct cur.
  - destruct (_ <=? _).
    + apply IH. left. by destruct cur, para.
    + destruct cur; [|done]. apply IH. left. by destruct para.
Qed.

Lemma body_app g h : body (g ++ h) = body g ++ body h.
Proof. unfold body. by rewrite map_app, concat_app. Qed.

Lemma body_single p : body [p] = p ++ nl ++ nl.
Proof. unfold body. simpl. by rewrite app_nil_r. Qed.

Lemma body_nonempty g : g ≠ [] → body g ≠ [].
Proof. destruct g as [|[|c p] g]; done. Qed.

Lemma body_join g : g ≠ [] → body g = join (nl ++ nl) g ++ nl ++ nl.
Proof.
  induction g as [|p g IH]; [done|]. intros _.
  destruct g as [|q g].
  - unfold body. simpl. by rewrite app_nil_r.
  - change (body (p :: q :: g)) with ((p ++ nl ++ nl) ++ body (q :: g)).
    rewrite IH by done.
    change (join (nl ++ nl) (p :: q :: g))
      with (p ++ (nl ++ nl) ++ join (nl ++ nl) (q :: g)).
    by rewrite <- !app_assoc.
Qed.

Lemma nl_allspace : allspace nl.
Proof. by repeat constructor. Qed.

Lemma strip_body g : g ≠ [] → strip (body g) = block g.
Proof.
  intros Hg. rewrite body_join by done. unfold block.
  apply strip_app_space_r. by repeat constructor.
Qed.

(** Every run of the loop reads its paragraphs into consecutive runs, one
    per chunk. *)
Lemma emitted_groups paras pre g :
  (g = [] → pre = []) →
  ∃ groups,
    concat groups = g ++ paras
    ∧ Forall (λ h, h ≠ []) groups
    ∧ emitted chunk_size overlap (pre ++ body g) paras = texts_from overlap pre groups.
Proof.
  revert pre g. induction paras as [|para rest IH]; intros pre g Hg.
  - destruct g as [|p g].
    + rewrite (Hg eq_refl). exists []. by repeat split.
    + exists [p :: g]. simpl. rewrite app_nil_r. repeat split; [by repeat constructor|].
      destruct (pre ++ body (p :: g)) eqn:Hb; [|done].
      apply app_eq_nil in Hb as [_ Hb]. by apply body_nonempty in Hb.
  - simpl. destruct (_ <=? _).
    + destruct (IH pre (g ++ [para])) as (groups & Hc & Hne & He).
      { by destruct g. }
      exists groups. rewrite <- app_assoc in Hc. repeat split; [done..|].
      by rewrite <- He, body_app, body_single, <- !app_assoc.
    + destruct (pre ++ body g) as [|c b] eqn:Hb.
      * apply app_eq_nil in Hb as [-> Hb].
        assert (g = []) as -> by (destruct g; [done|by apply body_nonempty in Hb]).
        destruct (IH [] [para]) as (groups & Hc & Hne & He); [done|].
        exists groups. repeat split; [done..|].
        by rewrite <- He, body_single.
      * assert (g ≠ []) as Hgne.
        { intros ->. rewrite (Hg eq_refl) in Hb. done. }
        destruct (IH (overlap_text overlap (split_ws (c :: b)) ++ nl) [para])
          as (groups & Hc & Hne & He); [done|].
        exists (g :: groups). repeat split.
        -- simpl. by rewrite Hc.
        -- by constructor.
        -- simpl. rewrite Hb. f_equal.
           by rewrite <- He, body_single, <- !app_assoc.
Qed.

Lemma length_texts_from pre groups :
  length (texts_from overlap pre groups) = length groups.
Proof.
  revert pre. induction groups as [|g groups IH]; intros pre; simpl; [done|].
  by rewrite IH.
Qed.

Lemma own_text_block prev g :
  g ≠ [] →
  own_text overlap prev (strip ((carried_over overlap prev ++ nl) ++ body g))
  = block g.
Proof.
  intros Hg. unfold own_text, carried_over.
  destruct (overlap_text_edges overlap prev) as [->|Hclean].
  - rewrite app_nil_l. cbn [length]. rewrite drop_0, strip_strip.
    rewrite (strip_app_space_l (body g) nl nl_allspace). by apply strip_body.
  - rewrite <- app_assoc, strip_clean_app by done.
    rewrite drop_app_length, strip_rstrip.
    rewrite (strip_app_space_l (body g) nl nl_allspace). by apply strip_body.
Qed.

Lemma resolve_texts_from groups prev :
  Forall (λ h, h ≠ []) groups →
  resolve_overlaps overlap prev
    (texts_from overlap
       (match prev with None => [] | Some p => carried_over overlap p ++ nl end)
       groups)
  = map block groups.
Proof.
  intros Hne. revert prev. induction Hne as [|g groups Hg _ IH]; intros prev; [done|].
  simpl. f_equal.
  - destruct prev as [p|]; [by apply own_text_block|]. by apply strip_body.
  - rewrite <- split_ws_strip. apply (IH (Some _)).
Qed.

End ChunkerFacts.


Section WordFacts.

Implicit Types (s t : pystr) (c : ascii).

Lemma split_ws_go_app s t c cur :
  isspace c = true →
  split_ws_go (s ++ c :: t) cur = split_ws_go s cur ++ split_ws t.
Proof.
  intros Hc. revert cur. induction s as [|d s IH]; intros cur; simpl.
  - rewrite Hc. by destruct cur.
  - destruct (isspace d); [destruct cur|]; by rewrite IH.
Qed.

Lemma split_ws_join_paragraphs g :
  split_ws (join (nl ++ nl) g) = concat (map split_ws g).
Proof.
  induction g as [|p g IH]; [done|].
  destruct g as [|q g]; [simpl; by rewrite app_nil_r|].
  change (join (nl ++ nl) (p :: q :: g))
    with (p ++ "010"%char :: "010"%char :: join (nl ++ nl) (q :: g)).
  unfold split_ws at 1. rewrite split_ws_go_app by done.
  change (concat (map split_ws (p :: q :: g)))
    with (split_ws p ++ concat (map split_ws (q :: g))).
  by rewrite <- IH.
Qed.

Lemma startswith_app sep s : startswith sep s = true → ∃ t, s = sep ++ t.
Proof.
  revert s. induction sep as [|a sep IH]; intros s H; [by exists s|].
  destruct s as [|b s]; [done|]. simpl in H.
  destruct (decide (a = b)) as [->|]; [|done].
  destruct (IH s H) as [t ->]. by exists t.
Qed.

Lemma join_cons sep x l : l ≠ [] → join sep (x :: l) = x ++ sep ++ join sep l.
Proof. by destruct l. Qed.

Lemma join_split_go sep s skip cur :
  sep ≠ [] → join sep (split_go sep s skip cur) = reverse cur ++ drop skip s.
Proof.
  intros Hsep. revert skip cur. induction s as [|c s IH]; intros skip cur.
  - simpl. by rewrite drop_nil, app_nil_r.
  - simpl. destruct skip as [|k]; [|apply IH].
    destruct (startswith sep (c :: s)) eqn:Hst.
    + rewrite join_cons by apply split_go_nonempty. rewrite IH. simpl.
      destruct (startswith_app _ _ Hst) as [t Ht].
      destruct sep as [|a sep]; [done|]. simpl in *.
      injection Ht as -> ->. by rewrite drop_app_length.
    + rewrite IH, reverse_cons, <- app_assoc. done.
Qed.

(** Joining the paragraphs by blank lines gives the text back. *)
Lemma join_paragraphs text_ : join (nl ++ nl) (paragraphs text_) = text_.
Proof. unfold paragraphs, split. by rewrite join_split_go. Qed.

Lemma split_ws_paragraphs text_ :
  concat (map split_ws (paragraphs text_)) = split_ws text_.
Proof. by rewrite <- split_ws_join_paragraphs, join_paragraphs. Qed.

Lemma split_ws_block g : split_ws (block g) = concat (map split_ws g).
Proof. unfold block. by rewrite split_ws_strip, split_ws_join_paragraphs. Qed.

Lemma concat_map_concat {A B} (f : A → list B) (ls : list (list A)) :
  concat (map f (concat ls)) = concat (map (λ l, concat (map f l)) ls).
Proof.
  induction ls as [|l ls IH]; [done|]. simpl.
  by rewrite map_app, concat_app, IH.
Qed.

End WordFacts.

(** C8, as the code has it: the paragraphs of a text split into
    consecutive non-empty runs, one per chunk of [_chunk_text], in sequence
    order; the text of each chunk, without the words carried over from the
    chunk before it, is its run of paragraphs joined by blank lines and
    stripped: the white space at the two ends of a run, empty paragraphs
    there included, is not in the chunk.  So the overlap-aware
    concatenation of the chunks gives back the paragraphs once and in the
    original order up to that white space, and word for word the text. *)
Theorem chunk_text_round_trip (text_ : pystr) (chunk_size overlap : Z) :
  let chunks := _chunk_text text_ chunk_size overlap in
  let resolved := resolve_overlaps overlap None (map text chunks) in
  ∃ groups : list (list pystr),
    concat groups = paragraphs text_
    ∧ Forall (λ g, g ≠ []) groups
    ∧ length groups = length chunks
    ∧ map chunk_id chunks = seq 0 (length chunks)
    ∧ resolved = map block groups
    ∧ concat (map split_ws resolved) = split_ws text_.
Proof.
  intros chunks resolved. subst resolved chunks. rewrite _chunk_text_close.
  pose proof (loop_emitted chunk_size overlap (paragraphs text_) [] [] 0%nat) as He.
  simpl in He.
  destruct (emitted_groups chunk_size overlap (paragraphs text_) [] [])
    as (groups & Hc & Hne & Hg); [done|].
  unfold body in Hg. simpl in Hc, Hg. exists groups. split; [done|]. split; [done|].
  assert (resolve_overlaps overlap None
            (texts_from overlap [] groups) = map block groups) as Hr.
  { by apply (resolve_texts_from overlap groups None). }
  split; [|split; [|split]].
  - by rewrite <- (length_map text), He, Hg, length_texts_from.
  - by apply loop_chunk_ids.
  - by rewrite He, Hg.
  - rewrite He, Hg, Hr, <- split_ws_paragraphs, <- Hc, concat_map_concat.
    f_equal. rewrite map_map. apply map_ext. intros g. apply split_ws_block.
Qed.

(** C8 as stated fails: of the four paragraphs of this text, two are empty
    and one starts and ends with a space; [_chunk_text] makes one chunk
    of them and strips it, so the concatenation of the chunks holds two
    paragraphs, neither the empty ones nor the spaces around [x]. *)
Lemma chunk_text_round_trip_counterexample :
  let text_ := nl ++ nl ++ nl ++ nl ++ lit " x " ++ nl ++ nl ++ lit "y" in
  let chunks := _chunk_text text_ default_chunk_size default_overlap in
  let resolved := resolve_overlaps default_overlap None (map text chunks) in
  text_ ≠ []
  ∧ paragraphs text_ = [[]; []; lit " x "; lit "y"]
  ∧ resolved = [lit "x " ++ nl ++ nl ++ lit "y"]
  ∧ paragraphs (join (nl ++ nl) resolved) = [lit "x "; lit "y"]
  ∧ paragraphs (join (nl ++ nl) resolved) ≠ paragraphs text_
  ∧ ¬ (∀ p, p ∈ paragraphs text_ → p ∈ paragraphs (join (nl ++ nl) resolved)).
Proof.
  intros text_ chunks resolved.
  split; [discriminate|]. split; [reflexivity|]. split; [reflexivity|].
  split; [reflexivity|]. split; [discriminate|].
  intros H. specialize (H [] ltac:(left)).
  vm_compute in H. by repeat (apply elem_of_cons in H as [H|H]; [discriminate|]);
    apply elem_of_nil in H.
Qed.

(** C5, on the code: for the empty text and for a text of spaces the
    paragraph-aware chunker [_chunk_text] returns one chunk whose text is
    empty, not the empty sequence; there is no text at all for which it
    returns the empty sequence. *)
Theorem chunk_text_degenerate :
  _chunk_text [] default_chunk_size default_overlap = [mkChunk 0 [] 2]
  ∧ _chunk_text (lit "   ") default_chunk_size default_overlap = [mkChunk 0 [] 5]
  ∧ ∀ text_ chunk_size overlap, _chunk_text text_ chunk_size overlap ≠ [].
Proof.
  split; [reflexivity|]. split; [reflexivity|].
  intros text_ chunk_size overlap H.
  apply (f_equal (map text)) in H.
  rewrite _chunk_text_close, loop_emitted in H. simpl in H.
  revert H. apply emitted_nonempty. right. apply split_go_nonempty.
Qed.

(** The fixed-window chunker does return the empty sequence for an empty
    text and for a text of white space, whatever the fuel. *)
Lemma fixed_window_degenerate (fuel : nat) (text_ : pystr) (chunk_size overlap : Z) :
  allspace text_ → chunk_text fuel text_ chunk_size overlap = Some [].
Proof.
  intros H. pose proof (strip_allspace _ H) as Hs. unfold chunk_text.
  destruct text_; [done|]. by rewrite Hs.
Qed.

(** ** The stable sort *)

Section SortFacts.

Context {A : Type} (before : A → A → bool).

Lemma insert_by_perm x l : insert_by before x l ≡ₚ x :: l.
Proof.
  induction l as [|y l IH]; simpl; [done|].
  destruct (before y x); [|done]. rewrite IH. apply Permutation_swap.
Qed.

Lemma sort_by_perm l : sort_by before l ≡ₚ l.
Proof.
  induction l as [|x l IH]; simpl; [done|]. by rewrite insert_by_perm, IH.
Qed.

(** Inserting [x] keeps a list sorted for [R] when [R] agrees with
    [before] on [x] against the elements of the list. *)
Lemma insert_by_sorted (R : relation A) `{!Transitive R} x l :
  StronglySorted R l →
  (∀ y, y ∈ l → before y x = true → R y x) →
  (∀ y, y ∈ l → before y x = false → R x y) →
  StronglySorted R (insert_by before x l).
Proof.
  induction 1 as [|y l Hl IH Hy]; intros Hb Ha; simpl.
  - repeat constructor.
  - destruct (before y x) eqn:Hyx.
    + constructor.
      * apply IH; intros z Hz; [apply Hb|apply Ha]; by right.
      * rewrite insert_by_perm. constructor; [|done].
        apply Hb; [left|done].
    + constructor; [by constructor|].
      assert (R x y) as Hxy by (apply Ha; [left|done]).
      constructor; [done|].
      eapply Forall_impl; [exact Hy|]. intros z Hz. by transitivity y.
Qed.

Lemma sort_by_sorted (R : relation A) `{!Transitive R} l :
  (∀ x y, before y x = true → R y x) →
  (∀ x y, before y x = false → R x y) →
  StronglySorted R (sort_by before l).
Proof.
  intros Hb Ha. induction l as [|x l IH]; simpl; [constructor|].
  apply insert_by_sorted; [done..|intros; by apply Hb|intros; by apply Ha].
Qed.

End SortFacts.

(** ** The lexical ranking of the qa analysis *)

Section Ranking.

Implicit Types (t : nat * nat * pystr).

#[local] Instance ranks_before_trans : Transitive ranks_before.
Proof. intros a b c. unfold ranks_before. lia. Qed.

Lemma sort_by_score_stable (l : list (nat * nat * pystr)) :
  StronglySorted (λ a b, (a.1.1 < b.1.1)%nat) l →
  StronglySorted ranks_before (sort_by by_score l).
Proof.
  induction 1 as [|x l Hl IH Hx]; simpl; [constructor|].
  apply insert_by_sorted; [apply _|done|..];
    intros y Hy Hb; rewrite sort_by_perm in Hy;
    rewrite Forall_forall in Hx; specialize (Hx y Hy);
    unfold by_score in Hb; unfold ranks_before.
  - apply Nat.ltb_lt in Hb. lia.
  - apply Nat.ltb_ge in Hb. lia.
Qed.

Lemma imap_index_sorted {B} (f : B → nat) (k : nat) (l : list B) :
  StronglySorted (λ a b : nat * nat * B, (a.1.1 < b.1.1)%nat)
    (imap (λ i c, (k + i, f c, c)%nat) l)
  ∧ Forall (λ a : nat * nat * B, (k ≤ a.1.1)%nat) (imap (λ i c, (k + i, f c, c)%nat) l).
Proof.
  revert k. induction l as [|c l IH]; intros k; simpl; [by split; constructor|].
  destruct (IH (S k)) as [Hs Hf].
  assert (imap ((λ i c0, (k + i, f c0, c0)%nat) ∘ S) l
          = imap (λ i c0, (S k + i, f c0, c0)%nat) l) as ->.
  { apply imap_ext. intros i x _. simpl. do 2 f_equal. lia. }
  split.
  - constructor; [done|]. eapply Forall_impl; [exact Hf|]. simpl. lia.
  - constructor; [simpl; lia|]. eapply Forall_impl; [exact Hf|]. simpl. lia.
Qed.

End Ranking.

Section QaAnalysis.

Variable generate_content : pystr → pystr + pystr.
Variable other_analysis : pystr → pystr → AnalysisResult.

(** C9, as the code has it: the qa analysis scores every chunk of the
    document by the number of lowercased words it shares with the query,
    ranks the chunks by descending score with ties in chunk order, and
    takes as generation context the first three chunks of the ranking, or
    all of them when the document has fewer than three; no embedding is
    involved. *)
Theorem qa_relevant_chunks (document_text query : pystr) :
  let chunks := _chunk_document document_text 1500 in
  let relevant := relevant_chunks document_text query in
  ∃ ranked : list (nat * nat * pystr),
    ranked ≡ₚ imap (λ i c, (i, overlap_score query c, c)) chunks
    ∧ (∀ i s c, (i, s, c) ∈ ranked →
         chunks !! i = Some c ∧ s = overlap_score query c)
    ∧ StronglySorted ranks_before ranked
    ∧ relevant = map (λ t : nat * nat * pystr, t.2) (take 3 ranked)
    ∧ length relevant = (3 `min` length chunks)%nat
    ∧ (query ≠ [] →
       analyze_legal_document generate_content other_analysis
         document_text (lit "qa") (Some query)
       = match generate_content
                 (qa_prompt (join (nl ++ nl ++ lit "---" ++ nl ++ nl) relevant) query) with
         | inl response_text =>
             QaAnswer true response_text (lit "qa") query (length relevant)
         | inr e => AnalysisFailed false e
         end).
Proof.
  intros chunks relevant.
  exists (sorted_scores document_text query).
  assert (sorted_scores document_text query
          ≡ₚ imap (λ i c, (i, overlap_score query c, c)) chunks) as Hperm.
  { apply sort_by_perm. }
  split; [exact Hperm|]. split; [|split; [|split; [|split]]].
  - intros i s c Hin. rewrite Hperm in Hin.
    apply list_elem_of_lookup in Hin as [j Hj].
    rewrite list_lookup_imap in Hj.
    destruct (chunks !! j) as [c'|] eqn:Hc; [|done].
    simpl in Hj. by injection Hj as <- <- <-.
  - apply sort_by_score_stable.
    apply (imap_index_sorted (overlap_score query) 0 chunks).
  - done.
  - subst relevant. unfold relevant_chunks, slice_to. simpl.
    rewrite length_map, length_take, Hperm, length_imap. done.
  - intros Hq. destruct query as [|c q]; [done|]. reflexivity.
Qed.

End QaAnalysis.

Lemma qa_relevant_chunks_witness :
  analyze_legal_document Demo.generate_fails (λ _ _, AnalysisFailed false [])
    (lit "alpha beta" ++ nl ++ lit "gamma") (lit "qa") (Some (lit "Gamma beta x"))
  = AnalysisFailed false (lit "quota exceeded").
Proof.
  destruct (qa_relevant_chunks Demo.generate_fails (λ _ _, AnalysisFailed false [])
              (lit "alpha beta" ++ nl ++ lit "gamma") (lit "Gamma beta x"))
    as (ranked & _ & _ & _ & _ & _ & H).
  rewrite H; [reflexivity|discriminate].
Defined.

(** C9 as stated fails: a document of two short lines is one chunk, and
    the context is that one chunk, not three. *)
Lemma qa_relevant_chunks_counterexample :
  relevant_chunks (lit "alpha beta" ++ nl ++ lit "gamma") (lit "Gamma beta x")
  = [lit "alpha beta" ++ nl ++ nl ++ lit "gamma"]
  ∧ length (relevant_chunks (lit "alpha beta" ++ nl ++ lit "gamma")
              (lit "Gamma beta x")) ≠ 3%nat.
Proof. split; [by vm_compute|]. by vm_compute. Qed.

(** ** Grouped search *)

Section Grouping.

Implicit Types (h : Hit) (g : DocGroup) (raw : list Hit).

Lemma Qlt_bool_true x y : Qlt_bool x y = true → (x < y)%Q.
Proof.
  unfold Qlt_bool. intros H. apply negb_true_iff in H.
  apply Qnot_le_lt. intros Hle. apply Qle_bool_iff in Hle. congruence.
Qed.

Lemma Qlt_bool_false x y : Qlt_bool x y = false → (y <= x)%Q.
Proof.
  unfold Qlt_bool. intros H. apply negb_false_iff in H. by apply Qle_bool_iff.
Qed.

#[global] Instance desc_similarity_trans : Transitive desc_similarity.
Proof. intros a b c Hab Hbc. unfold desc_similarity in *. by eapply Qle_trans. Qed.

Lemma hits_of_snoc d raw h :
  hits_of d (raw ++ [h])
  = hits_of d raw ++ (if decide (hit_doc_id h = d) then [h] else []).
Proof.
  unfold hits_of. by rewrite filter_app.
Qed.

Lemma group_ok_snoc_other raw g h :
  g_doc_id g ≠ hit_doc_id h → group_ok raw g → group_ok (raw ++ [h]) g.
Proof.
  intros Hne (Htc & Hrest). split; [|done].
  rewrite hits_of_snoc, decide_False, app_nil_r; done.
Qed.

Lemma group_ok_snoc_same raw g h :
  g_doc_id g = hit_doc_id h → group_ok raw g →
  group_ok (raw ++ [h])
    (mkDocGroup (g_doc_id g) (g_title g)
       (if Qlt_bool (max_similarity g) (similarity h)
        then similarity h else max_similarity g)
       (S (g_chunk_count g)) (top_chunks g ++ [h])).
Proof.
  intros Heq (Htc & Hne & Hcnt & (hm & Hhm & Hmax) & Hle & (h0 & tl & Hhd & Htitle)).
  unfold group_ok. simpl. rewrite hits_of_snoc, decide_True, <- Htc by done.
  split; [done|]. split; [by destruct (top_chunks g)|].
  split; [rewrite length_app, Hcnt; simpl; lia|].
  destruct (Qlt_bool (max_similarity g) (similarity h)) eqn:Hlt.
  - apply Qlt_bool_true, Qlt_le_weak in Hlt. repeat split.
    + exists h. split; [|done]. apply elem_of_app. right. left.
    + intros h' Hh'. apply elem_of_app in Hh' as [Hh'|Hh'].
      * eapply Qle_trans; [by apply Hle|done].
      * apply list_elem_of_singleton in Hh' as ->. apply Qle_refl.
    + exists h0, (tl ++ [h]). by rewrite Hhd.
  - apply Qlt_bool_false in Hlt. repeat split.
    + exists hm. split; [|done]. apply elem_of_app. by left.
    + intros h' Hh'. apply elem_of_app in Hh' as [Hh'|Hh']; [by apply Hle|].
      by apply list_elem_of_singleton in Hh' as ->.
    + exists h0, (tl ++ [h]). by rewrite Hhd.
Qed.

Lemma group_ok_new raw h :
  hits_of (hit_doc_id h) raw = [] →
  group_ok (raw ++ [h])
    (mkDocGroup (hit_doc_id h) (doc_title h) (similarity h) 1 [h]).
Proof.
  intros Hfresh. unfold group_ok. simpl.
  rewrite hits_of_snoc, Hfresh, decide_True by done.
  repeat split; [done|..].
  - exists h. split; [left|done].
  - intros h' Hh'. apply list_elem_of_singleton in Hh' as ->. apply Qle_refl.
  - by exists h, [].
Qed.

Lemma group_result_ids groups h :
  map g_doc_id (group_result groups h)
  = if decide (hit_doc_id h ∈ map g_doc_id groups)
    then map g_doc_id groups
    else map g_doc_id groups ++ [hit_doc_id h].
Proof.
  induction groups as [|g groups IH].
  - cbn [group_result map]. rewrite decide_False; [done|]. apply not_elem_of_nil.
  - cbn [group_result map].
    destruct (decide (g_doc_id g = hit_doc_id h)) as [Heq|Hne]; cbn [map g_doc_id].
    + rewrite decide_True; [done|]. rewrite Heq. left.
    + rewrite IH. destruct (decide (hit_doc_id h ∈ map g_doc_id groups)).
      * rewrite decide_True; [done|]. by right.
      * rewrite decide_False; [done|].
        intros Hin. apply elem_of_cons in Hin as [Hin|Hin]; [by symmetry in Hin|done].
Qed.

Lemma group_result_ok raw groups h :
  NoDup (map g_doc_id groups) →
  (hit_doc_id h ∉ map g_doc_id groups → hits_of (hit_doc_id h) raw = []) →
  Forall (group_ok raw) groups →
  Forall (group_ok (raw ++ [h])) (group_result groups h).
Proof.
  intros Hnd Hfresh Hok. induction Hok as [|g groups Hg Hok IH]; simpl.
  - constructor; [|constructor]. apply group_ok_new, Hfresh, not_elem_of_nil.
  - simpl in Hnd. apply NoDup_cons in Hnd as [Hg_notin Hnd].
    destruct (decide (g_doc_id g = hit_doc_id h)) as [Heq|Hneq].
    + constructor; [by apply group_ok_snoc_same|].
      rewrite Forall_forall in Hok. apply Forall_forall. intros g' Hg'.
      apply group_ok_snoc_other; [|by apply Hok].
      intros Heq'. apply Hg_notin. rewrite Heq, <- Heq'.
      by apply list_elem_of_fmap_2.
    + constructor; [by apply group_ok_snoc_other|].
      apply IH; [done|]. intros Hn. apply Hfresh.
      cbn [map]. intros Hin.
      apply elem_of_cons in Hin as [Hin|Hin]; [by symmetry in Hin|done].
Qed.

(** The grouping loop: the groups partition the retrieved chunks by
    doc_id. *)
Lemma grouping_spec raw :
  let groups := foldl group_result [] raw in
  NoDup (map g_doc_id groups)
  ∧ (∀ h, h ∈ raw → hit_doc_id h ∈ map g_doc_id groups)
  ∧ Forall (group_ok raw) groups.
Proof.
  induction raw as [|h raw IH] using rev_ind; simpl.
  - split; [constructor|]. split; [|constructor]. intros h Hh. by apply elem_of_nil in Hh.
  - rewrite foldl_snoc. destruct IH as (Hnd & Hcov & Hok).
    set (groups := foldl group_result [] raw) in *.
    split; [|split].
    + rewrite group_result_ids. case_decide; [done|].
      apply NoDup_app. split; [done|]. split; [|apply NoDup_singleton].
      intros d Hd Hd'. apply list_elem_of_singleton in Hd' as ->. done.
    + intros h' Hh'. rewrite group_result_ids.
      apply elem_of_app in Hh' as [Hh'|Hh'].
      * case_decide; [by apply Hcov|]. apply elem_of_app. left. by apply Hcov.
      * apply list_elem_of_singleton in Hh' as ->.
        case_decide; [done|]. apply elem_of_app. right. left.
    + apply group_result_ok; [done| |done].
      intros Hn. unfold hits_of.
      destruct (filter _ raw) as [|h' l] eqn:Hf; [done|].
      assert (h' ∈ filter (λ h0, hit_doc_id h0 = hit_doc_id h) raw) as Hin
        by (rewrite Hf; left).
      apply list_elem_of_filter in Hin as [Heq Hin].
      exfalso. apply Hn. rewrite <- Heq. by apply Hcov.
Qed.

End Grouping.

Section GroupedSearch.

Variable encode : pystr → Embedding.
Variable tie_order :
  Collection → Embedding → Z → option (pystr * meta_value) → pystr → Z.

Lemma search_documents_length st query top_k doc_filter sr :
  search_documents encode tie_order st query top_k doc_filter = Some sr →
  0 < top_k < 2 ^ 32 ∧ (length (results sr) ≤ Z.to_nat top_k)%nat.
Proof.
  unfold search_documents, collection_query. intros Hs.
  destruct (accepted_results top_k) eqn:Hk; [|done].
  apply andb_true_iff in Hk as [Hk1%Z.ltb_lt Hk2%Z.ltb_lt].
  cbn [mbind option_bind] in Hs.
  destruct (mapM format_row _) as [hits|] eqn:Hm; [|done].
  cbn [mbind option_bind] in Hs. injection Hs as <-. cbn [results].
  split; [done|]. apply length_mapM in Hm. rewrite <- Hm, length_take. lia.
Qed.

(** What [semantic_search_all] makes of the chunks its search returns. *)
Lemma semantic_search_all_groups
    (st : Tool) (query : pystr) (top_k : Z) (sr : SearchResult) :
  search_documents encode tie_order st query (top_k * 2) None = Some sr →
  ∃ (gr : GroupedResult) (all_groups : list DocGroup),
    semantic_search_all encode tie_order st query top_k = Some gr
    ∧ gr_success gr = true
    ∧ Z.of_nat (length (results sr)) ≤ 2 * top_k
    ∧ NoDup (map g_doc_id all_groups)
    ∧ (∀ h, h ∈ results sr → hit_doc_id h ∈ map g_doc_id all_groups)
    ∧ Forall (group_ok (results sr)) all_groups
    ∧ StronglySorted desc_similarity all_groups
    ∧ documents gr = take (Z.to_nat top_k) all_groups
    ∧ Z.of_nat (length (documents gr)) ≤ top_k.
Proof.
  intros Hs. destruct (search_documents_length _ _ _ _ _ Hs) as [Hk Hlen].
  set (by_similarity := λ y x : DocGroup,
         Qlt_bool (max_similarity x) (max_similarity y)).
  set (all_groups := sort_by by_similarity (foldl group_result [] (results sr))).
  assert (all_groups ≡ₚ foldl group_result [] (results sr)) as Hperm
    by apply sort_by_perm.
  destruct (grouping_spec (results sr)) as (Hnd & Hcov & Hok).
  assert (semantic_search_all encode tie_order st query top_k
          = Some (mkGroupedResult true query (take (Z.to_nat top_k) all_groups)
                    (match results sr with
                     | [] => None
                     | _ => Some (length (take (Z.to_nat top_k) all_groups))
                     end))) as Hrun.
  { unfold semantic_search_all. rewrite Hs. cbn [mbind option_bind].
    subst all_groups. destruct (results sr) as [|h raw];
      [simpl; by destruct (Z.to_nat top_k)|].
    unfold slice_to. destruct (top_k <? 0) eqn:Hneg; [lia|]. done. }
  eexists _, all_groups. split; [exact Hrun|]. cbn [gr_success documents].
  split; [done|]. split; [lia|].
  split; [by rewrite Hperm|].
  split; [intros h Hh; rewrite Hperm; by apply Hcov|].
  split; [by rewrite Hperm|].
  split.
  - apply sort_by_sorted; [apply _|..]; intros x y Hb; unfold desc_similarity.
    + by apply Qlt_bool_true, Qlt_le_weak in Hb.
    + by apply Qlt_bool_false in Hb.
  - split; [done|]. rewrite length_take. lia.
Qed.

End GroupedSearch.

(** ** Deletion *)

Section CollectionFacts.

Implicit Types (c : Collection) (k : pystr) (e : Entry).

Lemma matching_doc_id doc_id c :
  filter (λ ie : pystr * Entry,
            where_match (Some (lit "doc_id", MStr doc_id)) ie.2 = true) c
  = held_for doc_id c.
Proof.
  unfold held_for. apply map_filter_ext. intros k e _. simpl.
  apply bool_decide_eq_true.
Qed.

Lemma collection_delete_lookup c ids k :
  collection_delete c ids !! k = if decide (k ∈ ids) then None else c !! k.
Proof.
  unfold collection_delete. induction ids as [|i ids IH]; cbn [foldr].
  - rewrite decide_False; [done|]. apply not_elem_of_nil.
  - destruct (decide (i = k)) as [->|Hne].
    + rewrite lookup_delete_eq, decide_True; [done|left].
    + rewrite lookup_delete_ne, IH by done.
      destruct (decide (k ∈ ids)).
      * rewrite decide_True; [done|by right].
      * rewrite decide_False; [done|]. intros Hin.
        apply elem_of_cons in Hin as [Hin|Hin]; [by symmetry in Hin|done].
Qed.

Lemma elem_of_get_ids doc_id c k :
  k ∈ collection_get_ids c (Some (lit "doc_id", MStr doc_id))
  ↔ is_Some (held_for doc_id c !! k).
Proof.
  unfold collection_get_ids, collection_matching. rewrite matching_doc_id.
  rewrite list_elem_of_fmap. split.
  - intros ([k' e] & -> & Hin). apply elem_of_map_to_list in Hin. by exists e.
  - intros [e He]. exists (k, e). split; [done|]. by apply elem_of_map_to_list.
Qed.

Lemma length_get_ids doc_id c :
  length (collection_get_ids c (Some (lit "doc_id", MStr doc_id)))
  = size (held_for doc_id c).
Proof.
  unfold collection_get_ids, collection_matching.
  by rewrite matching_doc_id, length_fmap, length_map_to_list.
Qed.

Lemma collection_delete_held doc_id c :
  collection_delete c (collection_get_ids c (Some (lit "doc_id", MStr doc_id)))
  = held_for_others doc_id c.
Proof.
  apply map_eq. intros k. rewrite collection_delete_lookup.
  unfold held_for_others.
  destruct (decide _) as [Hin|Hnin].
  - apply elem_of_get_ids in Hin as [e He]. symmetry.
    apply map_lookup_filter_None. right. intros e' He' Hn.
    apply map_lookup_filter_Some in He as [He Hp]. simpl in *.
    rewrite He in He'. injection He' as <-. done.
  - rewrite elem_of_get_ids in Hnin.
    destruct (c !! k) as [e|] eqn:Hk.
    + symmetry. apply map_lookup_filter_Some. split; [done|]. simpl.
      intros Hp. apply Hnin. exists e. by apply map_lookup_filter_Some.
    + symmetry. apply map_lookup_filter_None. by left.
Qed.

Lemma size_held_split doc_id c :
  (size (held_for_others doc_id c) + size (held_for doc_id c) = size c)%nat.
Proof.
  unfold held_for, held_for_others.
  rewrite Nat.add_comm, <- map_size_disj_union
    by apply map_disjoint_filter_complement.
  by rewrite map_filter_union_complement.
Qed.

Lemma held_for_others_none doc_id c :
  held_for doc_id (held_for_others doc_id c) = ∅.
Proof.
  apply map_empty. intros k. apply map_lookup_filter_None. right.
  intros e He Hp. apply map_lookup_filter_Some in He as [_ Hn]. done.
Qed.

End CollectionFacts.

(** ** Chunk metadata *)

Section MetadataFacts.

Variable encode : pystr → Embedding.
Variable md5_hexdigest : pystr → pystr.
Variable file_of : pystr → pystr.

Lemma to_uint_nonnil n : Nat.to_uint n ≠ Decimal.Nil.
Proof.
  intros H. pose proof (DecimalNat.Unsigned.to_of (Nat.to_uint n)) as Hn.
  rewrite DecimalNat.Unsigned.of_to, H in Hn.
  by apply (DecimalFacts.unorm_nonnil Decimal.Nil).
Qed.

Lemma str_of_nat_inj : Inj (=) (=) str_of_nat.
Proof.
  intros n m H. unfold str_of_nat, lit in H.
  apply (f_equal string_of_list_ascii) in H.
  rewrite !string_of_list_ascii_of_string in H.
  apply (f_equal NilZero.uint_of_string) in H.
  rewrite !NilZero.usu in H by apply to_uint_nonnil.
  injection H as H. by apply DecimalNat.Unsigned.to_uint_inj.
Qed.

Lemma chunk_key_inj doc_id chunk chunk' :
  chunk_key doc_id chunk = chunk_key doc_id chunk' →
  chunk_id chunk = chunk_id chunk'.
Proof.
  unfold chunk_key. intros H. apply app_inv_head in H.
  apply app_inv_head in H. by apply str_of_nat_inj.
Qed.

Lemma chunk_keys_NoDup doc_id content :
  NoDup (map (chunk_key doc_id)
           (_chunk_text content default_chunk_size default_overlap)).
Proof.
  set (chunks := _chunk_text content default_chunk_size default_overlap).
  assert (NoDup (map chunk_id chunks)) as Hnd.
  { subst chunks. rewrite _chunk_text_close.
    rewrite (loop_chunk_ids default_chunk_size default_overlap) by done.
    apply NoDup_seq. }
  clearbody chunks. induction chunks as [|c chunks IH]; [constructor|].
  cbn [map] in *. apply NoDup_cons in Hnd as [Hc Hnd].
  apply NoDup_cons. split; [|by apply IH].
  intros Hin. apply Hc. apply list_elem_of_fmap in Hin as (c' & Hk & Hc').
  apply chunk_key_inj in Hk. rewrite Hk. by apply list_elem_of_fmap_2.
Qed.

Lemma add_entries_keep l c k en :
  c !! k = Some en → foldl add_entry c l !! k = Some en.
Proof.
  revert c. induction l as [|[i [e [d m]]] l IH]; intros c Hk; [done|].
  cbn [foldl]. apply IH. unfold add_entry.
  destruct (c !! i) eqn:Hi; [done|].
  rewrite lookup_insert_ne; [done|]. intros ->. congruence.
Qed.

Lemma add_entries_fresh l c k e d m :
  NoDup l.*1 → (k, (e, (d, m))) ∈ l → c !! k = None →
  foldl add_entry c l !! k = Some (mkEntry e d m).
Proof.
  revert c. induction l as [|[i [e' [d' m']]] l IH]; intros c Hnd Hin Hk.
  { by apply elem_of_nil in Hin. }
  cbn [fmap list_fmap fst] in Hnd. apply NoDup_cons in Hnd as [Hi Hnd].
  cbn [foldl]. apply elem_of_cons in Hin as [Heq|Hin].
  - injection Heq as <- <- <- <-. apply add_entries_keep.
    unfold add_entry. rewrite Hk. apply lookup_insert_eq.
  - assert (i ≠ k) as Hne.
    { intros ->. apply Hi. apply list_elem_of_fmap. by exists (k, (e, (d, m))). }
    apply IH; [done..|]. unfold add_entry.
    destruct (c !! i); [done|]. by rewrite lookup_insert_ne.
Qed.

Lemma zip_chunks {A B C D} (f : Chunk → A) (g : Chunk → B) (h : Chunk → C)
    (j : Chunk → D) (chunks : list Chunk) :
  zip (map f chunks) (zip (map g chunks) (zip (map h chunks) (map j chunks)))
  = map (λ c, (f c, (g c, (h c, j c)))) chunks.
Proof. induction chunks as [|c chunks IH]; [done|]. simpl. by rewrite IH. Qed.

(** C10, as the code has it: after a successful [add_document], the
    metadata built for each chunk is the four keys doc_id, title,
    chunk_index and length with the caller's metadata on top, an entry of
    the caller replacing the key of the same name; when the caller gives a
    doc_id key, that value is the doc_id of the chunk metadata, and it is
    the value a filter on doc_id (of a scoped search, of the cascade of a
    deletion) is compared with; the metadata is stored with the chunk under
    the id of the chunk, unless the collection has an entry under that id
    already: then that entry stays as it is. *)
Theorem add_document_chunk_metadata
    (st st' : Tool) (content title : pystr) (metadata_ : option Metadata)
    (doc_id : option pystr) (now : pystr) (r : AddResult) :
  add_document encode md5_hexdigest file_of st content title metadata_ doc_id now = (r, st') →
  add_success r = true →
  let id := match doc_id with
            | None => _generate_doc_id md5_hexdigest content
            | Some d => d
            end in
  let given := default ∅ metadata_ in
  ∀ chunk, chunk ∈ _chunk_text content default_chunk_size default_overlap →
    let stored := chunk_metadata id title metadata_ chunk in
    let entry := mkEntry (encode (text chunk)) (text chunk) stored in
    (provenance id title chunk !! lit "doc_id" = Some (MStr id)
     ∧ provenance id title chunk !! lit "title" = Some (MStr title)
     ∧ provenance id title chunk !! lit "chunk_index"
       = Some (MInt (Z.of_nat (chunk_id chunk)))
     ∧ provenance id title chunk !! lit "length"
       = Some (MInt (Z.of_nat (chunk_len chunk))))
    ∧ (∀ k, stored !! k = match given !! k with
                          | Some v => Some v
                          | None => provenance id title chunk !! k
                          end)
    ∧ (∀ v, given !! lit "doc_id" = Some v →
         stored !! lit "doc_id" = Some v
         ∧ ∀ x, where_match (Some (lit "doc_id", MStr x)) entry
                = bool_decide (v = MStr x))
    ∧ collection st' !! chunk_key id chunk
      = match collection st !! chunk_key id chunk with
        | None => Some entry
        | Some kept => Some kept
        end.
Proof.
  intros Hadd Hok id given chunk Hin stored entry.
  assert (∀ k, stored !! k = match given !! k with
                             | Some v => Some v
                             | None => provenance id title chunk !! k
                             end) as Hlook.
  { intros k. subst stored. unfold chunk_metadata, dict_update. fold given.
    rewrite lookup_union. by destruct (given !! k), (provenance id title chunk !! k). }
  split; [by repeat split|]. split; [exact Hlook|]. split.
  - intros v Hv. assert (stored !! lit "doc_id" = Some v) as Hs
      by (by rewrite Hlook, Hv).
    split; [done|]. intros x. subst entry. cbn [where_match metadata].
    rewrite Hs. apply bool_decide_ext. split; congruence.
  - unfold add_document in Hadd. fold id in Hadd.
    destruct (index st !! id) eqn:Hidx.
    { injection Hadd as <- <-. done. }
    injection Hadd as <- <-. cbn [collection]. unfold collection_add.
    rewrite map_map.
    rewrite (zip_chunks (chunk_key id) (λ c, encode (text c)) text
               (chunk_metadata id title metadata_)).
    destruct (collection st !! chunk_key id chunk) as [kept|] eqn:Hfresh;
      [by apply add_entries_keep|].
    apply add_entries_fresh; [| |done].
    + rewrite <- list_fmap_compose. apply chunk_keys_NoDup.
    + by apply (list_elem_of_fmap_2
                  (λ c, (chunk_key id c,
                         (encode (text c),
                          (text c, chunk_metadata id title metadata_ c)))) _ chunk).
Qed.

End MetadataFacts.

Lemma add_document_chunk_metadata_witness :
  let given : Metadata := {[ lit "doc_id" := MStr (lit "zz") ]} in
  let chunk := mkChunk 0 (lit "a text") 8 in
  let stored := chunk_metadata (lit "d2") (lit "T") (Some given) chunk in
  let entry := mkEntry (Demo.encode (lit "a text")) (lit "a text") stored in
  (∀ v, given !! lit "doc_id" = Some v →
     stored !! lit "doc_id" = Some v
     ∧ ∀ x, where_match (Some (lit "doc_id", MStr x)) entry
            = bool_decide (v = MStr x))
  ∧ collection Demo.tool_d2_foreign !! chunk_key (lit "d2") chunk
    = match collection Demo.empty_tool !! chunk_key (lit "d2") chunk with
      | None => Some entry
      | Some kept => Some kept
      end.
Proof.
  intros given chunk stored entry.
  assert (chunk ∈ _chunk_text (lit "a text") default_chunk_size default_overlap)
    as Hin by (vm_compute; left).
  destruct (add_document_chunk_metadata Demo.encode Demo.md5_hexdigest Demo.file_of
              Demo.empty_tool Demo.tool_d2_foreign (lit "a text") (lit "T")
              (Some given) (Some (lit "d2")) Demo.now
              (AddDone true (lit "d2") (lit "T") 1
                 (lit "Document 'T' added successfully"))
              eq_refl eq_refl chunk Hin) as (_ & _ & H1 & H2).
  split; [exact H1|exact H2].
Defined.

(** C10 as stated fails: d2 is added with a doc_id of the caller in its
    metadata, deleted (which leaves its chunk in the collection, see
    above), and added again with another content and title.  The second
    call succeeds, but what is stored under the id of its chunk is the
    entry of the first call, not the metadata the second call built. *)
Lemma add_document_chunk_metadata_counterexample :
  let st := (delete_document Demo.file_of Demo.tool_d2_foreign (lit "d2")).2 in
  ∃ r st' chunk e,
    add_document Demo.encode Demo.md5_hexdigest Demo.file_of st
      (lit "b text") (lit "U") None (Some (lit "d2")) Demo.now = (r, st')
    ∧ add_success r = true
    ∧ chunk ∈ _chunk_text (lit "b text") default_chunk_size default_overlap
    ∧ collection st' !! chunk_key (lit "d2") chunk = Some e
    ∧ metadata e ≠ chunk_metadata (lit "d2") (lit "U") None chunk
    ∧ metadata e !! lit "title" = Some (MStr (lit "T"))
    ∧ metadata e !! lit "doc_id" = Some (MStr (lit "zz"))
    ∧ document e = lit "a text".
Proof.
  intros st. eexists _, _, (mkChunk 0 (lit "b text") 8), _.
  split; [reflexivity|]. split; [reflexivity|].
  split; [vm_compute; left|]. split; [vm_compute; reflexivity|].
  split; [|by vm_compute].
  intros H. apply (f_equal (λ m : Metadata, m !! lit "title")) in H.
  vm_compute in H. discriminate.
Qed.

(** ** The registry, the files and the collection together *)

Section LibraryFacts.

Variable encode : pystr → Embedding.
Variable md5_hexdigest : pystr → pystr.
Variable file_of : pystr → pystr.



(** The entries [add_document] hands to the collection, as a map. *)
Lemma add_entries_lookup l c k :
  foldl add_entry c l !! k
  = match c !! k with
    | Some en => Some en
    | None => (λ x : Embedding * (pystr * Metadata), mkEntry x.1 x.2.1 x.2.2)
                <$> (list_to_map l : gmap pystr _) !! k
    end.
Proof.
  revert c. induction l as [|[i [e [d m]]] l IH]; intros c.
  { simpl. rewrite lookup_empty. by destruct (c !! k). }
  cbn [foldl]. rewrite IH. cbn [list_to_map foldr]. unfold add_entry.
  destruct (decide (i = k)) as [->|Hne].
  - rewrite lookup_insert_eq. destruct (c !! k) eqn:Hk; [by rewrite Hk|].
    by rewrite lookup_insert_eq.
  - rewrite (lookup_insert_ne _ i k) by done.
    destruct (c !! i); [done|]. by rewrite lookup_insert_ne.
Qed.

Lemma add_document_fresh st content title metadata_ doc_id now :
  let id := match doc_id with
            | None => _generate_doc_id md5_hexdigest content
            | Some d => d
            end in
  let chunks := _chunk_text content default_chunk_size default_overlap in
  index st !! id = None →
  add_document encode md5_hexdigest file_of st content title metadata_ doc_id now
  = (AddDone true id title (length chunks)
       (lit "Document '" ++ title ++ lit "' added successfully"),
     mkTool
       (<[id := mkDocInfo id title (default ∅ metadata_) now (length chunks)
                  (length content) (length (split_ws content))]> (index st))
       (<[file_of id := content]> (files st))
       (foldl add_entry (collection st)
          (map (λ c, (chunk_key id c,
                      (encode (text c), (text c, chunk_metadata id title metadata_ c))))
               chunks))).
Proof.
  intros id chunks H. unfold add_document. fold id. rewrite H.
  unfold collection_add. fold chunks. rewrite map_map.
  by rewrite (zip_chunks (chunk_key id) (λ c, encode (text c)) text
                (chunk_metadata id title metadata_)).
Qed.

Lemma add_document_registered st content title metadata_ doc_id now info :
  let id := match doc_id with
            | None => _generate_doc_id md5_hexdigest content
            | Some d => d
            end in
  index st !! id = Some info →
  add_document encode md5_hexdigest file_of st content title metadata_ doc_id now
  = (AddExisting false id (lit "Document already exists") true, st).
Proof. intros id H. unfold add_document. fold id. by rewrite H. Qed.

Lemma delete_document_registered st doc_id info :
  index st !! doc_id = Some info →
  delete_document file_of st doc_id
  = (DeleteDone true doc_id (di_title info)
       (size (held_for doc_id (collection st)))
       (lit "Document '" ++ di_title info ++ lit "' deleted successfully"),
     mkTool (delete doc_id (index st)) (delete (file_of doc_id) (files st))
       (held_for_others doc_id (collection st))).
Proof.
  intros Hin. unfold delete_document. rewrite Hin.
  rewrite length_get_ids. do 2 f_equal.
  rewrite <- collection_delete_held.
  by destruct (collection_get_ids _ _).
Qed.

Lemma delete_document_unregistered st doc_id :
  index st !! doc_id = None →
  delete_document file_of st doc_id
  = (DeleteFailed false (lit "Document " ++ doc_id ++ lit " not found"), st).
Proof. intros Hin. unfold delete_document. by rewrite Hin. Qed.

Lemma chunk_metadata_keys doc_id title metadata_ chunk :
  is_Some (chunk_metadata doc_id title metadata_ chunk !! lit "doc_id")
  ∧ is_Some (chunk_metadata doc_id title metadata_ chunk !! lit "title").
Proof.
  unfold chunk_metadata, dict_update. rewrite !lookup_union.
  split; destruct (default ∅ metadata_ !! _); by eexists.
Qed.

(** Every entry of the collection carries the keys a search reads. *)
Lemma keyed_add st content title metadata_ doc_id now :
  keyed st →
  keyed (add_document encode md5_hexdigest file_of st content title metadata_ doc_id now).2.
Proof.
  intros Hkeys.
  set (id := match doc_id with
             | None => _generate_doc_id md5_hexdigest content
             | Some d => d
             end).
  destruct (index st !! id) as [info|] eqn:Hid.
  { rewrite (add_document_registered _ _ _ _ _ _ info) by done. done. }
  rewrite add_document_fresh by done. fold id. cbn [snd].
  intros k e. cbn [collection]. rewrite add_entries_lookup.
  destruct (collection st !! k) as [en|] eqn:Hk.
  - intros [= <-]. by eapply Hkeys.
  - intros He. apply fmap_Some in He as ([em [dm mm]] & Hl & ->).
    apply elem_of_list_to_map_2 in Hl.
    apply list_elem_of_fmap in Hl as (c & [= -> -> -> ->] & _).
    apply chunk_metadata_keys.
Qed.

Lemma keyed_delete st doc_id :
  keyed st → keyed (delete_document file_of st doc_id).2.
Proof.
  intros Hkeys.
  destruct (index st !! doc_id) as [info|] eqn:Hid.
  2:{ by rewrite delete_document_unregistered. }
  rewrite (delete_document_registered _ _ info) by done. cbn [snd].
  intros k e He. apply map_lookup_filter_Some in He as [He _].
  by eapply Hkeys.
Qed.

Lemma reachable_keyed st :
  reachable encode md5_hexdigest file_of st → keyed st.
Proof.
  induction 1 as [|st content title metadata_ doc_id now _ IH|st doc_id _ IH].
  - intros k e. cbn [collection]. by rewrite lookup_empty.
  - by apply keyed_add.
  - by apply keyed_delete.
Qed.

Lemma reachable_by_reachable allowed st :
  reachable_by encode md5_hexdigest file_of allowed st →
  reachable encode md5_hexdigest file_of st.
Proof.
  induction 1; [apply reachable_empty|by apply reachable_add|by apply reachable_delete].
Qed.

(** *** Registry and files, when the doc_ids name distinct files *)

Section DistinctFiles.

Variable ids : pystr → Prop.
Hypothesis ids_distinct : ∀ a b, ids a → ids b → file_of a = file_of b → a = b.


End DistinctFiles.

(** *** The chunks of the registered documents *)

Lemma digits_no_underscore (u : Decimal.uint) :
  "_"%char ∉ lit (NilEmpty.string_of_uint u).
Proof.
  induction u; cbn; [apply not_elem_of_nil|..];
    (apply not_elem_of_cons; split; [done|exact IHu]).
Qed.

Lemma str_of_nat_no_underscore (n : nat) : "_"%char ∉ str_of_nat n.
Proof.
  unfold str_of_nat, NilZero.string_of_uint.
  destruct (Nat.to_uint n) eqn:Hn; try (rewrite <- Hn; apply digits_no_underscore).
  cbn. apply not_elem_of_cons. split; [done|apply not_elem_of_nil].
Qed.

Lemma split_at_last (c : ascii) (a a' d d' : pystr) :
  c ∉ d → c ∉ d' → a ++ c :: d = a' ++ c :: d' → a = a' ∧ d = d'.
Proof.
  intros Hd Hd'. revert a'. induction a as [|x a IH]; intros [|y a']; cbn.
  - by intros [= ->].
  - intros [= <- ->]. exfalso. apply Hd. apply elem_of_app. right. left.
  - intros [= -> <-]. exfalso. apply Hd'. apply elem_of_app. right. left.
  - intros [= <- H]. by destruct (IH _ H) as [-> ->].
Qed.

Lemma chunk_name_inj doc_id doc_id' i i' :
  doc_id ++ lit "_" ++ str_of_nat i = doc_id' ++ lit "_" ++ str_of_nat i' →
  doc_id = doc_id' ∧ i = i'.
Proof.
  intros H. apply split_at_last in H as [-> H]; try apply str_of_nat_no_underscore.
  split; [done|]. by apply str_of_nat_inj.
Qed.

Lemma _chunk_text_ids content :
  map chunk_id (_chunk_text content default_chunk_size default_overlap)
  = seq 0 (length (_chunk_text content default_chunk_size default_overlap)).
Proof.
  rewrite _chunk_text_close.
  by rewrite (loop_chunk_ids default_chunk_size default_overlap).
Qed.

Lemma _chunk_text_id_bound content chunk :
  chunk ∈ _chunk_text content default_chunk_size default_overlap →
  (chunk_id chunk < length (_chunk_text content default_chunk_size default_overlap))%nat.
Proof.
  intros Hin. apply (list_elem_of_fmap_2 chunk_id) in Hin.
  rewrite _chunk_text_ids in Hin. apply elem_of_seq in Hin. lia.
Qed.

Lemma _chunk_text_id_chunk content i :
  (i < length (_chunk_text content default_chunk_size default_overlap))%nat →
  ∃ chunk, chunk ∈ _chunk_text content default_chunk_size default_overlap
           ∧ chunk_id chunk = i.
Proof.
  intros Hi.
  assert (i ∈ map chunk_id (_chunk_text content default_chunk_size default_overlap))
    as Hin by (rewrite _chunk_text_ids; apply elem_of_seq; lia).
  apply list_elem_of_fmap in Hin as (chunk & -> & Hin). by exists chunk.
Qed.

Lemma chunks_in_place_add st content title metadata_ doc_id now :
  default ∅ metadata_ !! lit "doc_id" = None →
  chunks_in_place st →
  chunks_in_place
    (add_document encode md5_hexdigest file_of st content title metadata_ doc_id now).2.
Proof.
  intros Hmd [Hin Hall].
  set (id := match doc_id with
             | None => _generate_doc_id md5_hexdigest content
             | Some d => d
             end).
  destruct (index st !! id) as [info|] eqn:Hid.
  { by rewrite (add_document_registered _ _ _ _ _ _ info) by done. }
  rewrite add_document_fresh by done. fold id. cbn [snd].
  set (chunks := _chunk_text content default_chunk_size default_overlap).
  set (l := map (λ c, (chunk_key id c,
                       (encode (text c), (text c, chunk_metadata id title metadata_ c))))
              chunks).
  split; cbn [index collection].
  - intros k e. rewrite add_entries_lookup.
    destruct (collection st !! k) as [en|] eqn:Hk.
    + intros [= <-]. destruct (Hin _ _ Hk) as (d & info & i & Hd & Hi & -> & Hm).
      exists d, info, i. rewrite lookup_insert_ne; [done|]. congruence.
    + intros He. apply fmap_Some in He as ([em [dm mm]] & Hl & ->).
      apply elem_of_list_to_map_2 in Hl.
      apply list_elem_of_fmap in Hl as (c & [= -> -> -> ->] & Hc).
      eexists id, _, (chunk_id c). rewrite lookup_insert_eq.
      split; [done|]. cbn [chunk_count metadata fst snd].
      split; [by apply _chunk_text_id_bound|]. split; [done|].
      unfold chunk_metadata, dict_update. by rewrite lookup_union, Hmd.
  - intros d info i Hd Hi. destruct (decide (id = d)) as [<-|Hne].
    + rewrite lookup_insert_eq in Hd. injection Hd as <-. cbn [chunk_count] in Hi.
      destruct (_chunk_text_id_chunk content i Hi) as (c & Hc & <-).
      rewrite add_entries_lookup. fold (chunk_key id c).
      destruct (collection st !! chunk_key id c); [by eexists|].
      destruct (list_to_map l !! chunk_key id c) as [x|] eqn:Hl; [by eexists|].
      apply not_elem_of_list_to_map in Hl. exfalso. apply Hl.
      subst l. rewrite <- list_fmap_compose.
      by apply (list_elem_of_fmap_2 (chunk_key id)).
    + rewrite lookup_insert_ne in Hd by done.
      destruct (Hall _ _ _ Hd Hi) as [e He]. exists e.
      by apply add_entries_keep.
Qed.

Lemma chunks_in_place_delete st doc_id :
  chunks_in_place st → chunks_in_place (delete_document file_of st doc_id).2.
Proof.
  intros [Hin Hall].
  destruct (index st !! doc_id) as [info|] eqn:Hid.
  2:{ by rewrite delete_document_unregistered. }
  rewrite (delete_document_registered _ _ info) by done. cbn [snd].
  split; cbn [index collection].
  - intros k e He. apply map_lookup_filter_Some in He as [He Hn].
    cbn [fst snd] in Hn.
    destruct (Hin _ _ He) as (d & i & n & Hd & Hi & -> & Hm).
    exists d, i, n. rewrite lookup_delete_ne; [done|].
    intros <-. by apply Hn.
  - intros d i n Hd Hn. apply lookup_delete_Some in Hd as [Hne Hd].
    destruct (Hall _ _ _ Hd Hn) as [e He]. exists e.
    apply map_lookup_filter_Some. split; [done|]. cbn [fst snd].
    destruct (Hin _ _ He) as (d' & i' & n' & _ & _ & Hk & ->).
    apply chunk_name_inj in Hk as [<- _]. congruence.
Qed.

Lemma reachable_chunks_in_place st :
  reachable_by encode md5_hexdigest file_of (λ _ m, m !! lit "doc_id" = None) st →
  chunks_in_place st.
Proof.
  induction 1 as [|st content title metadata_ doc_id now Hok _ IH|st doc_id _ IH].
  - split; cbn [index collection]; intros *; by rewrite lookup_empty.
  - by apply chunks_in_place_add.
  - by apply chunks_in_place_delete.
Qed.

(** With the chunks in place, the entries that name a registered doc_id are
    its chunks. *)
Lemma held_for_chunks st doc_id info k :
  chunks_in_place st →
  index st !! doc_id = Some info →
  is_Some (held_for doc_id (collection st) !! k)
  ↔ k ∈ map (λ i, doc_id ++ lit "_" ++ str_of_nat i) (seq 0 (chunk_count info)).
Proof.
  intros [Hin Hall] Hd. rewrite list_elem_of_fmap. split.
  - intros [e He]. apply map_lookup_filter_Some in He as [He Hm].
    cbn [fst snd] in Hm.
    destruct (Hin _ _ He) as (d & info' & i & Hd' & Hi & -> & Hm').
    assert (d = doc_id) as -> by congruence.
    assert (info' = info) as -> by congruence.
    exists i. split; [done|]. apply elem_of_seq. lia.
  - intros (i & -> & Hi). apply elem_of_seq in Hi.
    destruct (Hall _ _ i Hd) as [e He]; [lia|]. exists e.
    apply map_lookup_filter_Some. split; [done|]. cbn [fst snd].
    destruct (Hin _ _ He) as (d' & i' & n' & _ & _ & Hk & ->).
    by apply chunk_name_inj in Hk as [<- _].
Qed.

Lemma size_held_for_chunks st doc_id info :
  chunks_in_place st →
  index st !! doc_id = Some info →
  size (held_for doc_id (collection st)) = chunk_count info.
Proof.
  intros Hplace Hd.
  transitivity (length (map (λ i, doc_id ++ lit "_" ++ str_of_nat i)
                          (seq 0 (chunk_count info))));
    [|by rewrite length_map, length_seq].
  rewrite <- length_map_to_list, <- (length_fmap fst).
  apply Permutation_length, NoDup_Permutation.
  - apply NoDup_fst_map_to_list.
  - apply NoDup_fmap_2; [|apply NoDup_seq].
    intros i j H. by apply chunk_name_inj in H as [_ ?].
  - intros k. rewrite <- (held_for_chunks st doc_id info k) by done.
    rewrite list_elem_of_fmap. split.
    + intros ([k' e] & -> & He). exists e. by apply elem_of_map_to_list.
    + intros [e He]. exists (k, e). split; [done|]. by apply elem_of_map_to_list.
Qed.

End LibraryFacts.

(** ** Facts about a search *)

Section SearchFacts.

Variable encode : pystr → Embedding.
Variable tie_order :
  Collection → Embedding → Z → option (pystr * meta_value) → pystr → Z.

Lemma search_documents_unfold st query top_k doc_filter :
  search_documents encode tie_order st query top_k doc_filter
  = if accepted_results top_k
    then hits ← mapM format_row
                   (take (Z.to_nat top_k)
                      (ranked_rows encode tie_order st query top_k doc_filter));
         Some (mkSearchResult true query (length hits)
                 (collection_count (collection st)) hits)
    else None.
Proof.
  unfold search_documents, collection_query, ranked_rows.
  by destruct (accepted_results top_k).
Qed.

Lemma accepted_results_spec (n : Z) :
  accepted_results n = true ↔ 0 < n < 2 ^ 32.
Proof. unfold accepted_results. rewrite andb_true_iff, !Z.ltb_lt. done. Qed.

(** The rows a search ranks are the matching entries, whatever the order
    among equals. *)
Lemma ranked_rows_perm st query top_k doc_filter :
  ranked_rows encode tie_order st query top_k doc_filter
  ≡ₚ map (λ ie, (ie, l2 (encode query) (embedding ie.2)))
       (collection_matching (collection st) (doc_where doc_filter)).
Proof.
  unfold ranked_rows, candidates. by rewrite !sort_by_perm.
Qed.

Lemma ranked_rows_entries st query top_k doc_filter (r : Row) :
  r ∈ ranked_rows encode tie_order st query top_k doc_filter →
  collection st !! r.1.1 = Some r.1.2
  ∧ where_match (doc_where doc_filter) r.1.2 = true.
Proof.
  rewrite ranked_rows_perm. intros Hin.
  apply list_elem_of_fmap in Hin as ([k e] & -> & Hin). cbn.
  by apply elem_of_map_to_list, map_lookup_filter_Some in Hin.
Qed.

Lemma ranked_rows_NoDup st query top_k doc_filter :
  NoDup (map (λ r : Row, r.1.1)
           (ranked_rows encode tie_order st query top_k doc_filter)).
Proof.
  rewrite ranked_rows_perm, map_map. cbn.
  apply (NoDup_fst_map_to_list (M := gmap pystr)).
Qed.

Lemma length_ranked_rows st query top_k doc_filter :
  length (ranked_rows encode tie_order st query top_k doc_filter)
  = length (collection_matching (collection st) (doc_where doc_filter)).
Proof. by rewrite ranked_rows_perm, length_map. Qed.

#[local] Instance Qle_snd_trans : Transitive (λ a b : Row, (a.2 <= b.2)%Q).
Proof. intros a b c. apply Qle_trans. Qed.

Lemma ranked_rows_sorted st query top_k doc_filter :
  StronglySorted (λ a b : Row, (a.2 <= b.2)%Q)
    (ranked_rows encode tie_order st query top_k doc_filter).
Proof.
  apply sort_by_sorted; [apply _|..]; intros x y Hb.
  - by apply Qlt_bool_true, Qlt_le_weak in Hb.
  - by apply Qlt_bool_false in Hb.
Qed.

Lemma format_row_Some (r : Row) (h : Hit) :
  format_row r = Some h →
  hit_chunk_id h = r.1.1
  ∧ hit_text h = document r.1.2
  ∧ similarity h = (1 - r.2)%Q
  ∧ metadata r.1.2 !! lit "doc_id" = Some (hit_doc_id h)
  ∧ metadata r.1.2 !! lit "title" = Some (doc_title h).
Proof.
  destruct r as [[k e] d]. unfold format_row. cbn [fst snd].
  destruct (metadata e !! lit "doc_id") as [v|] eqn:Hv; cbn [mbind option_bind]; [|done].
  destruct (metadata e !! lit "title") as [t|] eqn:Ht; cbn [mbind option_bind]; [|done].
  intros [= <-]. by repeat split.
Qed.

Lemma StronglySorted_take {A} (R : relation A) l n :
  StronglySorted R l → StronglySorted R (take n l).
Proof.
  intros H. revert n. induction H as [|x l Hl IH Hx]; intros [|n]; simpl;
    try constructor; [apply IH|by apply Forall_take].
Qed.

Lemma StronglySorted_Forall2 {A B} (P : A → B → Prop) (R : relation A)
    (S : relation B) l k :
  (∀ a b x y, P a x → P b y → R a b → S x y) →
  Forall2 P l k → StronglySorted R l → StronglySorted S k.
Proof.
  intros HRS HF. induction HF as [|a x l k Hax HF IH]; intros Hs; [constructor|].
  apply StronglySorted_inv in Hs as [Hs Ha]. constructor; [by apply IH|].
  clear IH Hs. induction HF as [|b y l k Hby HF IH]; [constructor|].
  apply Forall_cons in Ha as [Hab Ha]. constructor; [by eapply HRS|by apply IH].
Qed.

Lemma ranked_rows_complete st query top_k doc_filter k e :
  collection st !! k = Some e →
  where_match (doc_where doc_filter) e = true →
  ∃ d, (k, e, d) ∈ ranked_rows encode tie_order st query top_k doc_filter.
Proof.
  intros Hk Hm. exists (l2 (encode query) (embedding e)).
  rewrite ranked_rows_perm.
  apply list_elem_of_fmap. exists (k, e). split; [done|].
  unfold collection_matching. apply elem_of_map_to_list.
  by apply map_lookup_filter_Some.
Qed.

(** When every entry carries the keys a search reads, a search for a
    number of results the index accepts returns, with as many results as
    were asked for or as there are entries that match. *)
Lemma search_documents_keyed st query top_k doc_filter :
  keyed st →
  0 < top_k < 2 ^ 32 →
  ∃ hits,
    search_documents encode tie_order st query top_k doc_filter
    = Some (mkSearchResult true query (length hits)
              (collection_count (collection st)) hits)
    ∧ mapM format_row
        (take (Z.to_nat top_k)
           (ranked_rows encode tie_order st query top_k doc_filter)) = Some hits
    ∧ length hits
      = (Z.to_nat top_k
         `min` length (collection_matching (collection st) (doc_where doc_filter)))%nat.
Proof.
  intros Hkeys Hk. rewrite search_documents_unfold.
  rewrite (proj2 (accepted_results_spec top_k) Hk).
  assert (is_Some (mapM format_row
            (take (Z.to_nat top_k)
               (ranked_rows encode tie_order st query top_k doc_filter))))
    as [hits Hhits].
  { apply mapM_is_Some, Forall_take, Forall_forall. intros [[k e] d] Hin.
    apply ranked_rows_entries in Hin as [Hin _]. cbn in Hin.
    destruct (Hkeys _ _ Hin) as [[v Hv] [t Ht]].
    change (is_Some (format_row (k, e, d))). unfold format_row.
    rewrite Hv. cbn [mbind option_bind]. rewrite Ht. by eexists. }
  rewrite Hhits. exists hits. split; [done|]. split; [done|].
  apply length_mapM in Hhits.
  by rewrite <- Hhits, length_take, length_ranked_rows.
Qed.

End SearchFacts.

(** ** The grouped search *)

Section GroupedRetrieval.

Variable encode : pystr → Embedding.
Variable md5_hexdigest : pystr → pystr.
Variable file_of : pystr → pystr.
Variable tie_order :
  Collection → Embedding → Z → option (pystr * meta_value) → pystr → Z.

Lemma length_collection_matching_all (c : Collection) :
  length (collection_matching c None) = collection_count c.
Proof.
  unfold collection_matching, collection_count.
  rewrite map_filter_id; [apply length_map_to_list|done].
Qed.

(** C4, as the code has it: in every state a tool can reach, for a [top_k]
    from 1 on whose double the index accepts as a number of results,
    [semantic_search_all] asks the index for the [top_k * 2] entries nearest
    to the query, with no filter, and gets that many, or all the entries
    when there are fewer; the chunks retrieved are those rows, formatted.
    The groups it builds partition the retrieved chunks by doc_id (distinct
    doc_ids, every retrieved chunk in the group of its doc_id, each group
    holding all the retrieved chunks of its doc_id with their similarities),
    the [max_similarity] of a group is the greatest similarity among its
    chunks, the groups are sorted by descending [max_similarity], and the
    answer holds the first [top_k] of them, so at most [top_k]. *)
Theorem semantic_search_all_grouped
    (st : Tool) (query : pystr) (top_k : Z) :
  reachable encode md5_hexdigest file_of st →
  1 ≤ top_k →
  top_k * 2 < 2 ^ 32 →
  ∃ (rows : list Row) (sr : SearchResult) (gr : GroupedResult)
    (all_groups : list DocGroup),
    collection_query tie_order (collection st) (encode query) (top_k * 2) None
    = Some rows
    ∧ length rows
      = (Z.to_nat (top_k * 2) `min` collection_count (collection st))%nat
    ∧ search_documents encode tie_order st query (top_k * 2) None = Some sr
    ∧ Forall2 (λ (row : Row) (h : Hit), format_row row = Some h) rows (results sr)
    ∧ semantic_search_all encode tie_order st query top_k = Some gr
    ∧ gr_success gr = true
    ∧ NoDup (map g_doc_id all_groups)
    ∧ (∀ h, h ∈ results sr → hit_doc_id h ∈ map g_doc_id all_groups)
    ∧ Forall (group_ok (results sr)) all_groups
    ∧ StronglySorted desc_similarity all_groups
    ∧ documents gr = take (Z.to_nat top_k) all_groups
    ∧ Z.of_nat (length (documents gr)) ≤ top_k.
Proof.
  intros Hreach Hk Hmax. apply reachable_keyed in Hreach.
  destruct (search_documents_keyed encode tie_order st query (top_k * 2) None Hreach)
    as (hits & Hs & Hm & Hlen); [lia|].
  destruct (semantic_search_all_groups encode tie_order st query top_k _ Hs)
    as (gr & all_groups & Hrun & Hok & _ & Hrest).
  exists (take (Z.to_nat (top_k * 2))
            (ranked_rows encode tie_order st query (top_k * 2) None)),
    (mkSearchResult true query (length hits) (collection_count (collection st)) hits),
    gr, all_groups.
  split.
  { unfold collection_query, ranked_rows.
    by rewrite (proj2 (accepted_results_spec (top_k * 2))) by lia. }
  split.
  { rewrite length_take, length_ranked_rows. cbn [doc_where].
    by rewrite length_collection_matching_all. }
  split; [done|]. split; [by apply mapM_Some|]. split; [done|]. split; [done|].
  exact Hrest.
Qed.

End GroupedRetrieval.

Lemma semantic_search_all_grouped_witness :
  ∃ (rows : list Row) (sr : SearchResult) (gr : GroupedResult)
    (all_groups : list DocGroup),
    collection_query Demo.tie_order (collection Demo.tool_d1_empty)
      (Demo.encode (lit "b")) (1 * 2) None = Some rows
    ∧ length rows
      = (Z.to_nat (1 * 2) `min` collection_count (collection Demo.tool_d1_empty))%nat
    ∧ search_documents Demo.encode Demo.tie_order Demo.tool_d1_empty (lit "b") (1 * 2) None
      = Some sr
    ∧ Forall2 (λ (row : Row) (h : Hit), format_row row = Some h) rows (results sr)
    ∧ semantic_search_all Demo.encode Demo.tie_order Demo.tool_d1_empty (lit "b") 1
      = Some gr
    ∧ gr_success gr = true
    ∧ NoDup (map g_doc_id all_groups)
    ∧ (∀ h, h ∈ results sr → hit_doc_id h ∈ map g_doc_id all_groups)
    ∧ Forall (group_ok (results sr)) all_groups
    ∧ StronglySorted desc_similarity all_groups
    ∧ documents gr = take (Z.to_nat 1) all_groups
    ∧ Z.of_nat (length (documents gr)) ≤ 1.
Proof.
  apply (semantic_search_all_grouped Demo.encode Demo.md5_hexdigest Demo.file_of
           Demo.tie_order Demo.tool_d1_empty (lit "b") 1).
  - apply reachable_add, reachable_add, reachable_empty.
  - lia.
  - reflexivity.
Defined.

(** C4 as stated fails: for [top_k = 0], and for a [top_k] whose double is
    2^32, the index refuses the number of results and [semantic_search_all]
    raises: it returns no groups at all. *)
Lemma semantic_search_all_grouped_counterexample :
  semantic_search_all Demo.encode Demo.tie_order Demo.tool_d1_empty (lit "b") 0 = None
  ∧ semantic_search_all Demo.encode Demo.tie_order Demo.tool_d1_empty (lit "b") (2 ^ 31)
    = None.
Proof. split; reflexivity. Qed.

(** ** Deleting a document *)

Section Deletion.

Variable encode : pystr → Embedding.
Variable md5_hexdigest : pystr → pystr.
Variable file_of : pystr → pystr.
Variable tie_order :
  Collection → Embedding → Z → option (pystr * meta_value) → pystr → Z.

(** C7, as the code has it: for a registered doc_id, [delete_document]
    succeeds, removes the registry entry and the stored content, and the
    count of the vector index goes down by the chunks_deleted it reports.
    In the states reached by adding documents without a doc_id key in
    their metadata, and by deleting documents, chunks_deleted is the
    number of chunks of the document, all of which the index held, and none
    of them is left.  Afterwards, for a doc_id that is not the empty
    string, every search filtered on it returns no result, for a number of
    results the index accepts; for any other number it raises. *)
Theorem delete_document_cascade (st : Tool) (doc_id : pystr) (info : DocInfo) :
  index st !! doc_id = Some info →
  ∃ (chunks_deleted : nat) (st' : Tool),
    delete_document file_of st doc_id
    = (DeleteDone true doc_id (di_title info) chunks_deleted
         (lit "Document '" ++ di_title info ++ lit "' deleted successfully"), st')
    ∧ index st' !! doc_id = None
    ∧ files st' !! file_of doc_id = None
    ∧ (collection_count (collection st') + chunks_deleted
       = collection_count (collection st))%nat
    ∧ (reachable_by encode md5_hexdigest file_of
         (λ _ m, m !! lit "doc_id" = None) st →
       chunks_deleted = chunk_count info
       ∧ (∀ i, (i < chunk_count info)%nat →
            is_Some (collection st !! (doc_id ++ lit "_" ++ str_of_nat i)))
       ∧ (∀ i, collection st' !! (doc_id ++ lit "_" ++ str_of_nat i) = None))
    ∧ (doc_id ≠ [] → ∀ query top_k,
         search_documents encode tie_order st' query top_k (Some doc_id)
         = if accepted_results top_k
           then Some (mkSearchResult true query 0
                        (collection_count (collection st')) [])
           else None).
Proof.
  intros Hin. rewrite (delete_document_registered _ _ _ info) by done.
  eexists _, _. split; [reflexivity|]. cbn [index files collection].
  split; [apply lookup_delete_eq|]. split; [apply lookup_delete_eq|].
  split; [apply size_held_split|]. split.
  - intros Hreach. apply reachable_chunks_in_place in Hreach.
    split; [by apply size_held_for_chunks|]. split.
    + intros i Hi. destruct Hreach as [_ Hall]. by eapply Hall.
    + intros i.
      destruct (held_for_others doc_id (collection st)
                  !! (doc_id ++ lit "_" ++ str_of_nat i)) as [e|] eqn:He; [|done].
      apply map_lookup_filter_Some in He as [He Hn]. cbn [fst snd] in Hn.
      destruct Hreach as [Hplace _].
      destruct (Hplace _ _ He) as (d & info' & i' & _ & _ & Hk & Hm).
      apply chunk_name_inj in Hk as [<- _]. done.
  - intros Hne query top_k. rewrite search_documents_unfold.
    destruct (accepted_results top_k); [|done].
    assert (ranked_rows encode tie_order
              (mkTool (delete doc_id (index st)) (delete (file_of doc_id) (files st))
                 (held_for_others doc_id (collection st)))
              query top_k (Some doc_id) = []) as ->.
    { apply Permutation_nil_r. rewrite ranked_rows_perm. cbn [collection].
      destruct doc_id as [|ch f]; [done|]. cbn [doc_where].
      unfold collection_matching.
      by rewrite matching_doc_id, held_for_others_none, map_to_list_empty. }
    by rewrite take_nil.
Qed.

End Deletion.

Lemma delete_document_cascade_witness :
  ∃ (chunks_deleted : nat) (st' : Tool),
    delete_document Demo.file_of Demo.tool_d1_empty (lit "d1")
    = (DeleteDone true (lit "d1") (lit "T") chunks_deleted
         (lit "Document '" ++ lit "T" ++ lit "' deleted successfully"), st')
    ∧ index st' !! lit "d1" = None
    ∧ files st' !! Demo.file_of (lit "d1") = None
    ∧ (collection_count (collection st') + chunks_deleted
       = collection_count (collection Demo.tool_d1_empty))%nat
    ∧ (chunks_deleted = 1%nat
       ∧ (∀ i, (i < 1)%nat →
            is_Some (collection Demo.tool_d1_empty
                       !! (lit "d1" ++ lit "_" ++ str_of_nat i)))
       ∧ (∀ i, collection st' !! (lit "d1" ++ lit "_" ++ str_of_nat i) = None))
    ∧ (lit "d1" ≠ [] → ∀ query top_k,
         search_documents Demo.encode Demo.tie_order st' query top_k (Some (lit "d1"))
         = if accepted_results top_k
           then Some (mkSearchResult true query 0
                        (collection_count (collection st')) [])
           else None).
Proof.
  assert (index Demo.tool_d1_empty !! lit "d1"
          = Some (mkDocInfo (lit "d1") (lit "T") ∅ Demo.now 1 6 2)) as H
    by (vm_compute; reflexivity).
  destruct (delete_document_cascade Demo.encode Demo.md5_hexdigest Demo.file_of
              Demo.tie_order Demo.tool_d1_empty (lit "d1") _ H)
    as (n & st' & Hrun & Hidx & Hfile & Hcount & Hplain & Hsearch).
  exists n, st'. split; [exact Hrun|]. split; [exact Hidx|]. split; [exact Hfile|].
  split; [exact Hcount|]. split; [|exact Hsearch].
  apply Hplain. apply reachable_by_add; [done|]. apply reachable_by_add; [done|].
  apply reachable_by_empty.
Defined.

(** C7 as stated fails in three places.  For the empty doc_id:
    [search_documents] takes an empty [doc_filter] for no filter, so after
    the document registered under the empty doc_id is deleted, the search
    filtered on it still returns the chunk of d1.  For a number of results
    the index refuses, the search after the deletion raises.  And for d2,
    added with a doc_id key of the caller in its metadata: the registry
    counts one chunk, the deletion reports none deleted, and the count of
    the index stays at one, with the chunk of d2 still there. *)
Lemma delete_document_cascade_counterexample :
  (∃ info r st' sr,
     index Demo.tool_d1_empty !! [] = Some info
     ∧ delete_document Demo.file_of Demo.tool_d1_empty [] = (r, st')
     ∧ search_documents Demo.encode Demo.tie_order st' (lit "b?") 5 (Some []) = Some sr
     ∧ results sr ≠ [])
  ∧ (∃ info r st',
       index Demo.tool_d1 !! lit "d1" = Some info
       ∧ delete_document Demo.file_of Demo.tool_d1 (lit "d1") = (r, st')
       ∧ search_documents Demo.encode Demo.tie_order st' (lit "b?") 0 (Some (lit "d1"))
         = None)
  ∧ (∃ info st',
       index Demo.tool_d2_foreign !! lit "d2" = Some info
       ∧ chunk_count info = 1%nat
       ∧ collection_count (collection Demo.tool_d2_foreign) = 1%nat
       ∧ delete_document Demo.file_of Demo.tool_d2_foreign (lit "d2")
         = (DeleteDone true (lit "d2") (lit "T") 0
              (lit "Document 'T' deleted successfully"), st')
       ∧ collection_count (collection st') = 1%nat
       ∧ is_Some (collection st' !! lit "d2_0")).
Proof.
  split; [|split].
  - eexists _, _, _, _. split; [vm_compute; reflexivity|].
    split; [reflexivity|]. split; [vm_compute; reflexivity|]. discriminate.
  - eexists _, _, _. split; [vm_compute; reflexivity|].
    split; [reflexivity|]. reflexivity.
  - eexists _, _. split; [vm_compute; reflexivity|]. split; [reflexivity|].
    split; [vm_compute; reflexivity|]. split; [vm_compute; reflexivity|].
    split; [vm_compute; reflexivity|]. eexists. vm_compute. reflexivity.
Qed.

(** ** Reading a file back *)





Section LibraryProperties.

Variable encode : pystr → Embedding.
Variable md5_hexdigest : pystr → pystr.
Variable generate : pystr → pystr + pystr.
Variable file_of : pystr → pystr.
Variable tie_order :
  Collection → Embedding → Z → option (pystr * meta_value) → pystr → Z.


(** X2: content addressing: two calls of [add_document] without a doc_id
    and with the same content derive the same doc_id, and the second call
    is rejected as a duplicate and changes nothing, whatever the titles and
    the metadata are. *)
Theorem add_document_content_addressed
    (st : Tool) (content title1 title2 : pystr) (metadata1 metadata2 : option Metadata)
    (now1 now2 : pystr) :
  let first := add_document encode md5_hexdigest file_of st content title1 metadata1 None now1 in
  let second :=
    add_document encode md5_hexdigest file_of first.2 content title2 metadata2 None now2 in
  second
  = (AddExisting false (_generate_doc_id md5_hexdigest content)
       (lit "Document already exists") true, first.2)
  ∧ (∃ info, index first.2 !! _generate_doc_id md5_hexdigest content = Some info).
Proof.
  intros first second. subst second first.
  destruct (index st !! _generate_doc_id md5_hexdigest content) as [info|] eqn:Hid.
  - rewrite (add_document_registered _ _ _ st _ _ _ None _ info) by done.
    cbn [snd]. rewrite (add_document_registered _ _ _ st _ _ _ None _ info) by done.
    split; [done|]. by exists info.
  - rewrite (add_document_fresh _ _ _ st _ _ _ None) by done. cbn [snd].
    split.
    + erewrite (add_document_registered _ _ _ _ _ _ _ None); [done|].
      cbn [index]. apply lookup_insert_eq.
    + eexists. cbn [index]. apply lookup_insert_eq.
Qed.


(** X4: in every state a tool can reach, a search for a number of results
    the index accepts (from 1 to 2^32 - 1) returns: no entry of the
    collection lacks the metadata keys the search reads. *)
Theorem search_documents_returns
    (st : Tool) (query : pystr) (top_k : Z) (doc_filter : option pystr) :
  reachable encode md5_hexdigest file_of st →
  0 < top_k < 2 ^ 32 →
  ∃ sr, search_documents encode tie_order st query top_k doc_filter = Some sr.
Proof.
  intros Hreach Hk. apply reachable_keyed in Hreach.
  destruct (search_documents_keyed encode tie_order st query top_k doc_filter)
    as (hits & -> & _); [done|done|]. by eexists.
Qed.

(** X5: the results of a search are ranked: there are at most [top_k] of
    them, as many as results_count says, in order of descending similarity,
    no chunk twice, and total_searched is the count of the collection. *)
Theorem search_documents_ranked
    (st : Tool) (query : pystr) (top_k : Z) (doc_filter : option pystr)
    (sr : SearchResult) :
  search_documents encode tie_order st query top_k doc_filter = Some sr →
  sr_success sr = true
  ∧ results_count sr = length (results sr)
  ∧ Z.of_nat (length (results sr)) ≤ top_k
  ∧ StronglySorted desc_hits (results sr)
  ∧ NoDup (map hit_chunk_id (results sr))
  ∧ total_searched sr = collection_count (collection st).
Proof.
  rewrite search_documents_unfold.
  destruct (accepted_results top_k) eqn:Hle; [|done].
  apply accepted_results_spec in Hle.
  destruct (mapM format_row _) as [hits|] eqn:Hm; [|done].
  cbn [mbind option_bind]. intros [= <-]. cbn [sr_success results_count results total_searched].
  pose proof (length_mapM _ _ _ Hm) as Hlen. rewrite length_take in Hlen.
  apply mapM_Some in Hm.
  split; [done|]. split; [done|]. split; [lia|]. split; [|split; [|done]].
  - eapply (StronglySorted_Forall2 _ (λ a b : Row, (a.2 <= b.2)%Q)); [|exact Hm|].
    + intros a b x y Ha Hb Hab. unfold desc_hits.
      apply format_row_Some in Ha as (_ & _ & -> & _).
      apply format_row_Some in Hb as (_ & _ & -> & _).
      lra.
    + apply StronglySorted_take, ranked_rows_sorted.
  - assert (map hit_chunk_id hits
            = map (λ r : Row, r.1.1)
                (take (Z.to_nat top_k) (ranked_rows encode tie_order st query top_k doc_filter)))
      as ->.
    { clear Hlen. induction Hm as [|r h rows hits' Hr _ IH]; [done|].
      cbn [map]. rewrite IH. f_equal. by apply format_row_Some in Hr as [-> _]. }
    pose proof (ranked_rows_NoDup encode tie_order st query top_k doc_filter) as Hnd.
    rewrite <- (take_drop (Z.to_nat top_k) (ranked_rows encode tie_order st query top_k doc_filter)),
      map_app in Hnd.
    by apply NoDup_app in Hnd as [Hnd _].
Qed.

(** X6: every result of a search is an entry of the collection: its text
    is the stored text of the chunk with its id, its doc_id and doc_title
    are the values of the metadata of that chunk, and, when the search is
    given a doc_filter that is not empty, its doc_id is the doc_filter. *)
Theorem search_documents_hits
    (st : Tool) (query : pystr) (top_k : Z) (doc_filter : option pystr)
    (sr : SearchResult) (h : Hit) :
  search_documents encode tie_order st query top_k doc_filter = Some sr →
  h ∈ results sr →
  (∃ e, collection st !! hit_chunk_id h = Some e
        ∧ hit_text h = document e
        ∧ similarity h = (1 - l2 (encode query) (embedding e))%Q
        ∧ metadata e !! lit "doc_id" = Some (hit_doc_id h)
        ∧ metadata e !! lit "title" = Some (doc_title h))
  ∧ (∀ c f, doc_filter = Some (c :: f) → hit_doc_id h = MStr (c :: f)).
Proof.
  rewrite search_documents_unfold.
  destruct (accepted_results top_k) eqn:Hle; [|done].
  destruct (mapM format_row _) as [hits|] eqn:Hm; [|done].
  cbn [mbind option_bind]. intros [= <-]. cbn [results]. intros Hh.
  apply mapM_Some in Hm.
  apply list_elem_of_lookup in Hh as [i Hi].
  destruct (Forall2_lookup_r _ _ _ _ _ Hm Hi) as (r & Hr & Hfmt).
  apply format_row_Some in Hfmt as (Hid & Htext & Hsim & Hdoc & Htitle).
  assert (r ∈ ranked_rows encode tie_order st query top_k doc_filter) as Hin.
  { apply list_elem_of_lookup_2 in Hr.
    rewrite <- (take_drop (Z.to_nat top_k) (ranked_rows encode tie_order st query top_k doc_filter)).
    apply elem_of_app. by left. }
  pose proof Hin as Hdist.
  apply ranked_rows_entries in Hin as [Hin Hmatch].
  split.
  - exists r.1.2. rewrite Hid. repeat split; try done.
    rewrite Hsim. unfold ranked_rows in Hdist. rewrite sort_by_perm in Hdist.
    apply list_elem_of_fmap in Hdist as (ie & -> & _). done.
  - intros c f ->. cbn [doc_where where_match] in Hmatch.
    apply bool_decide_eq_true in Hmatch.
    rewrite Hmatch in Hdoc. by injection Hdoc as <-.
Qed.

(** X8: a deleted document is gone for every operation: after a successful
    [delete_document], [get_document], [query_document] and a second
    [delete_document] of the same doc_id all answer that the document was
    not found, and the second deletion leaves the state as it is. *)
Theorem delete_document_then_not_found
    (st : Tool) (doc_id question : pystr) (info : DocInfo) :
  index st !! doc_id = Some info →
  let st' := (delete_document file_of st doc_id).2 in
  let not_found := lit "Document " ++ doc_id ++ lit " not found" in
  delete_document file_of st' doc_id = (DeleteFailed false not_found, st')
  ∧ get_document file_of st' doc_id = GetFailed false not_found
  ∧ query_document encode generate tie_order st' doc_id question
    = Some (QueryFailed false not_found).
Proof.
  intros Hin st' not_found.
  assert (index st' !! doc_id = None) as Hgone.
  { subst st'. rewrite (delete_document_registered _ _ _ info) by done.
    apply lookup_delete_eq. }
  split; [by apply delete_document_unregistered|].
  unfold get_document, query_document. by rewrite Hgone.
Qed.

(** X9: deleting a document right after adding it gives back the state
    before the call, and reports as many chunks deleted as were created,
    provided the doc_id was new (no registry entry, no file, no entry of the
    collection under its chunk ids or naming it) and the metadata given
    has no doc_id key. *)
Theorem delete_document_undoes_add
    (st : Tool) (content title : pystr) (metadata_ : option Metadata)
    (doc_id : option pystr) (now : pystr) :
  let id := match doc_id with
            | None => _generate_doc_id md5_hexdigest content
            | Some d => d
            end in
  let chunks := _chunk_text content default_chunk_size default_overlap in
  index st !! id = None →
  files st !! file_of id = None →
  held_for id (collection st) = ∅ →
  (∀ chunk, chunk ∈ chunks → collection st !! chunk_key id chunk = None) →
  default ∅ metadata_ !! lit "doc_id" = None →
  delete_document file_of
    (add_document encode md5_hexdigest file_of st content title metadata_ doc_id now).2 id
  = (DeleteDone true id title (length chunks)
       (lit "Document '" ++ title ++ lit "' deleted successfully"), st).
Proof.
  intros id chunks Hidx Hfile Hheld Hfresh Hmd.
  rewrite add_document_fresh by done. fold id chunks. cbn [snd].
  set (l := map (λ c, (chunk_key id c,
                       (encode (text c), (text c, chunk_metadata id title metadata_ c))))
                chunks).
  set (added := foldl add_entry (collection st) l).
  assert (∀ k x, (list_to_map l : gmap pystr _) !! k = Some x →
                 collection st !! k = None
                 ∧ metadata (mkEntry x.1 x.2.1 x.2.2) !! lit "doc_id" = Some (MStr id))
    as Hnew.
  { intros k x Hk. apply elem_of_list_to_map_2 in Hk.
    apply list_elem_of_fmap in Hk as (c & [= -> ->] & Hc). split; [by apply Hfresh|].
    cbn [metadata fst snd]. unfold chunk_metadata, dict_update.
    by rewrite lookup_union, Hmd. }
  assert (∀ k e, collection st !! k = Some e →
                 metadata e !! lit "doc_id" ≠ Some (MStr id)) as Hold.
  { intros k e Hk He.
    assert (held_for id (collection st) !! k = Some e) as Hin
      by by apply map_lookup_filter_Some.
    by rewrite Hheld, lookup_empty in Hin. }
  assert (held_for_others id added = collection st) as Hothers.
  { apply map_eq. intros k. apply option_eq. intros e.
    unfold held_for_others. rewrite map_lookup_filter_Some. subst added.
    rewrite add_entries_lookup. cbn. split.
    - intros [He Hn]. destruct (collection st !! k) as [en|]; [done|].
      apply fmap_Some in He as (x & Hx & ->). by destruct (Hnew _ _ Hx).
    - intros He. rewrite He. split; [done|]. by eapply Hold. }
  assert (size (held_for id added) = length chunks) as Hsize.
  { pose proof (size_held_split id added) as Hsplit. rewrite Hothers in Hsplit.
    assert (size added = (size (collection st) + length chunks)%nat) as Hadded; [|lia].
    assert (added
            = collection st
              ∪ ((λ x : Embedding * (pystr * Metadata), mkEntry x.1 x.2.1 x.2.2)
                   <$> (list_to_map l : gmap pystr _))) as ->.
    { apply map_eq. intros k. subst added.
      rewrite add_entries_lookup, lookup_union, lookup_fmap.
      by destruct (collection st !! k), (_ <$> _). }
    rewrite map_size_disj_union.
    - rewrite map_size_fmap, map_size_list_to_map.
      + subst l. by rewrite length_map.
      + subst l. rewrite <- list_fmap_compose. apply chunk_keys_NoDup.
    - apply map_disjoint_spec. intros k e e' He He'.
      rewrite lookup_fmap in He'. apply fmap_Some in He' as (x & Hx & _).
      destruct (Hnew _ _ Hx) as [Hk _]. congruence. }
  erewrite delete_document_registered; [|cbn [index]; apply lookup_insert_eq].
  cbn [index files collection di_title]. rewrite Hsize, Hothers.
  rewrite !delete_insert_eq, !delete_id by done. by destruct st.
Qed.

(** X10: when the metadata given to [add_document] carries a doc_id of its
    own, other than the doc_id of the document, [delete_document] removes
    the document from the registry and its file, but leaves its chunks in
    the collection. *)
Theorem delete_document_leaves_foreign_chunks
    (st : Tool) (content title : pystr) (metadata_ : option Metadata)
    (doc_id : option pystr) (now : pystr) (v : meta_value) (chunk : Chunk) :
  let id := match doc_id with
            | None => _generate_doc_id md5_hexdigest content
            | Some d => d
            end in
  let st' :=
    (delete_document file_of
       (add_document encode md5_hexdigest file_of st content title metadata_ doc_id now).2
       id).2 in
  index st !! id = None →
  default ∅ metadata_ !! lit "doc_id" = Some v →
  v ≠ MStr id →
  chunk ∈ _chunk_text content default_chunk_size default_overlap →
  collection st !! chunk_key id chunk = None →
  index st' !! id = None
  ∧ files st' !! file_of id = None
  ∧ collection st' !! chunk_key id chunk
    = Some (mkEntry (encode (text chunk)) (text chunk)
              (chunk_metadata id title metadata_ chunk)).
Proof.
  intros id st' Hidx Hmd Hv Hin Hfresh. subst st'.
  rewrite add_document_fresh by done. fold id. cbn [snd].
  erewrite delete_document_registered; [|cbn [index]; apply lookup_insert_eq].
  cbn [snd index files collection].
  split; [apply lookup_delete_eq|]. split; [apply lookup_delete_eq|].
  apply map_lookup_filter_Some. split.
  - apply add_entries_fresh; [| |done].
    + rewrite <- list_fmap_compose. apply chunk_keys_NoDup.
    + by apply (list_elem_of_fmap_2
                  (λ c, (chunk_key id c,
                         (encode (text c),
                          (text c, chunk_metadata id title metadata_ c)))) _ chunk).
  - cbn [metadata fst snd]. unfold chunk_metadata, dict_update.
    rewrite lookup_union, Hmd.
    destruct (provenance id title chunk !! lit "doc_id"); cbn; congruence.
Qed.


(** X12: the sources of an answer: when [query_document] succeeds, the
    document is registered and the sources are between one and three
    chunks, in order of descending similarity; for a doc_id that is not
    empty they all carry that doc_id. *)
Theorem query_document_sources
    (st : Tool) (doc_id question : pystr) (r : QueryResult) :
  query_document encode generate tie_order st doc_id question = Some r →
  query_success r = true →
  ∃ sources,
    query_sources r = Some sources
    ∧ is_Some (index st !! doc_id)
    ∧ (1 ≤ length sources ≤ 3)%nat
    ∧ StronglySorted desc_hits sources
    ∧ (doc_id ≠ [] → Forall (λ h, hit_doc_id h = MStr doc_id) sources).
Proof.
  unfold query_document. destruct (index st !! doc_id) as [info|] eqn:Hin.
  2:{ by intros [= <-]. }
  destruct (search_documents encode tie_order st question 3 (Some doc_id)) as [sr|] eqn:Hs;
    [|done].
  cbn [mbind option_bind].
  destruct (results sr) as [|h hs] eqn:Hres; [by intros [= <-]|].
  intros [= <-] _. exists (h :: hs). cbn [query_sources]. split; [done|].
  split; [done|]. rewrite <- Hres.
  assert (1 ≤ length (results sr))%nat as Hpos by (rewrite Hres; simpl; lia).
  clear Hres.
  pose proof Hs as Hs'. rewrite search_documents_unfold in Hs'.
  change (accepted_results 3) with true in Hs'.
  destruct (mapM format_row _) as [hits|] eqn:Hm; [|done].
  cbn [mbind option_bind] in Hs'. injection Hs' as <-. cbn [results] in *.
  pose proof (length_mapM _ _ _ Hm) as Hlen. rewrite length_take in Hlen.
  apply mapM_Some in Hm.
  split; [lia|]. split.
  - eapply (StronglySorted_Forall2 _ (λ a b : Row, (a.2 <= b.2)%Q)); [|exact Hm|].
    + intros a b x y Ha Hb Hab. unfold desc_hits.
      apply format_row_Some in Ha as (_ & _ & -> & _).
      apply format_row_Some in Hb as (_ & _ & -> & _).
      lra.
    + apply StronglySorted_take, ranked_rows_sorted.
  - intros Hne. destruct doc_id as [|c f]; [done|].
    apply Forall_forall. intros x Hx.
    apply list_elem_of_lookup in Hx as [i Hi].
    destruct (Forall2_lookup_r _ _ _ _ _ Hm Hi) as (row & Hrow & Hfmt).
    apply format_row_Some in Hfmt as (_ & _ & _ & Hdoc & _).
    apply list_elem_of_lookup_2 in Hrow.
    assert (row ∈ ranked_rows encode tie_order st question 3 (Some (c :: f))) as Hrr.
    { rewrite <- (take_drop (Z.to_nat 3) (ranked_rows _ _ _ _ _ _)).
      apply elem_of_app. by left. }
    apply ranked_rows_entries in Hrr as [_ Hmatch].
    cbn [doc_where where_match] in Hmatch. apply bool_decide_eq_true in Hmatch.
    rewrite Hmatch in Hdoc. by injection Hdoc as <-.
Qed.

End LibraryProperties.



Lemma search_documents_returns_witness :
  ∃ sr, search_documents Demo.encode Demo.tie_order Demo.tool_d1_empty (lit "b?") 5 None = Some sr.
Proof.
  apply (search_documents_returns Demo.encode Demo.md5_hexdigest Demo.file_of
           Demo.tie_order Demo.tool_d1_empty (lit "b?") 5 None).
  - apply reachable_add, reachable_add, reachable_empty.
  - split; reflexivity.
Defined.

Lemma search_documents_ranked_witness :
  let sr := mkSearchResult true (lit "b?") 1 1
              [mkHit (lit "d1_0") (MStr (lit "d1")) (lit "a text") (1 - 2)%Q
                 (MStr (lit "T"))] in
  sr_success sr = true
  ∧ results_count sr = length (results sr)
  ∧ Z.of_nat (length (results sr)) ≤ 5
  ∧ StronglySorted desc_hits (results sr)
  ∧ NoDup (map hit_chunk_id (results sr))
  ∧ total_searched sr = collection_count (collection Demo.tool_d1).
Proof.
  intros sr.
  apply (search_documents_ranked Demo.encode Demo.tie_order Demo.tool_d1
           (lit "b?") 5 None sr).
  vm_compute. reflexivity.
Defined.

Lemma search_documents_hits_witness :
  let h := mkHit (lit "d1_0") (MStr (lit "d1")) (lit "a text") (1 - 2)%Q
             (MStr (lit "T")) in
  (∃ e, collection Demo.tool_d1_empty !! hit_chunk_id h = Some e
        ∧ hit_text h = document e
        ∧ similarity h = (1 - l2 (Demo.encode (lit "b?")) (embedding e))%Q
        ∧ metadata e !! lit "doc_id" = Some (hit_doc_id h)
        ∧ metadata e !! lit "title" = Some (doc_title h))
  ∧ (∀ c f, Some (lit "d1") = Some (c :: f) → hit_doc_id h = MStr (c :: f)).
Proof.
  intros h.
  apply (search_documents_hits Demo.encode Demo.tie_order Demo.tool_d1_empty (lit "b?") 5
           (Some (lit "d1")) (mkSearchResult true (lit "b?") 1 2 [h]) h).
  - vm_compute. reflexivity.
  - left.
Defined.

Lemma delete_document_then_not_found_witness :
  let st' := (delete_document Demo.file_of Demo.tool_d1 (lit "d1")).2 in
  delete_document Demo.file_of st' (lit "d1")
  = (DeleteFailed false (lit "Document d1 not found"), st')
  ∧ get_document Demo.file_of st' (lit "d1")
    = GetFailed false (lit "Document d1 not found")
  ∧ query_document Demo.encode Demo.generate_fails Demo.tie_order st' (lit "d1") (lit "b?")
    = Some (QueryFailed false (lit "Document d1 not found")).
Proof.
  apply (delete_document_then_not_found Demo.encode Demo.generate_fails
           Demo.file_of Demo.tie_order Demo.tool_d1 (lit "d1") (lit "b?")
           (mkDocInfo (lit "d1") (lit "T") ∅ Demo.now 1 6 2)).
  vm_compute. reflexivity.
Defined.

Lemma delete_document_undoes_add_witness :
  delete_document Demo.file_of Demo.tool_d1 (lit "d1")
  = (DeleteDone true (lit "d1") (lit "T") 1
       (lit "Document 'T' deleted successfully"), Demo.empty_tool).
Proof.
  apply (delete_document_undoes_add Demo.encode Demo.md5_hexdigest Demo.file_of
           Demo.empty_tool
           (lit "a text") (lit "T") None (Some (lit "d1")) Demo.now).
  - reflexivity.
  - reflexivity.
  - vm_compute. reflexivity.
  - intros chunk _. apply lookup_empty.
  - reflexivity.
Defined.

Lemma delete_document_leaves_foreign_chunks_witness :
  let st' := (delete_document Demo.file_of Demo.tool_d2_foreign (lit "d2")).2 in
  let chunk := mkChunk 0 (lit "a text") 8 in
  index st' !! lit "d2" = None
  ∧ files st' !! Demo.file_of (lit "d2") = None
  ∧ collection st' !! lit "d2_0"
    = Some (mkEntry (Demo.encode (lit "a text")) (lit "a text")
              (chunk_metadata (lit "d2") (lit "T")
                 (Some {[ lit "doc_id" := MStr (lit "zz") ]}) chunk)).
Proof.
  intros st' chunk.
  apply (delete_document_leaves_foreign_chunks Demo.encode Demo.md5_hexdigest
           Demo.file_of Demo.empty_tool (lit "a text") (lit "T")
           (Some {[ lit "doc_id" := MStr (lit "zz") ]}) (Some (lit "d2")) Demo.now
           (MStr (lit "zz")) chunk).
  - reflexivity.
  - vm_compute. reflexivity.
  - discriminate.
  - vm_compute. left.
  - reflexivity.
Defined.


Lemma query_document_sources_witness :
  ∃ r sources,
    query_document Demo.encode Demo.generate_fails Demo.tie_order Demo.tool_d1 (lit "d1") (lit "b?")
    = Some r
    ∧ query_sources r = Some sources
    ∧ is_Some (index Demo.tool_d1 !! lit "d1")
    ∧ (1 ≤ length sources ≤ 3)%nat
    ∧ StronglySorted desc_hits sources
    ∧ (lit "d1" ≠ [] → Forall (λ h, hit_doc_id h = MStr (lit "d1")) sources).
Proof.
  assert (∃ r, query_document Demo.encode Demo.generate_fails Demo.tie_order Demo.tool_d1
                 (lit "d1") (lit "b?") = Some r ∧ query_success r = true)
    as (r & Hr & Hs).
  { eexists. split; vm_compute; reflexivity. }
  destruct (query_document_sources Demo.encode Demo.generate_fails Demo.tie_order
              Demo.tool_d1
              (lit "d1") (lit "b?") r Hr Hs) as (sources & H).
  exists r, sources. split; [exact Hr|exact H].
Defined.

(** ** Cleaning an extracted text *)

Section CleanFacts.

Implicit Types (s t : pystr) (c : ascii) (ls : list pystr).

Abbreviation LF := "010"%char.
Abbreviation SP := " "%char.

Lemma split_ws_go_sep s t c cur :
  isspace c = true →
  split_ws_go (s ++ c :: t) cur = split_ws_go s cur ++ split_ws t.
Proof.
  intros Hc. revert cur. induction s as [|d s IH]; intros cur; simpl.
  - rewrite Hc. by destruct cur.
  - destruct (isspace d); [destruct cur|]; by rewrite IH.
Qed.

Lemma split_ws_join_lines ls :
  split_ws (join nl ls) = concat (map split_ws ls).
Proof.
  induction ls as [|p ls IH]; [done|].
  destruct ls as [|q ls]; [simpl; by rewrite app_nil_r|].
  change (join nl (p :: q :: ls)) with (p ++ LF :: join nl (q :: ls)).
  unfold split_ws at 1. rewrite split_ws_go_sep by done.
  change (concat (map split_ws (p :: q :: ls)))
    with (split_ws p ++ concat (map split_ws (q :: ls))).
  by rewrite <- IH.
Qed.

Lemma join_split_lines s : join nl (split nl s) = s.
Proof. unfold split. by rewrite join_split_go. Qed.

(** The pieces of a split at line feeds hold no line feed. *)
Lemma split_go_lines s cur :
  LF ∉ cur → Forall (λ l, LF ∉ l) (split_go nl s 0 cur).
Proof.
  revert cur. induction s as [|c s IH]; intros cur Hcur; simpl.
  - constructor; [|constructor]. by rewrite elem_of_reverse.
  - destruct (decide (LF = c)) as [<-|Hne].
    + constructor; [by rewrite elem_of_reverse|]. apply IH. apply not_elem_of_nil.
    + apply IH. rewrite elem_of_cons. intros [?|?]; [by subst|done].
Qed.

Lemma split_lines_free s : Forall (λ l, LF ∉ l) (split nl s).
Proof. apply split_go_lines, not_elem_of_nil. Qed.

Lemma split_go_feed t cur :
  split_go nl (LF :: t) 0 cur = reverse cur :: split_go nl t 0 [].
Proof. reflexivity. Qed.

Lemma split_go_other c t cur :
  c ≠ LF → split_go nl (c :: t) 0 cur = split_go nl t 0 (c :: cur).
Proof.
  intros Hc. cbn [split_go startswith nl].
  destruct (decide (LF = c)) as [<-|_]; done.
Qed.

Lemma split_go_line l t cur :
  LF ∉ l →
  split_go nl (l ++ t) 0 cur = split_go nl t 0 (reverse l ++ cur).
Proof.
  revert cur. induction l as [|c l IH]; intros cur Hl; [done|].
  cbn [app]. rewrite split_go_other.
  - rewrite IH, reverse_cons, <- app_assoc; [done|].
    intros Hin. apply Hl. by right.
  - intros ->. apply Hl. left.
Qed.

Lemma split_go_join_lines l ls cur :
  LF ∉ l → Forall (λ l, LF ∉ l) ls →
  split_go nl (join nl (l :: ls)) 0 cur = (reverse cur ++ l) :: ls.
Proof.
  intros Hl Hls. revert l cur Hl. induction Hls as [|m ls Hm Hls IH]; intros l cur Hl.
  - cbn [join]. rewrite <- (app_nil_r l) at 1. rewrite split_go_line by done.
    cbn [split_go]. by rewrite reverse_app, reverse_involutive.
  - change (join nl (l :: m :: ls)) with (l ++ LF :: join nl (m :: ls)).
    rewrite split_go_line, split_go_feed, IH by done.
    by rewrite reverse_app, reverse_involutive.
Qed.

Lemma split_join_lines ls :
  ls ≠ [] → Forall (λ l, LF ∉ l) ls → split nl (join nl ls) = ls.
Proof.
  destruct ls as [|l ls]; [done|]. intros _ Hls.
  apply Forall_cons in Hls as [Hl Hls]. unfold split.
  by rewrite split_go_join_lines.
Qed.

Lemma lstrip_elem c s : c ∈ lstrip s → c ∈ s.
Proof.
  induction s as [|d s IH]; simpl; [done|].
  destruct (isspace d); [|done]. intros H. right. by apply IH.
Qed.

Lemma strip_elem c s : c ∈ strip s → c ∈ s.
Proof.
  unfold strip, rstrip. intros H. apply lstrip_elem in H.
  rewrite elem_of_reverse in H. apply lstrip_elem in H.
  by rewrite elem_of_reverse in H.
Qed.

Lemma strip_nil_or_clean s : strip s = [] ∨ clean_edges (strip s).
Proof.
  destruct (strip s) as [|c u] eqn:Hs; [by left|right].
  assert (lstrip (c :: u) = c :: u) as Hl.
  { rewrite <- Hs. unfold strip. apply lstrip_lstrip. }
  assert (rstrip (c :: u) = c :: u) as Hr.
  { rewrite <- Hs. unfold strip. by rewrite rstrip_lstrip, rstrip_rstrip. }
  split.
  - exists c, u. split; [done|]. simpl in Hl.
    destruct (isspace c) eqn:Hc; [|done].
    pose proof (lstrip_decompose u) as (t & _ & Ht).
    apply (f_equal length) in Hl. rewrite Ht in Hl at 2.
    rewrite length_cons, length_app in Hl. lia.
  - destruct (reverse (c :: u)) as [|d v] eqn:Hrev.
    { apply (f_equal reverse) in Hrev. by rewrite reverse_involutive in Hrev. }
    exists (reverse v), d.
    assert (c :: u = reverse v ++ [d]) as Hcu.
    { apply (f_equal reverse) in Hrev. rewrite reverse_involutive in Hrev.
      by rewrite Hrev, reverse_cons. }
    split; [done|]. unfold rstrip in Hr. rewrite Hrev in Hr. simpl in Hr.
    destruct (isspace d) eqn:Hd; [|done].
    pose proof (lstrip_decompose v) as (t & _ & Ht).
    apply (f_equal length) in Hr. rewrite length_reverse in Hr.
    rewrite Hcu, length_app, length_reverse in Hr. rewrite Ht in Hr at 2.
    rewrite length_app in Hr. simpl in Hr. lia.
Qed.

Lemma strip_clean s : clean_edges s → strip s = s.
Proof.
  intros H. rewrite <- (app_nil_r s) at 1. rewrite strip_clean_app by done.
  by rewrite app_nil_r.
Qed.

End CleanFacts.

Section CollapseFacts.

Implicit Types (s t : pystr) (c : ascii) (ls : list pystr).

Lemma collapse_spaces_go_feed b s t :
  collapse_spaces_go b (s ++ "010"%char :: t)
  = collapse_spaces_go b s ++ "010"%char :: collapse_spaces t.
Proof.
  revert b. induction s as [|c s IH]; intros b; [done|].
  cbn [app collapse_spaces_go]. destruct (decide (c = " "%char)); [destruct b|];
    by rewrite IH.
Qed.

Lemma collapse_spaces_join ls :
  collapse_spaces (join nl ls) = join nl (map collapse_spaces ls).
Proof.
  induction ls as [|l ls IH]; [done|]. destruct ls as [|m ls]; [done|].
  change (join nl (l :: m :: ls)) with (l ++ "010"%char :: join nl (m :: ls)).
  unfold collapse_spaces at 1. rewrite collapse_spaces_go_feed, IH. done.
Qed.

Lemma collapse_spaces_go_last b s c :
  c ≠ " "%char → collapse_spaces_go b (s ++ [c]) = collapse_spaces_go b s ++ [c].
Proof.
  intros Hc. revert b. induction s as [|d s IH]; intros b.
  - simpl. by rewrite decide_False.
  - cbn [app collapse_spaces_go]. destruct (decide (d = " "%char)); [destruct b|];
      by rewrite IH.
Qed.

Lemma collapse_spaces_go_elem b c s : c ∈ collapse_spaces_go b s → c ∈ s.
Proof.
  revert b. induction s as [|d s IH]; intros b; [done|]. cbn [collapse_spaces_go].
  destruct (decide (d = " "%char)); [destruct b|]; rewrite ?elem_of_cons;
    intros H; try (right; by eapply IH);
    destruct H as [->|H]; [by left|right; by eapply IH| by left|right; by eapply IH].
Qed.

Lemma collapse_spaces_clean s : clean_edges s → clean_edges (collapse_spaces s).
Proof.
  intros [(c & t & -> & Hc) (u & d & Hu & Hd)].
  assert (∀ x, isspace x = false → x ≠ " "%char) as Hsp by (by intros x H ->).
  split.
  - exists c, (collapse_spaces t). split; [|done]. unfold collapse_spaces. simpl.
    by rewrite decide_False by auto.
  - exists (collapse_spaces u), d. split; [|done]. rewrite Hu.
    unfold collapse_spaces. by apply collapse_spaces_go_last, Hsp.
Qed.

Lemma collapse_spaces_go_twice s :
  collapse_spaces_go false (collapse_spaces_go false s) = collapse_spaces_go false s
  ∧ collapse_spaces_go true (collapse_spaces_go true s) = collapse_spaces_go true s.
Proof.
  induction s as [|c s [IHf IHt]]; [done|]. cbn [collapse_spaces_go].
  destruct (decide (c = " "%char)) as [->|Hc].
  - split; [|done]. cbn [collapse_spaces_go]. rewrite decide_True by done.
    by rewrite IHt.
  - split; cbn [collapse_spaces_go]; rewrite decide_False by done; by rewrite IHf.
Qed.

Lemma collapse_spaces_twice s : collapse_spaces (collapse_spaces s) = collapse_spaces s.
Proof. apply collapse_spaces_go_twice. Qed.

Lemma collapse_spaces_go_head s r : collapse_spaces_go true s ≠ " "%char :: r.
Proof.
  induction s as [|c s IH]; [done|]. cbn [collapse_spaces_go].
  destruct (decide (c = " "%char)); [done|]. by intros [= ->].
Qed.

Lemma collapse_spaces_go_single b s a r :
  collapse_spaces_go b s ≠ a ++ " "%char :: " "%char :: r.
Proof.
  revert b a. induction s as [|c s IH]; intros b a.
  - simpl. by destruct a.
  - cbn [collapse_spaces_go]. destruct (decide (c = " "%char)) as [->|Hc].
    + destruct b; [apply IH|]. destruct a as [|x a].
      * intros [= H]. by apply collapse_spaces_go_head in H.
      * intros [= _ H]. by apply IH in H.
    + destruct a as [|x a]; [by intros [= ->]|].
      intros [= _ H]. by apply IH in H.
Qed.

Lemma split_ws_collapse_go s :
  (∀ cur, split_ws_go (collapse_spaces_go false s) cur = split_ws_go s cur)
  ∧ split_ws_go (collapse_spaces_go true s) [] = split_ws_go s [].
Proof.
  induction s as [|c s [IHf IHt]]; [done|]. cbn [collapse_spaces_go].
  destruct (decide (c = " "%char)) as [->|Hc].
  - split; [|by rewrite IHt]. intros cur. simpl. by destruct cur; rewrite IHt.
  - split; [intros cur|]; simpl; destruct (isspace c); rewrite ?IHf; done.
Qed.

Lemma split_ws_collapse s : split_ws (collapse_spaces s) = split_ws s.
Proof. apply split_ws_collapse_go. Qed.

Lemma collapse_newlines_go_line run l t :
  l ≠ [] → "010"%char ∉ l →
  collapse_newlines_go run (l ++ t) = l ++ collapse_newlines_go 0 t.
Proof.
  intros Hne Hl. destruct l as [|c l]; [done|]. clear Hne.
  revert run c Hl. induction l as [|d l IH]; intros run c Hl.
  - cbn [app collapse_newlines_go]. rewrite decide_False; [done|].
    intros ->. apply Hl. left.
  - cbn [app collapse_newlines_go]. rewrite decide_False.
    + f_equal. apply (IH 0%nat d). intros Hin. apply Hl. by right.
    + intros ->. apply Hl. left.
Qed.

Lemma collapse_newlines_go_join run ls :
  (run ≤ 1)%nat →
  Forall (λ l, l ≠ [] ∧ "010"%char ∉ l) ls →
  collapse_newlines_go run (join nl ls) = join nl ls.
Proof.
  intros Hrun Hls. revert run Hrun.
  induction Hls as [|l ls [Hne Hl] Hls IH]; intros run Hrun; [done|].
  destruct ls as [|m ls].
  - cbn [join]. rewrite <- (app_nil_r l) at 1.
    rewrite collapse_newlines_go_line by done. by rewrite app_nil_r.
  - change (join nl (l :: m :: ls)) with (l ++ "010"%char :: join nl (m :: ls)).
    rewrite collapse_newlines_go_line by done. f_equal.
    cbn [collapse_newlines_go]. rewrite decide_True by done.
    cbn. f_equal. by apply IH.
Qed.

Lemma join_clean_edges sep ls :
  ls ≠ [] → Forall clean_edges ls → clean_edges (join sep ls).
Proof.
  induction ls as [|w ls IH]; [done|]. intros _ Hws.
  apply Forall_cons in Hws as [Hw Hws].
  destruct ls as [|w' ls]; [done|].
  destruct (IH ltac:(done) Hws) as [_ (t & c & Ht & Hc)].
  destruct Hw as [(d & u & -> & Hd) _].
  change (join sep ((d :: u) :: w' :: ls))
    with ((d :: u) ++ sep ++ join sep (w' :: ls)).
  split.
  - exists d, (u ++ sep ++ join sep (w' :: ls)). done.
  - exists ((d :: u) ++ sep ++ t), c. rewrite Ht.
    split; [|done]. by rewrite <- !app_assoc.
Qed.

(** The lines [clean_text] keeps. *)
Lemma kept_lines_tidy text_ :
  Forall (λ l, l ≠ [] ∧ clean_edges l ∧ "010"%char ∉ l) (kept_lines text_).
Proof.
  unfold kept_lines. apply Forall_forall. intros l Hl.
  apply list_elem_of_filter in Hl as [Hne Hl].
  apply list_elem_of_fmap in Hl as (x & -> & Hx).
  split; [done|]. split.
  - by destruct (strip_nil_or_clean x).
  - intros Hin. apply strip_elem in Hin.
    pose proof (split_lines_free text_) as Hfree.
    rewrite Forall_forall in Hfree. by apply (Hfree x).
Qed.

Lemma collapsed_lines_tidy ls :
  Forall (λ l, l ≠ [] ∧ clean_edges l ∧ "010"%char ∉ l) ls →
  Forall (λ l, l ≠ [] ∧ clean_edges l ∧ "010"%char ∉ l) (map collapse_spaces ls).
Proof.
  intros H. apply Forall_fmap. eapply Forall_impl; [exact H|].
  intros l (Hne & Hclean & Hfree). cbn.
  pose proof (collapse_spaces_clean l Hclean) as Hc. split; [|split; [done|]].
  - destruct Hc as [(c & t & -> & _) _]. done.
  - intros Hin. by apply collapse_spaces_go_elem in Hin.
Qed.

Lemma clean_text_lines text_ :
  clean_text text_ = join nl (map collapse_spaces (kept_lines text_)).
Proof.
  destruct text_ as [|c t]; [done|]. unfold clean_text.
  set (ls := kept_lines (c :: t)).
  pose proof (collapsed_lines_tidy ls (kept_lines_tidy (c :: t))) as Htidy.
  rewrite collapse_spaces_join. unfold collapse_newlines.
  rewrite collapse_newlines_go_join.
  - destruct (map collapse_spaces ls) as [|l ls'] eqn:Hls; [done|].
    apply strip_clean, join_clean_edges; [done|].
    eapply Forall_impl; [exact Htidy|]. by intros x (_ & ? & _).
  - lia.
  - eapply Forall_impl; [exact Htidy|]. by intros x (? & _ & ?).
Qed.

End CollapseFacts.

(** X13: cleaning changes no word: the words of the cleaned text are the
    words of the text, in the same order. *)
Theorem clean_text_keeps_words (text_ : pystr) :
  split_ws (clean_text text_) = split_ws text_.
Proof.
  rewrite clean_text_lines, split_ws_join_lines, map_map.
  rewrite <- (join_split_lines text_) at 2. rewrite split_ws_join_lines.
  unfold kept_lines. induction (split nl text_) as [|l ls IH]; [done|].
  cbn [map]. rewrite filter_cons. destruct (decide (strip l ≠ [])) as [Hne|He].
  - cbn [map concat]. by rewrite IH, split_ws_collapse, split_ws_strip.
  - apply dec_stable in He. cbn [concat]. rewrite IH, <- (split_ws_strip l), He.
    done.
Qed.

(** X14: the cleaned text is in normal form: it is made of lines that are
    not empty, hold no white space at either end, and it has nowhere two
    spaces in a row; the last two steps of [clean_text], on runs of line
    feeds and on the ends of the text, find nothing left to change. *)
Theorem clean_text_normal_form (text_ : pystr) :
  ∃ lines,
    clean_text text_ = join nl lines
    ∧ lines = map collapse_spaces (kept_lines text_)
    ∧ Forall (λ l, l ≠ [] ∧ strip l = l ∧ "010"%char ∉ l) lines
    ∧ (∀ a b, clean_text text_ ≠ a ++ " "%char :: " "%char :: b)
    ∧ collapse_newlines (collapse_spaces (join nl (kept_lines text_)))
      = collapse_spaces (join nl (kept_lines text_)).
Proof.
  exists (map collapse_spaces (kept_lines text_)).
  pose proof (collapsed_lines_tidy _ (kept_lines_tidy text_)) as Htidy.
  split; [apply clean_text_lines|]. split; [done|]. split; [|split].
  - eapply Forall_impl; [exact Htidy|]. intros l (Hne & Hclean & Hfree).
    split; [done|]. split; [by apply strip_clean|done].
  - intros a b. rewrite clean_text_lines, <- collapse_spaces_join.
    apply collapse_spaces_go_single.
  - rewrite collapse_spaces_join. apply collapse_newlines_go_join; [lia|].
    eapply Forall_impl; [exact Htidy|]. by intros x (? & _ & ?).
Qed.

(** X15: cleaning a cleaned text changes nothing. *)
Theorem clean_text_idempotent (text_ : pystr) :
  clean_text (clean_text text_) = clean_text text_.
Proof.
  rewrite (clean_text_lines text_).
  pose proof (collapsed_lines_tidy _ (kept_lines_tidy text_)) as Htidy.
  set (ls := map collapse_spaces (kept_lines text_)) in *.
  assert (map collapse_spaces ls = ls) as Hcol.
  { subst ls. rewrite map_map. apply map_ext. intros l. apply collapse_spaces_twice. }
  clearbody ls. destruct ls as [|l ls]; [done|].
  rewrite clean_text_lines. f_equal. rewrite <- Hcol at 2. f_equal.
  unfold kept_lines. rewrite split_join_lines; [|done|].
  - assert (map strip (l :: ls) = l :: ls) as ->.
    { rewrite <- (map_id (l :: ls)) at 2. apply Forall_fmap_ext_1.
      eapply Forall_impl; [exact Htidy|]. intros x (_ & Hclean & _).
      by apply strip_clean. }
    assert (Forall (λ x : pystr, x ≠ []) (l :: ls)) as Hne
      by (eapply Forall_impl; [exact Htidy|]; by intros x (? & _)).
    clear Htidy Hcol. induction Hne as [|x xs Hx _ IH]; [done|].
    by rewrite filter_cons_True, IH.
  - eapply Forall_impl; [exact Htidy|]. by intros x (_ & _ & ?).
Qed.

(** ** File names *)

Section FileNames.

Implicit Types (s base ext : pystr) (c : ascii).

Lemma contains_elem c s : contains c s = true ↔ c ∈ s.
Proof.
  unfold contains. rewrite existsb_exists. split.
  - intros (d & Hd & Heq). apply bool_decide_eq_true in Heq as ->.
    by apply list_elem_of_In.
  - intros H. exists c. split; [by apply list_elem_of_In|].
    by apply bool_decide_eq_true.
Qed.

Lemma rsplit_last_None c s : c ∉ s → rsplit_last c s = None.
Proof.
  induction s as [|d s IH]; [done|]. intros H. cbn [rsplit_last].
  rewrite IH by (intros ?; apply H; by right).
  rewrite decide_False; [done|]. intros ->. apply H. left.
Qed.

Lemma rsplit_last_app c base ext :
  c ∉ ext → rsplit_last c (base ++ c :: ext) = Some (base, ext).
Proof.
  intros Hext. induction base as [|d base IH]; cbn [app rsplit_last].
  - rewrite rsplit_last_None by done. by rewrite decide_True.
  - by rewrite IH.
Qed.

End FileNames.

(** X16: a file name is read by its last extension, whatever its case: for
    a name made of a base, a dot and an extension without a dot,
    [get_file_extension] gives the extension in lower case and
    [is_allowed_file] says whether that is pdf, docx or txt; a name without
    a dot has no extension and is not allowed. *)
Theorem file_extension_of_name (base ext : pystr) :
  (("."%char ∉ ext →
    get_file_extension (base ++ "."%char :: ext) = lower ext
    ∧ is_allowed_file (base ++ "."%char :: ext)
      = bool_decide (lower ext ∈ [lit "pdf"; lit "docx"; lit "txt"]))
   ∧ ("."%char ∉ base →
      get_file_extension base = [] ∧ is_allowed_file base = false)).
Proof.
  split.
  - intros Hext. unfold get_file_extension, is_allowed_file, rsplit1.
    assert (contains "."%char (base ++ "."%char :: ext) = true) as ->.
    { apply contains_elem, elem_of_app. right. left. }
    by rewrite rsplit_last_app.
  - intros Hbase. unfold get_file_extension, is_allowed_file.
    destruct (contains "."%char base) eqn:Hc; [|done].
    by apply contains_elem in Hc.
Qed.

Lemma file_extension_of_name_witness :
  (get_file_extension (lit "Lease.v2.PDF") = lit "pdf"
   ∧ is_allowed_file (lit "Lease.v2.PDF") = true)
  ∧ (get_file_extension (lit "README") = []
     ∧ is_allowed_file (lit "README") = false).
Proof.
  split.
  - apply (proj1 (file_extension_of_name (lit "Lease.v2") (lit "PDF"))).
    by vm_compute; intros H; repeat (apply elem_of_cons in H as [H|H]; [done|]);
      apply elem_of_nil in H.
  - apply (proj2 (file_extension_of_name (lit "README") [])).
    by vm_compute; intros H; repeat (apply elem_of_cons in H as [H|H]; [done|]);
      apply elem_of_nil in H.
Defined.

(** ** The fixed-window chunker *)

Section WindowFacts.

Implicit Types (chunk_size overlap start : Z).

Lemma chunk_text_loop_ends fuel (text_ : pystr) chunk_size overlap start chunks :
  overlap < chunk_size →
  (Z.to_nat (Z.of_nat (length text_) - start) < fuel)%nat →
  is_Some (chunk_text_loop fuel text_ chunk_size overlap
             (Z.of_nat (length text_)) start chunks).
Proof.
  intros Hov. revert start chunks.
  induction fuel as [|fuel IH]; intros start chunks Hfuel; [lia|].
  cbn [chunk_text_loop]. destruct (start <? _) eqn:Hs; [|by eexists].
  apply Z.ltb_lt in Hs.
  destruct (_ <=? Z.min _ _) eqn:He; [by eexists|]. apply Z.leb_gt in He.
  apply IH. lia.
Qed.

Lemma chunk_text_loop_stuck fuel (text_ : pystr) chunk_size overlap start chunks :
  chunk_size ≤ overlap →
  chunk_size < Z.of_nat (length text_) →
  0 < Z.of_nat (length text_) →
  start ≤ 0 →
  chunk_text_loop fuel text_ chunk_size overlap (Z.of_nat (length text_)) start chunks
  = None.
Proof.
  intros Hov Hcs Hlen. revert start chunks.
  induction fuel as [|fuel IH]; intros start chunks Hstart; [done|].
  cbn [chunk_text_loop].
  destruct (start <? _) eqn:Hs; [|apply Z.ltb_ge in Hs; lia].
  destruct (_ <=? Z.min _ _) eqn:He; [apply Z.leb_le in He; lia|].
  apply IH. lia.
Qed.

Lemma length_lstrip s : (length (lstrip s) ≤ length s)%nat.
Proof.
  induction s as [|c s IH]; simpl; [lia|]. destruct (isspace c); simpl; lia.
Qed.

Lemma length_strip s : (length (strip s) ≤ length s)%nat.
Proof.
  unfold strip, rstrip.
  pose proof (length_lstrip (reverse (lstrip (reverse s)))) as H1.
  pose proof (length_lstrip (reverse s)) as H2.
  rewrite !length_reverse in *. lia.
Qed.

Lemma length_slice {A} (l : list A) a b :
  0 ≤ b - a → (Z.of_nat (length (slice l a b)) ≤ b - a).
Proof.
  intros Hab. unfold slice. rewrite length_take, length_drop.
  destruct (a <? 0) eqn:Ha, (b <? 0) eqn:Hb; lia.
Qed.

Lemma chunk_text_loop_chunks fuel (text_ : pystr) chunk_size overlap start chunks result :
  0 ≤ chunk_size →
  Forall (λ c, c ≠ [] ∧ strip c = c ∧ Z.of_nat (length c) ≤ chunk_size) chunks →
  chunk_text_loop fuel text_ chunk_size overlap (Z.of_nat (length text_)) start chunks
  = Some result →
  Forall (λ c, c ≠ [] ∧ strip c = c ∧ Z.of_nat (length c) ≤ chunk_size) result.
Proof.
  intros Hcs. revert start chunks.
  induction fuel as [|fuel IH]; intros start chunks Hchunks; [done|].
  cbn [chunk_text_loop]. destruct (start <? _) eqn:Hs; [|by intros [= <-]].
  apply Z.ltb_lt in Hs.
  set (end_ := Z.min (start + chunk_size) (Z.of_nat (length text_))).
  set (chunk := strip (slice text_ start end_)).
  assert (Forall (λ c, c ≠ [] ∧ strip c = c ∧ Z.of_nat (length c) ≤ chunk_size)
            match chunk with
            | [] => chunks
            | _ :: _ => chunks ++ [chunk]
            end) as Hnext.
  { destruct chunk as [|c u] eqn:Hchunk; [done|].
    apply Forall_app. split; [done|]. constructor; [|constructor].
    split; [done|]. split; [rewrite <- Hchunk; apply strip_strip|].
    rewrite <- Hchunk. subst chunk.
    pose proof (length_strip (slice text_ start end_)) as H1.
    pose proof (length_slice text_ start end_) as H2. subst end_. lia. }
  destruct (_ <=? end_); [by intros [= <-]|]. by apply IH.
Qed.

Lemma chunk_text_loop_fuel fuel fuel' (text_ : pystr) chunk_size overlap len start
    chunks r r' :
  chunk_text_loop fuel text_ chunk_size overlap len start chunks = Some r →
  chunk_text_loop fuel' text_ chunk_size overlap len start chunks = Some r' →
  r = r'.
Proof.
  revert fuel' start chunks. induction fuel as [|fuel IH];
    intros [|fuel'] start chunks; try done.
  cbn [chunk_text_loop]. destruct (start <? len); [|congruence].
  destruct (len <=? _); [congruence|]. apply IH.
Qed.

End WindowFacts.

(** X17: the fixed-window chunker ends whenever the overlap is smaller than
    the window: a fuel of the length of the text plus one is enough, and
    more fuel gives the same chunks. *)
Theorem chunk_text_terminates
    (fuel : nat) (text_ : pystr) (chunk_size overlap : Z) :
  overlap < chunk_size →
  (length text_ < fuel)%nat →
  ∃ chunks,
    chunk_text fuel text_ chunk_size overlap = Some chunks
    ∧ chunk_text (S (length text_)) text_ chunk_size overlap = Some chunks.
Proof.
  intros Hov Hfuel.
  assert (∀ f, (length text_ < f)%nat →
               is_Some (chunk_text f text_ chunk_size overlap)) as Hsome.
  { intros f Hf. unfold chunk_text. destruct text_ as [|c t]; [by eexists|].
    destruct (strip (c :: t)); [by eexists|].
    apply chunk_text_loop_ends; [done|lia]. }
  destruct (Hsome fuel Hfuel) as [chunks Hc].
  destruct (Hsome (S (length text_)) ltac:(lia)) as [chunks' Hc'].
  exists chunks. split; [done|]. rewrite Hc'. f_equal.
  revert Hc Hc'. unfold chunk_text. destruct text_ as [|c t]; [congruence|].
  destruct (strip (c :: t)); [congruence|].
  intros H H'. symmetry. by eapply chunk_text_loop_fuel.
Qed.

Lemma chunk_text_terminates_witness :
  ∃ chunks,
    chunk_text 50 (lit "abcdefghij") 4 1 = Some chunks
    ∧ chunk_text (S (length (lit "abcdefghij"))) (lit "abcdefghij") 4 1 = Some chunks.
Proof.
  apply (chunk_text_terminates 50 (lit "abcdefghij") 4 1).
  - reflexivity.
  - vm_compute. lia.
Defined.

(** X18: the fixed-window chunker never returns when the overlap is not
    smaller than the window and the text, which is not blank, is longer
    than the window: its loop steps back instead of forward, whatever fuel
    it is given. *)
Theorem chunk_text_never_ends
    (fuel : nat) (text_ : pystr) (chunk_size overlap : Z) :
  chunk_size ≤ overlap →
  chunk_size < Z.of_nat (length text_) →
  strip text_ ≠ [] →
  chunk_text fuel text_ chunk_size overlap = None.
Proof.
  intros Hov Hlen Hne. unfold chunk_text.
  destruct text_ as [|c t]; [done|]. destruct (strip (c :: t)); [done|].
  apply chunk_text_loop_stuck; [done|done|simpl; lia|done].
Qed.

Lemma chunk_text_never_ends_witness :
  chunk_text 1000 (lit "abcdefghij") 4 4 = None.
Proof.
  apply (chunk_text_never_ends 1000 (lit "abcdefghij") 4 4).
  - reflexivity.
  - reflexivity.
  - discriminate.
Defined.

(** X19: every chunk of the fixed-window chunker is not empty, holds no
    white space at either end, and is no longer than the window. *)
Theorem chunk_text_chunks
    (fuel : nat) (text_ : pystr) (chunk_size overlap : Z) (chunks : list pystr) :
  0 ≤ chunk_size →
  chunk_text fuel text_ chunk_size overlap = Some chunks →
  Forall (λ c, c ≠ [] ∧ strip c = c ∧ Z.of_nat (length c) ≤ chunk_size) chunks.
Proof.
  intros Hcs. unfold chunk_text.
  destruct text_ as [|c t]; [by intros [= <-]|].
  destruct (strip (c :: t)); [by intros [= <-]|].
  by apply chunk_text_loop_chunks.
Qed.

Lemma chunk_text_chunks_witness :
  Forall (λ c, c ≠ [] ∧ strip c = c ∧ Z.of_nat (length c) ≤ 4)
    [lit "ab"; lit "cd"; lit "ef"].
Proof.
  apply (chunk_text_chunks 50 (lit "ab  cd ef") 4 1).
  - lia.
  - reflexivity.
Defined.

(** ** Processing a document *)

Section ProcessFacts.

Variable extract_text_from_pdf : pystr → pystr + Raised.
Variable extract_text_from_docx : pystr → pystr + Raised.
Variable extract_text_from_txt : pystr → pystr + Raised.

Lemma chunk_text_loop_prefix fuel (text_ : pystr) chunk_size overlap len start
    chunks r :
  chunk_text_loop fuel text_ chunk_size overlap len start chunks = Some r →
  ∃ rest, r = chunks ++ rest.
Proof.
  revert start chunks. induction fuel as [|fuel IH]; intros start chunks; [done|].
  cbn [chunk_text_loop].
  destruct (start <? len); [|intros [= <-]; exists []; by rewrite app_nil_r].
  set (chunk := strip _).
  assert (∃ rest, match chunk with
                  | [] => chunks
                  | _ :: _ => chunks ++ [chunk]
                  end = chunks ++ rest) as [rest Hrest].
  { destruct chunk; [exists []; by rewrite app_nil_r|by eexists]. }
  rewrite Hrest. destruct (len <=? _); [intros [= <-]; by eexists|].
  intros H. apply IH in H as [rest' ->]. exists (rest ++ rest').
  by rewrite app_assoc.
Qed.

Lemma strip_head_kept c s : isspace c = false → strip (c :: s) ≠ [].
Proof.
  intros Hc H. unfold strip in H. rewrite <- rstrip_lstrip in H.
  simpl in H. rewrite Hc in H. apply rstrip_nil_iff in H.
  apply Forall_cons in H as [H _]. congruence.
Qed.

Lemma slice_head (c : ascii) (t : pystr) b :
  0 < b → ∃ u, slice (c :: t) 0 b = c :: u.
Proof.
  intros Hb. unfold slice. cbn [length].
  replace (0 <? 0) with false by done. replace (b <? 0) with false by lia.
  replace (Z.to_nat (Z.min 0 _)) with 0%nat by lia. rewrite drop_0.
  destruct (Z.to_nat _) as [|k] eqn:Hk; [lia|]. by eexists.
Qed.

Lemma clean_text_strip raw : strip (clean_text raw) = clean_text raw.
Proof.
  rewrite clean_text_lines.
  pose proof (collapsed_lines_tidy _ (kept_lines_tidy raw)) as Htidy.
  destruct (map collapse_spaces (kept_lines raw)) as [|l ls]; [done|].
  apply strip_clean, join_clean_edges; [done|].
  eapply Forall_impl; [exact Htidy|]. by intros x (_ & ? & _).
Qed.

Lemma clean_text_head c t raw : clean_text raw = c :: t → isspace c = false.
Proof.
  intros H. pose proof (strip_nil_or_clean (clean_text raw)) as Hs.
  rewrite clean_text_strip, H in Hs.
  destruct Hs as [|[(d & u & [= <- <-] & Hd) _]]; done.
Qed.

(** X20: processing a file that is not cached: an exception of the
    extractor, and the [ValueError] for a type other than pdf, docx and
    txt, come out as they are; a text that cleans to nothing raises; any
    other text is returned cleaned, with its counts of characters and
    words and the file type as metadata, and with at least one chunk,
    every chunk within the window of 1000 characters. *)
Theorem process_document_fresh (fuel : nat) (file_path file_type : pystr) :
  let run := process_document extract_text_from_pdf extract_text_from_docx
               extract_text_from_txt fuel file_path file_type None None in
  match extract extract_text_from_pdf extract_text_from_docx extract_text_from_txt
          file_path file_type with
  | inr e => run = Some (inr e)
  | inl raw =>
      let text_ := clean_text raw in
      (length text_ < fuel)%nat →
      match text_ with
      | [] =>
          run = Some (inr (Exception (lit "No text content extracted from document. The document may be empty, image-based, or corrupted.")))
      | _ :: _ =>
          ∃ chunks,
            run = Some (inl (mkProcessed text_
                     (<[lit "file_type" := MStr file_type]>
                      (<[lit "word_count" := MInt (Z.of_nat (length (split_ws text_)))]>
                       (<[lit "char_count" := MInt (Z.of_nat (length text_))]> ∅)))
                     chunks))
            ∧ chunks ≠ []
            ∧ Forall (λ c, c ≠ [] ∧ strip c = c ∧ Z.of_nat (length c) ≤ 1000) chunks
      end
  end.
Proof.
  intros run. subst run. unfold process_document.
  destruct (extract _ _ _ _ _) as [raw|e]; [|done].
  cbn zeta. intros Hfuel. rewrite clean_text_strip.
  destruct (clean_text raw) as [|c t] eqn:Hclean; [done|].
  pose proof (clean_text_head _ _ _ Hclean) as Hc.
  assert (strip (c :: t) = c :: t) as Hs by (by rewrite <- Hclean, clean_text_strip).
  unfold chunk_text. rewrite Hs.
  destruct (chunk_text_loop_ends fuel (c :: t) window_size window_overlap 0 [])
    as [chunks Hchunks]; [done|lia|].
  rewrite Hchunks. cbn [mbind option_bind]. exists chunks.
  split; [done|]. split.
  - destruct fuel as [|fuel]; [done|]. revert Hchunks. cbn [chunk_text_loop].
    assert ((0 <? Z.of_nat (length (c :: t))) = true) as -> by (apply Z.ltb_lt; cbn [length]; lia).
    set (end_ := Z.min _ _).
    destruct (slice_head c t end_) as [u ->].
    { subst end_. unfold window_size. cbn [length]. lia. }
    pose proof (strip_head_kept c u Hc) as Hne.
    destruct (strip (c :: u)) as [|d v]; [done|].
    destruct (_ <=? _); [by intros [= <-]|].
    intros H. by apply chunk_text_loop_prefix in H as [rest ->].
  - eapply (chunk_text_loop_chunks fuel (c :: t) window_size window_overlap 0 []);
      [done|done|exact Hchunks].
Qed.

End ProcessFacts.

(** ** The line chunker of the reasoning engine *)

Section LineChunker.

Variable chunk_size : Z.

Lemma _chunk_document_loop_runs paragraphs chunks cur len runs g :
  chunks = map block runs →
  cur = body g →
  len = Z.of_nat (length cur) →
  Forall (run_ok chunk_size) runs →
  g = [] ∨ run_ok chunk_size g →
  ∃ runs' g',
    _chunk_document_loop chunk_size paragraphs chunks cur len
    = (map block runs', body g')
    ∧ Forall (run_ok chunk_size) runs'
    ∧ (g' = [] ∨ run_ok chunk_size g')
    ∧ concat runs' ++ g' = concat runs ++ g ++ paragraphs
    ∧ (g ≠ [] ∨ paragraphs ≠ [] → g' ≠ []).
Proof.
  revert chunks cur len runs g.
  induction paragraphs as [|p rest IH]; intros chunks cur len runs g -> -> -> Hruns Hg.
  - exists runs, g. rewrite app_nil_r. repeat split; try done. by intros [|].
  - cbn [_chunk_document_loop]. cbn zeta.
    destruct (_ <=? _) eqn:Hfit.
    + apply Z.leb_le in Hfit.
      destruct (IH (map block runs) (body g ++ p ++ nl ++ nl)
                  (Z.of_nat (length (body g)) + Z.of_nat (length p) + 2)
                  runs (g ++ [p])) as (runs' & g' & Hloop & Hr & Hg' & Hcat & Hne).
      * done.
      * by rewrite body_app, body_single.
      * rewrite !length_app. cbn [length nl]. lia.
      * done.
      * right. split; [by destruct g|]. left.
        rewrite body_app, body_single, !length_app. cbn [length nl]. lia.
      * exists runs', g'. rewrite Hloop. split; [done|]. split; [done|].
        split; [done|]. split; [by rewrite Hcat, <- !app_assoc|].
        intros _. apply Hne. left. by destruct g.
    + assert (∃ runs1,
                 match body g with
                 | [] => map block runs
                 | _ :: _ => map block runs ++ [strip (body g)]
                 end = map block runs1
                 ∧ Forall (run_ok chunk_size) runs1
                 ∧ concat runs1 = concat runs ++ g) as (runs1 & -> & Hruns1 & Hcat1).
      { destruct Hg as [->|Hg].
        - exists runs. by rewrite app_nil_r.
        - exists (runs ++ [g]). pose proof Hg as [Hne _].
          pose proof (body_nonempty g Hne) as Hb.
          destruct (body g) eqn:Hbody; [done|]. rewrite <- Hbody, strip_body by done.
          rewrite map_app, concat_app. cbn [map concat]. rewrite app_nil_r.
          split; [done|]. split; [|done]. apply Forall_app_2; [done|by apply Forall_singleton]. }
      destruct (IH (map block runs1) (p ++ nl ++ nl) (Z.of_nat (length p) + 2)
                  runs1 [p]) as (runs' & g' & Hloop & Hr & Hg' & Hcat & Hne).
      * done.
      * by rewrite body_single.
      * rewrite !length_app. cbn [length nl]. lia.
      * done.
      * right. split; [done|]. right. by eexists.
      * exists runs', g'. rewrite Hloop. split; [done|]. split; [done|].
        split; [done|]. split; [by rewrite Hcat, Hcat1, <- !app_assoc|].
        intros _. apply Hne. by left.
Qed.

Lemma _chunk_document_runs_aux (text_ : pystr) :
  ∃ runs,
    concat runs = split nl text_
    ∧ runs ≠ []
    ∧ Forall (run_ok chunk_size) runs
    ∧ _chunk_document text_ chunk_size = map block runs.
Proof.
  unfold _chunk_document.
  destruct (_chunk_document_loop_runs (split nl text_) [] [] 0 [] [])
    as (runs & g & -> & Hruns & Hg & Hcat & Hne); try done; [by left|].
  assert (g ≠ []) as Hg'. { apply Hne. right. apply split_go_nonempty. }
  destruct Hg as [->|Hg]; [done|].
  pose proof (body_nonempty g Hg') as Hb. exists (runs ++ [g]).
  destruct (body g) eqn:Hbody; [done|]. rewrite <- Hbody, strip_body by done.
  rewrite concat_app, map_app. cbn [concat map]. rewrite app_nil_r.
  split; [done|]. split; [by destruct runs|]. split; [|done].
  apply Forall_app_2; [done|by apply Forall_singleton].
Qed.

End LineChunker.

(** X21: the line chunker of the reasoning engine cuts the lines of the text
    into consecutive runs that are not empty, one chunk per run: the lines
    of the run joined by blank lines, without white space around.  A run
    of more than one line fits the chunk size, two characters counted
    after each line.  So there is always at least one chunk, also for the
    empty text, and the chunks hold the words of the text, each once, in
    order. *)
Theorem chunk_document_runs (text_ : pystr) (chunk_size : Z) :
  let chunks := _chunk_document text_ chunk_size in
  ∃ runs : list (list pystr),
    concat runs = split nl text_
    ∧ Forall (run_ok chunk_size) runs
    ∧ chunks = map block runs
    ∧ chunks ≠ []
    ∧ concat (map split_ws chunks) = split_ws text_.
Proof.
  intros chunks. subst chunks.
  destruct (_chunk_document_runs_aux chunk_size text_) as (runs & Hcat & Hne & Hok & ->).
  exists runs. split; [done|]. split; [done|]. split; [done|].
  split; [by destruct runs|].
  rewrite <- (join_split_lines text_), split_ws_join_lines, <- Hcat.
  rewrite concat_map_concat, map_map. f_equal.
  apply map_ext. intros g. apply split_ws_block.
Qed.

Section QaFacts.

Variable generate_content : pystr → pystr + pystr.

(** X22: a question about a document is answered from one, two or three
    excerpts, never from none: the count reported with the answer is the
    number of chunks of the document, at most three; when the generation
    fails, the text of its exception is the error of a failure. *)
Theorem answer_document_question_outcomes (document_text query : pystr) :
  let chunks := _chunk_document document_text 1500 in
  let relevant := relevant_chunks document_text query in
  let context := join (nl ++ nl ++ lit "---" ++ nl ++ nl) relevant in
  (1 ≤ length relevant ≤ 3)%nat
  ∧ length relevant = (3 `min` length chunks)%nat
  ∧ Forall (λ c, c ∈ chunks) relevant
  ∧ match generate_content (qa_prompt context query) with
    | inl response_text =>
        _answer_document_question generate_content document_text query
        = QaAnswer true response_text (lit "qa") query (length relevant)
    | inr e =>
        _answer_document_question generate_content document_text query
        = AnalysisFailed false e
    end.
Proof.
  intros chunks relevant context.
  destruct (_chunk_document_runs_aux 1500 document_text) as (runs & _ & Hne & _ & Hchunks).
  assert (length chunks ≠ 0)%nat as Hlen.
  { subst chunks. rewrite Hchunks, length_map. by destruct runs. }
  assert (sorted_scores document_text query
          ≡ₚ imap (λ i c, (i, overlap_score query c, c)) chunks) as Hperm
    by apply sort_by_perm.
  assert (length relevant = (3 `min` length chunks)%nat) as Hrel.
  { subst relevant. unfold relevant_chunks, slice_to. cbn [Z.ltb Z.compare Z.to_nat].
    change (Pos.to_nat 3) with 3%nat.
    by rewrite length_map, length_take, Hperm, length_imap. }
  split; [lia|]. split; [done|]. split.
  - subst relevant. unfold relevant_chunks, slice_to. cbn [Z.ltb Z.compare Z.to_nat].
    apply Forall_forall. intros c Hc. apply list_elem_of_fmap in Hc as (t & -> & Ht).
    apply elem_of_take in Ht as (k & Ht & _). apply list_elem_of_lookup_2 in Ht.
    rewrite Hperm in Ht. apply elem_of_lookup_imap in Ht as (i & c & -> & Hi).
    by apply list_elem_of_lookup_2 in Hi.
  - unfold _answer_document_question. fold relevant. fold context.
    by destruct (generate_content _).
Qed.

End QaFacts.

Lemma process_document_fresh_witness :
  let from_txt : pystr → pystr + Raised :=
    λ _, inl (lit "  Lease   agreement " ++ nl ++ nl ++ nl ++ lit " between two parties ") in
  let unreadable : pystr → pystr + Raised :=
    λ _, inr (Exception (lit "Error extracting text")) in
  ∃ chunks,
    process_document unreadable unreadable from_txt 100 (lit "lease.txt") (lit "txt")
      None None
    = Some (inl (mkProcessed
         (lit "Lease agreement" ++ nl ++ lit "between two parties")
         (<[lit "file_type" := MStr (lit "txt")]>
          (<[lit "word_count" := MInt 5]>
           (<[lit "char_count" := MInt 35]> ∅)))
         chunks))
    ∧ chunks ≠ []
    ∧ Forall (λ c, c ≠ [] ∧ strip c = c ∧ Z.of_nat (length c) ≤ 1000) chunks.
Proof.
  intros from_txt unreadable.
  refine (process_document_fresh unreadable unreadable from_txt 100
            (lit "lease.txt") (lit "txt") _).
  vm_compute. lia.
Defined.

(** ** Asking a document that was just added *)

Section AddThenQuery.

Variable encode : pystr → Embedding.
Variable md5_hexdigest : pystr → pystr.
Variable generate : pystr → pystr + pystr.
Variable file_of : pystr → pystr.
Variable tie_order :
  Collection → Embedding → Z → option (pystr * meta_value) → pystr → Z.

(** X23: a document that was just added can be asked: when the doc_id was
    not registered, the metadata given has no doc_id key, and the id of one
    of the chunks was not in the collection, [query_document] finds the
    document and between one and three of the stored chunks, and answers
    with success, whatever the generation does. *)
Theorem query_document_after_add
    (st : Tool) (content title : pystr) (metadata_ : option Metadata)
    (doc_id : option pystr) (now question : pystr) (chunk : Chunk) :
  let id := match doc_id with
            | None => _generate_doc_id md5_hexdigest content
            | Some d => d
            end in
  let st' := (add_document encode md5_hexdigest file_of st content title metadata_ doc_id now).2 in
  reachable encode md5_hexdigest file_of st →
  index st !! id = None →
  default ∅ metadata_ !! lit "doc_id" = None →
  chunk ∈ _chunk_text content default_chunk_size default_overlap →
  collection st !! chunk_key id chunk = None →
  ∃ answer sources,
    query_document encode generate tie_order st' id question
    = Some (QueryAnswer true id title question answer sources)
    ∧ (1 ≤ length sources ≤ 3)%nat.
Proof.
  intros id st' Hreach Hidx Hmd Hin Hfresh.
  assert (keyed st') as Hkeyed.
  { apply (reachable_keyed encode md5_hexdigest file_of). by apply reachable_add. }
  destruct (search_documents_keyed encode tie_order st' question 3 (Some id) Hkeyed)
    as (hits & Hsearch & _ & Hlen); [done|].
  assert (∃ e, collection st' !! chunk_key id chunk = Some e
               ∧ where_match (doc_where (Some id)) e = true) as (e & He & Hmatch).
  { subst st'. rewrite add_document_fresh by done. fold id. cbn [snd collection].
    eexists. split.
    - apply add_entries_fresh; [| |done].
      + rewrite <- list_fmap_compose. apply chunk_keys_NoDup.
      + by apply (list_elem_of_fmap_2
                    (λ c, (chunk_key id c,
                           (encode (text c),
                            (text c, chunk_metadata id title metadata_ c)))) _ chunk).
    - destruct id as [|c f]; [done|]. cbn [doc_where where_match].
      apply bool_decide_eq_true. cbn [metadata]. unfold chunk_metadata, dict_update.
      by rewrite lookup_union, Hmd. }
  destruct (ranked_rows_complete encode tie_order st' question 3 (Some id) _ _
              He Hmatch) as [d Hd].
  assert (1 ≤ length hits ≤ 3)%nat as Hhits.
  { rewrite Hlen, <- (length_ranked_rows encode tie_order st' question 3).
    change (Z.to_nat 3) with 3%nat.
    destruct (ranked_rows encode tie_order st' question 3 (Some id));
      [by apply elem_of_nil in Hd|cbn [length]; lia]. }
  unfold query_document. rewrite Hsearch. cbn [mbind option_bind results].
  assert (index st' !! id
          = Some (mkDocInfo id title (default ∅ metadata_) now
                    (length (_chunk_text content default_chunk_size default_overlap))
                    (length content) (length (split_ws content)))) as ->.
  { subst st'. rewrite add_document_fresh by done. fold id. cbn [snd index].
    apply lookup_insert_eq. }
  cbn [di_title]. destruct hits as [|h hs]; [simpl in Hhits; lia|].
  by eexists _, _.
Qed.

End AddThenQuery.

Lemma query_document_after_add_witness :
  ∃ answer sources,
    query_document Demo.encode Demo.generate_fails Demo.tie_order Demo.tool_d1 (lit "d1") (lit "b?")
    = Some (QueryAnswer true (lit "d1") (lit "T") (lit "b?") answer sources)
    ∧ (1 ≤ length sources ≤ 3)%nat.
Proof.
  apply (query_document_after_add Demo.encode Demo.md5_hexdigest Demo.generate_fails
           Demo.file_of Demo.tie_order Demo.empty_tool (lit "a text") (lit "T") None (Some (lit "d1")) Demo.now
           (lit "b?") (mkChunk 0 (lit "a text") 8)).
  - apply reachable_empty.
  - reflexivity.
  - reflexivity.
  - vm_compute. left.
  - reflexivity.
Defined.
